(** * Watchman: the fanotify event pipeline

    A shallow embedding of [internal/watcher/watchman.go]: the record parser
    of [captureEvents], handle resolution ([resolve]), the per-event body of
    [processEvents], [maskToString] and [Initialize], together with the parts
    of the dependencies they call (byte slices, go-radix, the expirable LRU).

    Conventions.
    - Go [int] is 64 bits wide (the Makefile builds for GOARCH=amd64); every
      integer the code computes stays far below 2^63, so integers are [Z]
      without wrap-around.  [uint32] and [uint64] values are [Z] in range.
    - A byte slice is a [list byte]; an out-of-range index or slice
      expression is a run-time panic, modelled by the [Panic] outcome.
    - A Go string is a [string]. *)

From Stdlib Require Import ZArith List Bool Lia Sorted.
From Stdlib Require Import Strings.String Strings.Ascii Strings.Byte.
Import ListNotations.

Local Open Scope string_scope.
Local Open Scope Z_scope.
Local Open Scope list_scope.

(** String concatenation, kept apart from list concatenation [++]. *)
Infix "+:+" := String.append (at level 60, right associativity).

(* ================================================================== *)
(** ** Go run-time model: panics, slices, little-endian decoding       *)
(* ================================================================== *)

(** The outcome of a computation that may panic. *)
Inductive go (A : Type) : Type :=
| Ret (a : A)
| Panic.

Arguments Ret {A} a.
Arguments Panic {A}.

Definition bind {A B : Type} (m : go A) (k : A -> go B) : go B :=
  match m with
  | Ret a => k a
  | Panic => Panic
  end.

Notation "x <- m ;; k" := (bind m (fun x => k))
  (at level 61, m at next level, right associativity).

(** [len(s)] as a Go [int]. *)
Definition len {A : Type} (s : list A) : Z := Z.of_nat (List.length s).

(** [s[i]]: panics unless [0 <= i < len(s)]. *)
Definition index (s : list byte) (i : Z) : go byte :=
  if (0 <=? i) && (i <? len s)
  then match nth_error s (Z.to_nat i) with
       | Some b => Ret b
       | None => Panic
       end
  else Panic.

(** [s[lo:hi]]: panics unless [0 <= lo <= hi <= len(s)].  (Go checks [hi]
    against the capacity; every slice expression of the watcher has its
    upper bound guarded by the length, and the slices it takes are never
    grown again, so the length is the bound that matters.) *)
Definition slice (s : list byte) (lo hi : Z) : go (list byte) :=
  if (0 <=? lo) && (lo <=? hi) && (hi <=? len s)
  then Ret (firstn (Z.to_nat (hi - lo)) (skipn (Z.to_nat lo) s))
  else Panic.

(** [s[lo:]] is [s[lo:len(s)]]. *)
Definition slice_from (s : list byte) (lo : Z) : go (list byte) :=
  slice s lo (len s).

(** [s[:hi]] is [s[0:hi]]. *)
Definition slice_to (s : list byte) (hi : Z) : go (list byte) :=
  slice s 0 hi.

Definition byteZ (b : byte) : Z := Z.of_N (Byte.to_N b).

(** [binary.LittleEndian.Uint32(b)]: panics when [len(b) < 4]. *)
Definition Uint32 (b : list byte) : go Z :=
  match b with
  | b0 :: b1 :: b2 :: b3 :: _ =>
      Ret (Z.lor (byteZ b0)
          (Z.lor (Z.shiftl (byteZ b1) 8)
          (Z.lor (Z.shiftl (byteZ b2) 16)
                 (Z.shiftl (byteZ b3) 24))))
  | _ => Panic
  end.

(** [binary.LittleEndian.Uint64(b)]: panics when [len(b) < 8]. *)
Definition Uint64 (b : list byte) : go Z :=
  match b with
  | b0 :: b1 :: b2 :: b3 :: b4 :: b5 :: b6 :: b7 :: _ =>
      Ret (Z.lor (byteZ b0)
          (Z.lor (Z.shiftl (byteZ b1) 8)
          (Z.lor (Z.shiftl (byteZ b2) 16)
          (Z.lor (Z.shiftl (byteZ b3) 24)
          (Z.lor (Z.shiftl (byteZ b4) 32)
          (Z.lor (Z.shiftl (byteZ b5) 40)
          (Z.lor (Z.shiftl (byteZ b6) 48)
                 (Z.shiftl (byteZ b7) 56))))))))
  | _ => Panic
  end.

(** [int32(u)] for a [uint32] value [u]: two's complement reinterpretation. *)
Definition int32_of_uint32 (u : Z) : Z :=
  if u <? 2 ^ 31 then u else u - 2 ^ 32.

(** [bytes.IndexByte(s, c)]: index of the first [c], or [-1]. *)
Fixpoint IndexByte (s : list byte) (c : byte) : Z :=
  match s with
  | [] => -1
  | b :: s' =>
      if Byte.eqb b c then 0
      else let i := IndexByte s' c in
           if i <? 0 then -1 else i + 1
  end.

(** [strings.Join(elems, sep)]. *)
Fixpoint strings_Join (elems : list string) (sep : string) : string :=
  match elems with
  | [] => ""
  | [e] => e
  | e :: rest => e +:+ sep +:+ strings_Join rest sep
  end.

(** [strings.HasPrefix(s, prefix)]. *)
Fixpoint HasPrefix (s prefix : string) {struct prefix} : bool :=
  match prefix with
  | "" => true
  | String p prefix' =>
      match s with
      | "" => false
      | String c s' => Ascii.eqb c p && HasPrefix s' prefix'
      end
  end.

(** [s[n:]] and [s[:n]] for [n <= len(s)], as the radix tree uses them. *)
Fixpoint str_from (n : nat) (s : string) : string :=
  match n, s with
  | S n', String _ s' => str_from n' s'
  | _, _ => s
  end.

Fixpoint str_to (n : nat) (s : string) : string :=
  match n, s with
  | S n', String c s' => String c (str_to n' s')
  | _, _ => ""
  end.

(** The digit table of [fmt]: ["0123456789abcdef"]. *)
Definition ldigits (d : Z) : ascii :=
  match d with
  | 0 => "0" | 1 => "1" | 2 => "2" | 3 => "3"
  | 4 => "4" | 5 => "5" | 6 => "6" | 7 => "7"
  | 8 => "8" | 9 => "9" | 10 => "a" | 11 => "b"
  | 12 => "c" | 13 => "d" | 14 => "e" | _ => "f"
  end%char.

(** The [%x] verb on an unsigned integer: digits are produced from the least
    significant end while [u >= 16], then the last digit; a [uint64] has at
    most 16 of them, which bounds the loop. *)
Fixpoint fmt_hex_loop (fuel : nat) (u : Z) (acc : string) : string :=
  match fuel with
  | O => acc
  | S fuel' =>
      if 16 <=? u
      then fmt_hex_loop fuel' (Z.shiftr u 4) (String (ldigits (Z.land u 15)) acc)
      else String (ldigits u) acc
  end.

Definition fmt_hex (u : Z) : string := fmt_hex_loop 16 u "".

(** The number a string of lower-case hexadecimal digits denotes. *)
Definition hex_digit_value (c : ascii) : option Z :=
  let n := Z.of_N (N_of_ascii c) in
  if (48 <=? n) && (n <=? 57) then Some (n - 48)
  else if (97 <=? n) && (n <=? 102) then Some (n - 87)
  else None.

Fixpoint hex_acc (v : Z) (s : string) : option Z :=
  match s with
  | "" => Some v
  | String c s' =>
      match hex_digit_value c with
      | Some d => hex_acc (16 * v + d) s'
      | None => None
      end
  end.

Definition hex_value (s : string) : option Z := hex_acc 0 s.

(* ================================================================== *)
(** ** Kernel ABI constants ([golang.org/x/sys/unix], linux/fanotify.h) *)
(* ================================================================== *)

Definition FAN_CLOSE_WRITE : Z := 0x8.
Definition FAN_MOVED_TO : Z := 0x80.
Definition FAN_CREATE : Z := 0x100.
Definition FAN_DELETE : Z := 0x200.
Definition FAN_DELETE_SELF : Z := 0x400.
Definition FAN_Q_OVERFLOW : Z := 0x4000.
Definition FAN_ONDIR : Z := 0x40000000.
Definition FANOTIFY_METADATA_VERSION : Z := 3.
Definition FAN_EVENT_INFO_TYPE_DFID_NAME : Z := 2.

(** [unsafe.Sizeof(unix.FanotifyEventMetadata{})], the kernel's
    [FAN_EVENT_METADATA_LEN]: event_len(4) vers(1) reserved(1)
    metadata_len(2) mask(8) fd(4) pid(4).  The info payload starts after
    these 24 bytes. *)
Definition EventMetadataLen : Z := 24.
(** info_type(1) + pad(1) + len(2) + fsid(8). *)
Definition EventInfoFidLen : Z := 12.
(** handle_bytes(4) + handle_type(4). *)
Definition FileHandleLen : Z := 8.

(* ================================================================== *)
(** ** [maskToString]                                                  *)
(* ================================================================== *)

Definition maskToString (mask : Z) : string :=
  let events : list string := [] in
  let events := if negb (Z.land mask FAN_CREATE =? 0)
                then events ++ ["CREATE"] else events in
  let events := if negb (Z.land mask FAN_DELETE =? 0)
                then events ++ ["DELETE"] else events in
  let events := if negb (Z.land mask FAN_DELETE_SELF =? 0)
                then events ++ ["DELETE_SELF"] else events in
  let events := if negb (Z.land mask FAN_CLOSE_WRITE =? 0)
                then events ++ ["CLOSE_WRITE"] else events in
  let events := if negb (Z.land mask FAN_MOVED_TO =? 0)
                then events ++ ["MOVED_TO"] else events in
  if len events =? 0
  then "0x" +:+ fmt_hex mask
  else strings_Join events "|".

(* ================================================================== *)
(** ** [captureEvents]: parsing one read buffer                        *)
(* ================================================================== *)

Record Event : Type := mkEvent {
  Mask : Z;
  IsDir : bool;
  (** [None] is the nil slice. *)
  Handle : option (list byte)
}.

(** What the body of the record loop decides for the record at the head of
    [data], up to the point where it either leaves the loop, skips the
    record, or has built the event to send. *)
Inductive record_action : Type :=
| Break
| Skip (eventLen : Z)
| Emit (e : Event) (eventLen : Z).

Definition parseRecord (data : list byte) : go record_action :=
  hdr <- slice data 0 4 ;;
  eventLen <- Uint32 hdr ;;
  if (len data <? eventLen) || (eventLen =? 0) then Ret Break
  else
    vers <- index data 4 ;;
    if negb (byteZ vers =? FANOTIFY_METADATA_VERSION) then Ret (Skip eventLen)
    else
      m <- slice data 8 16 ;;
      mask <- Uint64 m ;;
      if negb (Z.land mask FAN_Q_OVERFLOW =? 0) then Ret (Skip eventLen)
      else
        eventData <- slice data EventMetadataLen eventLen ;;
        let handle :=
          if EventInfoFidLen + FileHandleLen <=? len eventData
          then Some eventData else None in
        Ret (Emit {| Mask := mask;
                     IsDir := negb (Z.land mask FAN_ONDIR =? 0);
                     Handle := handle |} eventLen).

(** How the parse of one buffer ends. *)
Inductive capture_end : Type :=
| Stopped (rest : list byte)   (** the loop is left; [rest] was not parsed *)
| Cancelled                    (** [ctx.Done()] was selected: the worker returns *)
| Crashed                      (** a run-time panic *)
| OutOfFuel.                   (** never happens, see [parseBuffer_total] *)

(** The loop [for len(data) >= EventMetadataLen { ... }].  [ctx k] tells
    whether the [select] before the [k]-th send finds the context done; the
    result is the list of events sent on [eventChan], in order, and how the
    loop ended.  Every iteration that continues drops [eventLen >= 1] bytes,
    so [length data] iterations are enough. *)
Fixpoint parseLoop (ctx : nat -> bool) (fuel : nat) (k : nat)
    (data : list byte) : list Event * capture_end :=
  if len data <? EventMetadataLen then ([], Stopped data)
  else
    match fuel with
    | O => ([], OutOfFuel)
    | S fuel' =>
        match parseRecord data with
        | Panic => ([], Crashed)
        | Ret Break => ([], Stopped data)
        | Ret (Skip eventLen) =>
            match slice_from data eventLen with
            | Panic => ([], Crashed)
            | Ret data' => parseLoop ctx fuel' k data'
            end
        | Ret (Emit e eventLen) =>
            if ctx k then ([], Cancelled)
            else
              match slice_from data eventLen with
              | Panic => ([e], Crashed)
              | Ret data' =>
                  let (evs, r) := parseLoop ctx fuel' (S k) data' in
                  (e :: evs, r)
              end
        end
    end.

Definition parseBuffer (ctx : nat -> bool) (data : list byte)
  : list Event * capture_end :=
  parseLoop ctx (List.length data) 0%nat data.

(** A context that is never cancelled. *)
Definition background : nat -> bool := fun _ => false.

(** *** Records as the kernel lays them out

    The views below read the fields of the record that starts at the head
    of a byte string; they are used to state what the parser must do. *)

Definition field_event_len (rec : list byte) : Z :=
  match Uint32 rec with Ret n => n | Panic => 0 end.

Definition field_vers (rec : list byte) : Z :=
  match nth_error rec 4 with Some b => byteZ b | None => 0 end.

Definition field_mask (rec : list byte) : Z :=
  match Uint64 (skipn 8 rec) with Ret m => m | Panic => 0 end.

Definition field_info (rec : list byte) : list byte := skipn 24 rec.

(** A complete record the parser accepts: the whole 24-byte metadata header
    is there, [event_len] is the size of the record, the version is the
    kernel's and the overflow bit is clear. *)
Definition well_formed (rec : list byte) : Prop :=
  EventMetadataLen <= len rec /\
  field_event_len rec = len rec /\
  field_vers rec = FANOTIFY_METADATA_VERSION /\
  Z.land (field_mask rec) FAN_Q_OVERFLOW = 0.

(** The event a well-formed record stands for. *)
Definition event_of (rec : list byte) : Event :=
  {| Mask := field_mask rec;
     IsDir := negb (Z.land (field_mask rec) FAN_ONDIR =? 0);
     Handle := if EventInfoFidLen + FileHandleLen <=? len (field_info rec)
               then Some (field_info rec) else None |}.

(** A final record cut short: fewer bytes than a metadata header remain, or
    the declared [event_len] is zero or exceeds what remains. *)
Definition truncated (tail : list byte) : Prop :=
  len tail < EventMetadataLen \/
  field_event_len tail = 0 \/
  len tail < field_event_len tail.

(** A record that carries the queue-overflow marker. *)
Definition overflow_record (rec : list byte) : Prop :=
  EventMetadataLen <= len rec /\
  field_event_len rec = len rec /\
  Z.land (field_mask rec) FAN_Q_OVERFLOW <> 0.

(* ================================================================== *)
(** ** The prefix filter: [github.com/armon/go-radix]                  *)
(* ================================================================== *)

Module radix.

Unset Elimination Schemes.
(** Modelled from the spec: the radix tree is the dependency
    [github.com/armon/go-radix] (v1.0.0 in [go.mod]), whose source is not
    part of the repository; the spec says of it that the filter match "uses
    longest-prefix on a radix tree operating on strings".  The model follows
    the library's [Insert] and [LongestPrefix]: a node has an optional leaf
    [(key, val)], a prefix, and edges sorted by their label byte; the size
    counter, which the watcher never reads, is left out. *)
Inductive node (V : Type) : Type :=
| Node (leaf : option (string * V)) (prefix : string)
       (edges : list (ascii * node V)).
Set Elimination Schemes.

Arguments Node {V} leaf prefix edges.

Definition edge (V : Type) : Type := (ascii * node V)%type.

Definition leaf {V} (n : node V) : option (string * V) :=
  match n with Node l _ _ => l end.
Definition prefix {V} (n : node V) : string :=
  match n with Node _ p _ => p end.
Definition edges {V} (n : node V) : list (edge V) :=
  match n with Node _ _ es => es end.

(** [sort.Search(num, func(i) { return edges[i].label >= label })] on
    edges sorted by label: the first index whose label is not below. *)
Fixpoint search {V} (es : list (edge V)) (label : ascii) : nat :=
  match es with
  | [] => 0%nat
  | (l, _) :: es' => if Ascii.leb label l then 0%nat else S (search es' label)
  end.

Definition getEdge {V} (n : node V) (label : ascii) : option (node V) :=
  match nth_error (edges n) (search (edges n) label) with
  | Some (l, child) => if Ascii.eqb l label then Some child else None
  | None => None
  end.

(** The same lookup in continuation style, so that the tree traversals
    below recurse structurally on the child that is found. *)
Definition withEdge {V A} (found : node V -> A) (missing : A) (label : ascii)
  : list (edge V) -> A :=
  fix go (es : list (edge V)) : A :=
    match es with
    | [] => missing
    | (l, child) :: es' =>
        if Ascii.leb label l
        then (if Ascii.eqb l label then found child else missing)
        else go es'
    end.

(** [edges.Sort()]: by label. *)
Fixpoint sortInsert {V} (e : edge V) (es : list (edge V)) : list (edge V) :=
  match es with
  | [] => [e]
  | e' :: es' =>
      if Ascii.leb (fst e) (fst e') then e :: e' :: es'
      else e' :: sortInsert e es'
  end.

Definition sortEdges {V} (es : list (edge V)) : list (edge V) :=
  fold_right sortInsert [] es.

(** [n.addEdge(e)]: append, then sort. *)
Definition addEdge {V} (n : node V) (e : edge V) : node V :=
  Node (leaf n) (prefix n) (sortEdges (edges n ++ [e])).

(** [longestPrefix(k1, k2)]: length of the common prefix. *)
Fixpoint longestPrefix (k1 k2 : string) : nat :=
  match k1, k2 with
  | String c1 k1', String c2 k2' =>
      if Ascii.eqb c1 c2 then S (longestPrefix k1' k2') else 0%nat
  | _, _ => 0%nat
  end.

(** [s[i]] for [i < len(s)]. *)
Definition byteAt (s : string) (i : nat) : ascii :=
  match String.get i s with Some c => c | None => Ascii.zero end.

(** The split of [Insert]: [n], reached over the edge [search[0]], shares
    only [commonPrefix < len(n.prefix)] bytes with [search].  A new inner
    node takes the shared part; [n] keeps the rest of its prefix below it,
    and the new key becomes the inner node's leaf or a second child. *)
Definition split {V} (n : node V) (s : string) (v : V) (search : string)
    (commonPrefix : nat) : node V :=
  let child := Node None (str_to commonPrefix search) [] in
  let child :=
    addEdge child (byteAt (prefix n) commonPrefix,
                   Node (leaf n) (str_from commonPrefix (prefix n)) (edges n)) in
  let search := str_from commonPrefix search in
  match search with
  | "" => Node (Some (s, v)) (prefix child) (edges child)
  | String c _ => addEdge child (c, Node (Some (s, v)) search [])
  end.

(** The loop of [Insert], from node [n] on with [search] left of the key
    [s]; the in-place updates of the Go code rebuild the path here. *)
Fixpoint insert {V} (n : node V) (s : string) (v : V) (search : string)
    {struct n} : node V :=
  match n with
  | Node lf pre es =>
      match search with
      | "" =>
          match lf with
          | Some (key, _) => Node (Some (key, v)) pre es
          | None => Node (Some (s, v)) pre es
          end
      | String c _ =>
          match getEdge n c with
          | None => addEdge n (c, Node (Some (s, v)) search [])
          | Some _ =>
              (* parent.updateEdge(search[0], ...) / descend into the child *)
              Node lf pre
                (map (fun e : edge V =>
                        if Ascii.eqb (fst e) c
                        then
                          let child := snd e in
                          let commonPrefix := longestPrefix search (prefix child) in
                          if Nat.eqb commonPrefix (String.length (prefix child))
                          then (fst e, insert child s v (str_from commonPrefix search))
                          else (fst e, split child s v search commonPrefix)
                        else e) es)
          end
      end
  end.

(** The loop of [LongestPrefix]; [last] is the last leaf seen. *)
Fixpoint longest {V} (n : node V) (search : string)
    (last : option (string * V)) {struct n} : option (string * V) :=
  match n with
  | Node lf _ es =>
      let last := match lf with Some l => Some l | None => last end in
      match search with
      | "" => last
      | String c _ =>
          withEdge
            (fun child =>
               if HasPrefix search (prefix child)
               then longest child (str_from (String.length (prefix child)) search) last
               else last)
            last c es
      end
  end.

(** *** What a tree holds, and the shape [Insert] keeps *)

(** The keys stored in the subtree of [n]. *)
Fixpoint keys {V} (n : node V) : list string :=
  match n with
  | Node lf _ es =>
      match lf with
      | Some (key, _) => [key]
      | None => []
      end ++ flat_map (fun e : edge V => keys (snd e)) es
  end.

(** The child an edge list has for a label. *)
Fixpoint child {V} (es : list (edge V)) (label : ascii) : option (node V) :=
  match es with
  | [] => None
  | (l, n) :: es' => if Ascii.eqb l label then Some n else child es' label
  end.

(** Edges in strictly increasing order of their label bytes. *)
Definition sorted {V} (es : list (edge V)) : Prop :=
  StronglySorted N.lt (map (fun e : edge V => N_of_ascii (fst e)) es).

(** [shaped path n]: in the subtree of [n], reached from the root along
    prefixes that concatenate to [path] ([n]'s own included), a leaf holds
    exactly the key spelled by the way to it, the edges of every node are
    sorted, and every edge is labelled with the first byte of the non-empty
    prefix of its child. *)
Unset Elimination Schemes.
Inductive shaped {V} : string -> node V -> Prop :=
| shaped_node (path : string) (lf : option (string * V)) (pre : string)
    (es : list (edge V)) :
    (forall key v, lf = Some (key, v) -> key = path) ->
    sorted es ->
    Forall (fun e : edge V =>
              (exists r, prefix (snd e) = String (fst e) r) /\
              shaped (path +:+ prefix (snd e)) (snd e)) es ->
    shaped path (Node lf pre es).
Set Elimination Schemes.


Record Tree (V : Type) : Type := mkTree { root : node V }.
Arguments mkTree {V} root.
Arguments root {V} t.

Definition New {V} : Tree V := mkTree (Node None "" []).

Definition Insert {V} (t : Tree V) (s : string) (v : V) : Tree V :=
  mkTree (insert (root t) s v s).

(** [LongestPrefix(s)] returns [(key, val, true)] for the longest inserted
    key that is a prefix of [s], and [("", nil, false)] when there is none. *)
Definition LongestPrefix {V} (t : Tree V) (s : string) : option (string * V) :=
  longest (root t) s None.

End radix.

(* ================================================================== *)
(** ** The caches: [hashicorp/golang-lru/v2/expirable]                 *)
(* ================================================================== *)

Module lru.

(** Modelled from the spec: the two caches are the dependency
    [github.com/hashicorp/golang-lru/v2/expirable], whose source is not part
    of the repository; the spec asks for "any LRU-with-TTL implementation
    offering thread-safe get/add".  The model follows the library's [Get]
    and [Add] at an explicit clock reading [now] (nanoseconds): the eviction
    list holds the entries, most recently used first, one per key.  The
    background goroutine that unlinks entries after they have expired is not
    modelled; [Get] already treats an expired entry as absent. *)
Record entry : Type := mkEntry {
  Key : string;
  Value : string;
  ExpiresAt : Z
}.

Record LRU : Type := mkLRU {
  size : Z;
  ttl : Z;
  evictList : list entry
}.

(** [time.Hour * 24 * 365 * 10] *)
Definition noEvictionTTL : Z := 3600 * 1000000000 * 24 * 365 * 10.

Definition NewLRU (size ttl : Z) : LRU :=
  let size := if size <? 0 then 0 else size in
  let ttl := if ttl <=? 0 then noEvictionTTL else ttl in
  {| size := size; ttl := ttl; evictList := [] |}.

(** [c.items[key]] *)
Fixpoint items (l : list entry) (key : string) : option entry :=
  match l with
  | [] => None
  | e :: l' => if String.eqb (Key e) key then Some e else items l' key
  end.

Fixpoint unlink (l : list entry) (key : string) : list entry :=
  match l with
  | [] => []
  | e :: l' => if String.eqb (Key e) key then l' else e :: unlink l' key
  end.

(** [Get]: an entry that is absent, or whose expiry lies before [now], is a
    miss and leaves the cache as it is; a hit moves the entry to the front. *)
Definition Get (c : LRU) (now : Z) (key : string) : option string * LRU :=
  match items (evictList c) key with
  | Some ent =>
      if ExpiresAt ent <? now then (None, c)
      else (Some (Value ent),
            {| size := size c; ttl := ttl c;
               evictList := ent :: unlink (evictList c) key |})
  | None => (None, c)
  end.

(** [Add]: an existing entry gets the new value and a renewed expiry and
    moves to the front; a new entry is pushed at the front and, when the
    cache is bounded and now too long, the oldest entry is removed. *)
Definition Add (c : LRU) (now : Z) (key value : string) : LRU :=
  let ent := {| Key := key; Value := value; ExpiresAt := now + ttl c |} in
  match items (evictList c) key with
  | Some _ =>
      {| size := size c; ttl := ttl c;
         evictList := ent :: unlink (evictList c) key |}
  | None =>
      let l := ent :: evictList c in
      let evict := (0 <? size c) && (size c <? len l) in
      {| size := size c; ttl := ttl c;
         evictList := if evict then removelast l else l |}
  end.

(** The entry for [key] is in the cache and has not expired at [now]. *)
Definition live (c : LRU) (now : Z) (key : string) : Prop :=
  exists ent, items (evictList c) key = Some ent /\ now <= ExpiresAt ent.

End lru.

(* ================================================================== *)
(** ** [encoding/base64]: [StdEncoding.EncodeToString]                 *)
(* ================================================================== *)

Definition encodeStd : string :=
  "ABCDEFGHIJKLMNOPQRSTUVWXYZabcdefghijklmnopqrstuvwxyz0123456789+/".

Definition encodeChar (i : Z) : ascii :=
  match String.get (Z.to_nat (Z.land i 63)) encodeStd with
  | Some c => c
  | None => "="%char
  end.

Fixpoint EncodeToString (src : list byte) : string :=
  match src with
  | [] => ""
  | [a] =>
      let val := Z.shiftl (byteZ a) 16 in
      String (encodeChar (Z.shiftr val 18))
        (String (encodeChar (Z.shiftr val 12)) "==")
  | [a; b] =>
      let val := Z.lor (Z.shiftl (byteZ a) 16) (Z.shiftl (byteZ b) 8) in
      String (encodeChar (Z.shiftr val 18))
        (String (encodeChar (Z.shiftr val 12))
           (String (encodeChar (Z.shiftr val 6)) "="))
  | a :: b :: c :: rest =>
      let val := Z.lor (Z.shiftl (byteZ a) 16)
                   (Z.lor (Z.shiftl (byteZ b) 8) (byteZ c)) in
      String (encodeChar (Z.shiftr val 18))
        (String (encodeChar (Z.shiftr val 12))
           (String (encodeChar (Z.shiftr val 6))
              (String (encodeChar val) (EncodeToString rest))))
  end.

(* ================================================================== *)
(** ** The pipeline value and its listeners                            *)
(* ================================================================== *)

(** A listener is a callback; only its identity matters here. *)
Definition Listener : Type := nat.

(** One invocation [l(eventType, dir, filename, isDir)]. *)
Record Call : Type := mkCall {
  callee : Listener;
  eventType : string;
  dir : string;
  filename : string;
  isDir : bool
}.

Record Watchman : Type := mkWatchman {
  ffd : Z;
  rfd : Z;
  fdcManager : lru.LRU;
  fpcManager : lru.LRU;
  filter : radix.Tree bool;
  eventBufferSize : Z;
  (** [map[string]Listener]: one binding per name. *)
  listeners : list (string * Listener)
}.

Definition set_fdcManager (wm : Watchman) (c : lru.LRU) : Watchman :=
  {| ffd := ffd wm; rfd := rfd wm; fdcManager := c;
     fpcManager := fpcManager wm; filter := filter wm;
     eventBufferSize := eventBufferSize wm; listeners := listeners wm |}.

Definition set_fpcManager (wm : Watchman) (c : lru.LRU) : Watchman :=
  {| ffd := ffd wm; rfd := rfd wm; fdcManager := fdcManager wm;
     fpcManager := c; filter := filter wm;
     eventBufferSize := eventBufferSize wm; listeners := listeners wm |}.

Definition set_listeners (wm : Watchman) (ls : list (string * Listener))
  : Watchman :=
  {| ffd := ffd wm; rfd := rfd wm; fdcManager := fdcManager wm;
     fpcManager := fpcManager wm; filter := filter wm;
     eventBufferSize := eventBufferSize wm; listeners := ls |}.

(** [delete(wm.listeners, identify)] *)
Definition RemoveListener (wm : Watchman) (identify : string) : Watchman :=
  set_listeners wm
    (List.filter (fun b => negb (String.eqb (fst b) identify)) (listeners wm)).

(** [wm.listeners[identify] = listener] *)
Definition AddListener (wm : Watchman) (identify : string) (listener : Listener)
  : Watchman :=
  set_listeners wm
    ((identify, listener) :: listeners (RemoveListener wm identify)).

(* ================================================================== *)
(** ** [resolve] and the body of [processEvents]                       *)
(* ================================================================== *)

(** What the kernel answers while one event is processed:
    [unix.OpenByHandleAt(mountFD, handle, flags)] gives a descriptor or
    fails, and [os.Readlink] of its [/proc/self/fd/<n>] entry gives the path
    or fails.  The descriptor is closed again right after the readlink. *)
Record Kernel : Type := mkKernel {
  OpenByHandleAt : Z -> Z -> list byte -> option Z;
  Readlink : Z -> option string
}.

Section Process.

(** [filepath.Join(directory, filename)] of the Go standard library. *)
Variable filepath_Join : string -> string -> string.

(** The kernel's answers, and the clock reading while the event is handled. *)
Variable kernel : Kernel.
Variable now : Z.

Definition resolve (wm : Watchman) (data : list byte)
  : go ((string * string * bool) * Watchman) :=
  if len data <? EventInfoFidLen then Ret (("", "", false), wm)
  else
    infoType <- index data 0 ;;
    handleData <- slice_from data EventInfoFidLen ;;
    if len handleData <? FileHandleLen then Ret (("", "", false), wm)
    else
      hb <- slice handleData 0 4 ;;
      handleBytes <- Uint32 hb ;;
      ht <- slice handleData 4 8 ;;
      handleType <- Uint32 ht ;;
      let handleType := int32_of_uint32 handleType in
      if len handleData - FileHandleLen <? handleBytes
      then Ret (("", "", false), wm)
      else
        handleRaw <- slice handleData FileHandleLen (FileHandleLen + handleBytes) ;;
        let cacheKey := EncodeToString handleRaw in
        let (hit, fdc) := lru.Get (fdcManager wm) now cacheKey in
        let wm := set_fdcManager wm fdc in
        let looked_up :=
          match hit with
          | Some basePath => Some (basePath, wm)
          | None =>
              match OpenByHandleAt kernel (rfd wm) handleType handleRaw with
              | None => None
              | Some fd =>
                  match Readlink kernel fd with
                  | None => None
                  | Some basePath =>
                      Some (basePath,
                            set_fdcManager wm
                              (lru.Add (fdcManager wm) now cacheKey basePath))
                  end
              end
          end in
        match looked_up with
        | None => Ret (("", "", false), wm)
        | Some (basePath, wm) =>
            let nameOffset := FileHandleLen + handleBytes in
            if (byteZ infoType =? FAN_EVENT_INFO_TYPE_DFID_NAME)
               && (nameOffset <? len handleData)
            then
              rest <- slice_from handleData nameOffset ;;
              let i := IndexByte rest Byte.x00 in
              rest <- (if 0 <=? i then slice_to rest i else Ret rest) ;;
              let name := string_of_list_byte rest in
              if negb (String.eqb name "") && negb (String.eqb basePath "")
              then
                if String.eqb basePath "/"
                then Ret (("/", name, true), wm)
                else Ret ((basePath, name, true), wm)
              else Ret ((basePath, "", true), wm)
            else Ret ((basePath, "", true), wm)
        end.

(** The bytes [resolve] gets for an event: a nil handle has length 0. *)
Definition handleBytesOf (event : Event) : list byte :=
  match Handle event with
  | Some h => h
  | None => []
  end.

(** One iteration of the [processEvents] loop for a dequeued [event]: the
    listener calls it makes, in order, and the pipeline afterwards.  The
    snapshot of the registry is ranged over in the order of [listeners]
    (Go leaves the order of a map range open). *)
Definition processEvent (wm : Watchman) (event : Event)
  : go (list Call * Watchman) :=
  r <- resolve wm (handleBytesOf event) ;;
  let '((directory, filename, ok), wm) := r in
  if negb ok || (String.eqb directory "" || String.eqb filename "")
  then Ret ([], wm)
  else
    let fullPath := filepath_Join directory filename in
    if IsDir event then Ret ([], wm)
    else
      match radix.LongestPrefix (filter wm) fullPath with
      | None => Ret ([], wm)
      | Some _ =>
          let eventType := maskToString (Mask event) in
          match lru.Get (fpcManager wm) now fullPath with
          | (Some _, fpc) => Ret ([], set_fpcManager wm fpc)
          | (None, fpc) =>
              let wm := set_fpcManager wm (lru.Add fpc now fullPath eventType) in
              let snapshot := listeners wm in
              Ret (map (fun b : string * Listener =>
                          mkCall (snd b) eventType directory filename
                                 (IsDir event))
                       snapshot,
                   wm)
          end
      end.

End Process.

(* ================================================================== *)
(** ** [Initialize]                                                    *)
(* ================================================================== *)

Definition FAN_CLOEXEC : Z := 0x1.
Definition FAN_REPORT_DFID_NAME : Z := 0xc00.
Definition FAN_MARK_ADD : Z := 0x1.
Definition FAN_MARK_FILESYSTEM : Z := 0x100.
Definition FAN_EVENT_ON_CHILD : Z := 0x8000000.
Definition AT_FDCWD : Z := -100.
Definition O_RDONLY : Z := 0x0.
Definition O_DIRECTORY : Z := 0x10000.
Definition O_CLOEXEC : Z := 0x80000.

(** The settings the watcher reads ([settings.Settings]). *)
Record Settings : Type := mkSettings {
  PluginRoot : string;
  Paths : list string;
  BufferSize : Z;
  FdSize : Z;
  FdTtl : Z;
  FpSize : Z;
  FpTtl : Z
}.

(** The system calls [Initialize] issues. *)
Inductive syscall : Type :=
| FanotifyInit (flags event_f_flags : Z)
| FanotifyMark (fd flags mask dirFd : Z) (pathname : string)
| Open (path : string) (mode perm : Z)
| Close (fd : Z).

(** The process as the kernel sees it: the descriptors it holds, and the
    calls made so far, oldest first. *)
Record Process : Type := mkProcess {
  descriptors : list Z;
  calls : list syscall
}.

Definition Errno : Type := Z.

(** What the kernel answers to the three acquisition calls. *)
Record InitAnswers : Type := mkInitAnswers {
  fanotify_init : Z + Errno;
  fanotify_mark : option Errno;
  open_root : Z + Errno
}.

(** [fmt.Errorf(format + ": %w", err)]: the message is [format ++ ": "]
    followed by the text of the wrapped errno. *)
Inductive error : Type :=
| Errorf (format : string) (err : Errno).

Definition sys_acquire (c : syscall) (answer : Z + Errno) (p : Process)
  : (Z + Errno) * Process :=
  match answer with
  | inl fd => (inl fd, {| descriptors := fd :: descriptors p;
                          calls := calls p ++ [c] |})
  | inr e => (inr e, {| descriptors := descriptors p;
                        calls := calls p ++ [c] |})
  end.

Definition sys_call (c : syscall) (answer : option Errno) (p : Process)
  : option Errno * Process :=
  (answer, {| descriptors := descriptors p; calls := calls p ++ [c] |}).

Fixpoint release (fd : Z) (fds : list Z) : list Z :=
  match fds with
  | [] => []
  | fd' :: fds' => if fd' =? fd then fds' else fd' :: release fd fds'
  end.

(** [unix.Close(fd)]; its result is discarded by the code. *)
Definition sys_close (fd : Z) (p : Process) : Process :=
  {| descriptors := release fd (descriptors p);
     calls := calls p ++ [Close fd] |}.

Definition time_Second : Z := 1000000000.

Definition Initialize (k : InitAnswers) (setting : Settings) (p : Process)
  : (Watchman + error) * Process :=
  let (r, p) :=
    sys_acquire (FanotifyInit (Z.lor FAN_REPORT_DFID_NAME FAN_CLOEXEC) O_RDONLY)
                (fanotify_init k) p in
  match r with
  | inr err => (inr (Errorf "init" err), p)
  | inl ffd =>
      let (r, p) :=
        sys_call (FanotifyMark ffd (Z.lor FAN_MARK_ADD FAN_MARK_FILESYSTEM)
                    (Z.lor FAN_CREATE (Z.lor FAN_DELETE (Z.lor FAN_DELETE_SELF
                      (Z.lor FAN_CLOSE_WRITE (Z.lor FAN_MOVED_TO
                        (Z.lor FAN_ONDIR FAN_EVENT_ON_CHILD))))))
                    AT_FDCWD "/")
                 (fanotify_mark k) p in
      match r with
      | Some err =>
          let p := sys_close ffd p in
          (inr (Errorf "mark" err), p)
      | None =>
          let (r, p) :=
            sys_acquire (Open "/" (Z.lor O_DIRECTORY (Z.lor O_RDONLY O_CLOEXEC)) 0)
                        (open_root k) p in
          match r with
          | inr err =>
              let p := sys_close ffd p in
              (inr (Errorf "open root" err), p)
          | inl rfd =>
              let filter :=
                fold_left (fun t path => radix.Insert t path true)
                          (Paths setting) radix.New in
              let eventBufferSize := BufferSize setting in
              let eventBufferSize :=
                if eventBufferSize <=? 0 then 64 else eventBufferSize in
              (inl {| ffd := ffd;
                      rfd := rfd;
                      fdcManager :=
                        lru.NewLRU (FdSize setting) (FdTtl setting * time_Second);
                      fpcManager :=
                        lru.NewLRU (FpSize setting) (FpTtl setting * time_Second);
                      filter := filter;
                      eventBufferSize := eventBufferSize;
                      listeners := [] |},
               p)
          end
      end
  end.

(** Which acquisition step an error of [Initialize] names. *)
Inductive init_step : Type := StepInit | StepMark | StepOpenRoot.

Definition failing_step (e : error) : option init_step :=
  match e with
  | Errorf format _ =>
      if String.eqb format "init" then Some StepInit
      else if String.eqb format "mark" then Some StepMark
      else if String.eqb format "open root" then Some StepOpenRoot
      else None
  end.

(* ================================================================== *)
(** ** What the statements below are phrased with                      *)
(* ================================================================== *)

(** The mask bits [maskToString] names, in the order it tests them. *)
Definition mask_names : list (Z * string) :=
  [ (FAN_CREATE, "CREATE"); (FAN_DELETE, "DELETE");
    (FAN_DELETE_SELF, "DELETE_SELF"); (FAN_CLOSE_WRITE, "CLOSE_WRITE");
    (FAN_MOVED_TO, "MOVED_TO") ].

Definition matched_names (mask : Z) : list string :=
  map snd (List.filter (fun p => negb (Z.land mask (fst p) =? 0)) mask_names).

(** The filter [Initialize] builds from the configured paths. *)
Definition buildFilter (paths : list string) : radix.Tree bool :=
  fold_left (fun t path => radix.Insert t path true) paths radix.New.

(** Whether a lookup gave a result. *)
Definition found {A} (o : option A) : bool :=
  match o with Some _ => true | None => false end.

(** The filter's answer for a path: the [matched] result of [LongestPrefix]. *)
Definition matched (t : radix.Tree bool) (path : string) : bool :=
  match radix.LongestPrefix t path with
  | Some _ => true
  | None => false
  end.

(** [p] is a prefix of [q] that ends where a path component of [q] ends:
    [q] is [p] itself, or goes on with a separator, or [p] already ends
    with one (as the root ["/"] does). *)
Definition component_prefix (p q : string) : Prop :=
  exists rest,
    q = p +:+ rest /\
    (rest = "" \/ (exists r, rest = String "/" r) \/
     (exists p', p = p' +:+ "/")).

(** ** Sample records *)

(** A CREATE record as the kernel writes it: the 24-byte metadata header
    (event_len 56, version 3, metadata_len 24, mask FAN_CREATE, fd -1,
    pid 4242), then a DFID_NAME info record with an 8-byte handle of type 1
    and the child name ["etc"]. *)
Definition sample_create : list byte :=
  [ x38; x00; x00; x00;  x03;  x00;  x18; x00;
    x00; x01; x00; x00; x00; x00; x00; x00;
    xff; xff; xff; xff;  x92; x10; x00; x00;
    x02; x00; x20; x00;  x01; x08; x00; x00; x00; x00; x00; x00;
    x08; x00; x00; x00;  x01; x00; x00; x00;
    x11; x22; x33; x44; x55; x66; x77; x88;
    x65; x74; x63; x00 ]%byte.

(** The queue-overflow marker: a bare header with mask FAN_Q_OVERFLOW. *)
Definition sample_overflow : list byte :=
  [ x18; x00; x00; x00;  x03;  x00;  x18; x00;
    x00; x40; x00; x00; x00; x00; x00; x00;
    xff; xff; xff; xff;  x00; x00; x00; x00 ]%byte.

(** Sixteen bytes that declare themselves a whole record: event_len 16,
    version 3, mask FAN_CREATE, and nothing after the mask. *)
Definition short_record : list byte :=
  [ x10; x00; x00; x00;  x03;  x00;  x10; x00;
    x00; x01; x00; x00; x00; x00; x00; x00 ]%byte.

(** A final record cut after 32 of its declared 56 bytes. *)
Definition sample_cut : list byte := firstn 32 sample_create.

(** Well-formedness with only the conditions the loop body itself tests:
    [event_len] is nonzero and within the bytes of the record, the version
    is the kernel's, the overflow bit is clear. *)
Definition declared_well_formed (rec : list byte) : Prop :=
  field_event_len rec <> 0 /\
  field_event_len rec = len rec /\
  field_vers rec = FANOTIFY_METADATA_VERSION /\
  Z.land (field_mask rec) FAN_Q_OVERFLOW = 0.


(** *** The info payload as the kernel lays it out *)

(** The directory a handle stands for while an event is processed: the
    cached path when the handle cache has a live entry, or else what
    open-by-handle and readlink give. *)
Definition base_path (kernel : Kernel) (now : Z) (wm : Watchman)
    (handleType : Z) (handleRaw : list byte) : option string :=
  match fst (lru.Get (fdcManager wm) now (EncodeToString handleRaw)) with
  | Some basePath => Some basePath
  | None =>
      match OpenByHandleAt kernel (rfd wm) handleType handleRaw with
      | None => None
      | Some fd => Readlink kernel fd
      end
  end.

(** A DFID_NAME info payload: the 12-byte info-FID header [fid] of type
    [FAN_EVENT_INFO_TYPE_DFID_NAME], the 8-byte file_handle header [hdr]
    that declares the length of [body] and the handle type, the handle
    [body], then the child [name], a NUL and padding. *)
Record dfid_name (fid hdr body name : list byte) (handleType : Z) : Prop :=
  mk_dfid_name {
    dn_fid_len : len fid = EventInfoFidLen;
    dn_fid_type : option_map byteZ (nth_error fid 0)
                  = Some FAN_EVENT_INFO_TYPE_DFID_NAME;
    dn_hdr_len : len hdr = FileHandleLen;
    dn_hdr_bytes : Uint32 hdr = Ret (len body);
    dn_hdr_type : option_map int32_of_uint32
                    (match Uint32 (skipn 4 hdr) with
                     | Ret t => Some t | Panic => None end)
                  = Some handleType;
    dn_name_nul : ~ In Byte.x00 name
  }.

(** [resolve] with every index and slice expression replaced by the
    element, [firstn] or [skipn] it denotes when it is in range. *)
Definition resolve_in_range (kernel : Kernel) (now : Z) (wm : Watchman)
    (data : list byte) : (string * string * bool) * Watchman :=
  if len data <? EventInfoFidLen then (("", "", false), wm)
  else
    let infoType := nth 0 data Byte.x00 in
    let handleData := skipn (Z.to_nat EventInfoFidLen) data in
    if len handleData <? FileHandleLen then (("", "", false), wm)
    else
      let handleBytes := field_event_len handleData in
      let handleType :=
        int32_of_uint32 (field_event_len (skipn 4 handleData)) in
      if len handleData - FileHandleLen <? handleBytes
      then (("", "", false), wm)
      else
        let handleRaw :=
          firstn (Z.to_nat handleBytes)
                 (skipn (Z.to_nat FileHandleLen) handleData) in
        let cacheKey := EncodeToString handleRaw in
        let (hit, fdc) := lru.Get (fdcManager wm) now cacheKey in
        let wm := set_fdcManager wm fdc in
        let looked_up :=
          match hit with
          | Some basePath => Some (basePath, wm)
          | None =>
              match OpenByHandleAt kernel (rfd wm) handleType handleRaw with
              | None => None
              | Some fd =>
                  match Readlink kernel fd with
                  | None => None
                  | Some basePath =>
                      Some (basePath,
                            set_fdcManager wm
                              (lru.Add (fdcManager wm) now cacheKey basePath))
                  end
              end
          end in
        match looked_up with
        | None => (("", "", false), wm)
        | Some (basePath, wm) =>
            let nameOffset := FileHandleLen + handleBytes in
            if (byteZ infoType =? FAN_EVENT_INFO_TYPE_DFID_NAME)
               && (nameOffset <? len handleData)
            then
              let rest := skipn (Z.to_nat nameOffset) handleData in
              let i := IndexByte rest Byte.x00 in
              let rest := if 0 <=? i then firstn (Z.to_nat i) rest else rest in
              let name := string_of_list_byte rest in
              if negb (String.eqb name "") && negb (String.eqb basePath "")
              then
                if String.eqb basePath "/"
                then (("/", name, true), wm)
                else ((basePath, name, true), wm)
              else ((basePath, "", true), wm)
            else ((basePath, "", true), wm)
        end.

(** A CREATE record that is only the metadata header: no info payload. *)
Definition sample_bare : list byte :=
  [ x18; x00; x00; x00;  x03;  x00;  x18; x00;
    x00; x01; x00; x00; x00; x00; x00; x00;
    xff; xff; xff; xff;  x92; x10; x00; x00 ]%byte.

(** *** A sample pipeline *)

(** [filepath.Join] on a clean directory and a plain file name. *)
Definition sample_join (directory filename : string) : string :=
  if String.eqb directory "/" then directory +:+ filename
  else directory +:+ "/" +:+ filename.

(** A kernel in which every handle opens as descriptor 7 and names ["/"]. *)
Definition sample_kernel : Kernel :=
  {| OpenByHandleAt := fun _ _ _ => Some 7;
     Readlink := fun _ => Some "/" |}.

(** The pipeline [Initialize] returns for the watched path ["/etc"] with the
    default cache settings, after [AddListener("logging", 1)]. *)
Definition sample_watchman : Watchman :=
  {| ffd := 3;
     rfd := 4;
     fdcManager := lru.NewLRU 4096 (300 * 1000000000);
     fpcManager := lru.NewLRU 5000 (5 * 1000000000);
     filter := buildFilter ["/etc"];
     eventBufferSize := 64;
     listeners := [("logging", 1%nat)] |}.

(** The parts of the info payload of [sample_create]. *)
Definition sample_fid : list byte :=
  [ x02; x00; x20; x00;  x01; x08; x00; x00; x00; x00; x00; x00 ]%byte.
Definition sample_hdr : list byte :=
  [ x08; x00; x00; x00;  x01; x00; x00; x00 ]%byte.
Definition sample_body : list byte :=
  [ x11; x22; x33; x44; x55; x66; x77; x88 ]%byte.
Definition sample_name : list byte := [ x65; x74; x63 ]%byte.

(** The info payload of [sample_create]. *)
Definition sample_payload : list byte :=
  sample_fid ++ sample_hdr ++ sample_body ++ sample_name ++ [Byte.x00].

(** Settings as [settings.Load] leaves them for the one path ["/etc"]. *)
Definition sample_settings : Settings :=
  {| PluginRoot := ""; Paths := ["/etc"]; BufferSize := 64;
     FdSize := 4096; FdTtl := 300; FpSize := 5000; FpTtl := 5 |}.

(** A process that holds the three standard descriptors. *)
Definition sample_process : Process :=
  {| descriptors := [0; 1; 2]; calls := [] |}.

(** The three acquisition calls of [Initialize], for the descriptor [ffd]
    the first one returned. *)
Definition call_init : syscall :=
  FanotifyInit (Z.lor FAN_REPORT_DFID_NAME FAN_CLOEXEC) O_RDONLY.

Definition call_mark (ffd : Z) : syscall :=
  FanotifyMark ffd (Z.lor FAN_MARK_ADD FAN_MARK_FILESYSTEM)
    (Z.lor FAN_CREATE (Z.lor FAN_DELETE (Z.lor FAN_DELETE_SELF
      (Z.lor FAN_CLOSE_WRITE (Z.lor FAN_MOVED_TO
        (Z.lor FAN_ONDIR FAN_EVENT_ON_CHILD))))))
    AT_FDCWD "/".

Definition call_open_root : syscall :=
  Open "/" (Z.lor O_DIRECTORY (Z.lor O_RDONLY O_CLOEXEC)) 0.
(* ================================================================== *)
(** * The rest of the program                                          *)
(* ================================================================== *)

(** What follows embeds the remaining functions of the watcher (the
    listener registry, the read loop of [captureEvents], [Stop],
    [RegisterPlugin]) and the packages around it: [internal/settings],
    [internal/loader], [internal/listener], [platform/linux] and [cmd]. *)

(** [wm.listeners[identify]] *)
Fixpoint listenerOf (ls : list (string * Listener)) (identify : string)
  : option Listener :=
  match ls with
  | [] => None
  | (name, l) :: ls' =>
      if String.eqb name identify then Some l else listenerOf ls' identify
  end.

(** The five bits [maskToString] knows. *)
Definition named_bits : Z :=
  Z.lor FAN_CREATE (Z.lor FAN_DELETE (Z.lor FAN_DELETE_SELF
    (Z.lor FAN_CLOSE_WRITE FAN_MOVED_TO))).

(** What holds of every event the capture stage sends: [IsDir] is the
    FAN_ONDIR bit of the mask, the overflow bit is clear, and the handle is
    nil or at least as long as the two headers [resolve] reads. *)
Definition event_ok (e : Event) : Prop :=
  IsDir e = negb (Z.land (Mask e) FAN_ONDIR =? 0) /\
  Z.land (Mask e) FAN_Q_OVERFLOW = 0 /\
  match Handle e with
  | None => True
  | Some h => EventInfoFidLen + FileHandleLen <= len h
  end.

(** A record that holds the whole metadata header and declares its own
    size, but carries another metadata version than the kernel constant. *)
Definition other_version_record (rec : list byte) : Prop :=
  EventMetadataLen <= len rec /\
  field_event_len rec = len rec /\
  field_vers rec <> FANOTIFY_METADATA_VERSION.

(** What the [select] before a send does: [ctx.Done()] is chosen and the
    worker returns; the send goes through; or the send case is chosen after
    [Stop] has closed [eventChan], which is a run-time panic. *)
Inductive select_outcome : Type :=
| DoneChosen
| Sent
| SendOnClosed.

(** The record loop of [captureEvents] with the three outcomes of its
    [select]; [sel k] is what the [select] before the [k]-th send does.
    While the channel is open this is [parseLoop]. *)
Fixpoint parseLoopSel (sel : nat -> select_outcome) (fuel : nat) (k : nat)
    (data : list byte) : list Event * capture_end :=
  if len data <? EventMetadataLen then ([], Stopped data)
  else
    match fuel with
    | O => ([], OutOfFuel)
    | S fuel' =>
        match parseRecord data with
        | Panic => ([], Crashed)
        | Ret Break => ([], Stopped data)
        | Ret (Skip eventLen) =>
            match slice_from data eventLen with
            | Panic => ([], Crashed)
            | Ret data' => parseLoopSel sel fuel' k data'
            end
        | Ret (Emit e eventLen) =>
            match sel k with
            | DoneChosen => ([], Cancelled)
            | SendOnClosed => ([], Crashed)
            | Sent =>
                match slice_from data eventLen with
                | Panic => ([e], Crashed)
                | Ret data' =>
                    let (evs, r) := parseLoopSel sel fuel' (S k) data' in
                    (e :: evs, r)
                end
            end
        end
    end.


(** The [select] while [eventChan] is open. *)
Definition select_open (ctx : nat -> bool) (k : nat) : select_outcome :=
  if ctx k then DoneChosen else Sent.

(* ================================================================== *)
(** ** [captureEvents]: the read loop                                  *)
(* ================================================================== *)

Definition EINTR : Errno := 4.
Definition EBADF : Errno := 9.

(** What [unix.Read(wm.ffd, buffer)] gives: an error, or [buffer[:read]]. *)
Inductive read_result : Type :=
| ReadErr (err : Errno)
| ReadN (data : list byte).

(** How the capture worker stands when the script of reads is used up. *)
Inductive capture_exit : Type :=
| Returned     (** the worker has returned *)
| Panicked     (** a run-time panic ended it *)
| Reading.     (** it sits in [unix.Read] *)

(** The outer loop of [captureEvents] against a script of read results.
    [done i] tells whether the [select] at the top of the [i]-th iteration
    finds the context done, [sending i k] whether the [select] before the
    [k]-th send of that iteration does.  The result is every event sent on
    [eventChan], in order. *)
Fixpoint captureEvents (done : nat -> bool) (sending : nat -> nat -> bool)
    (i : nat) (reads : list read_result) : list Event * capture_exit :=
  if done i then ([], Returned)
  else
    match reads with
    | [] => ([], Reading)
    | ReadErr err :: reads' =>
        if (err =? EBADF) || (err =? EINTR) then ([], Returned)
        else captureEvents done sending (S i) reads'
    | ReadN data :: reads' =>
        let (evs, r) := parseBuffer (sending i) data in
        match r with
        | Stopped _ =>
            let (evs', x) := captureEvents done sending (S i) reads' in
            (evs ++ evs', x)
        | Cancelled => (evs, Returned)
        | Crashed => (evs, Panicked)
        | OutOfFuel => (evs, Panicked)   (* never: [parseBuffer_total] *)
        end
    end.

(** One entry of a well-behaved read script: a read error, or a buffer
    that consists of the given records. *)
Definition read_of (s : Errno + list (list byte)) : read_result :=
  match s with
  | inl err => ReadErr err
  | inr recs => ReadN (List.concat recs)
  end.

Definition records_of (s : Errno + list (list byte)) : list (list byte) :=
  match s with
  | inl _ => []
  | inr recs => recs
  end.

(** An entry the worker gets past: a read error other than EBADF and
    EINTR, or a buffer of well-formed records. *)
Definition passable (s : Errno + list (list byte)) : Prop :=
  match s with
  | inl err => err <> EBADF /\ err <> EINTR
  | inr recs => Forall well_formed recs
  end.

(* ================================================================== *)
(** ** Plugins, [RegisterPlugin] and [Stop]                            *)
(* ================================================================== *)

(** Modelled from the spec: the handler interface is the dependency
    [github.com/caoenergy/watchman-plugin], whose source is not part of the
    repository; the spec says that plugins "expose `Name`, `Init`, `Handle`,
    `Close`" and that the registry treats them "as ordinary listeners after
    binding `Handle`".  A plugin is kept as what the watcher reads of it:
    the string its [Name()] returns and its [Handle] callback. *)
Record Plugin : Type := mkPlugin {
  plugin_name : string;
  plugin_handle : Listener
}.

(** The method calls made on plugins. *)
Inductive plugin_call : Type :=
| PluginInit (name : string)
| PluginClose (name : string).

(** The pipeline with what [Watchman] holds besides the fields above: the
    plugins, whether [stopOnce] has fired, whether [eventChan] is closed,
    and (for the statements) the plugin methods called so far. *)
Record Pipeline : Type := mkPipeline {
  watchman : Watchman;
  plugins : list Plugin;
  stopOnce : bool;
  eventChanClosed : bool;
  pluginLog : list plugin_call
}.

(** The pipeline around the value [Initialize] returns. *)
Definition newPipeline (wm : Watchman) : Pipeline :=
  {| watchman := wm; plugins := []; stopOnce := false;
     eventChanClosed := false; pluginLog := [] |}.

Definition RegisterPlugin (pl : Pipeline) (p : Plugin) : Pipeline :=
  {| watchman := AddListener (watchman pl) (plugin_name p) (plugin_handle p);
     plugins := plugins pl ++ [p];
     stopOnce := stopOnce pl;
     eventChanClosed := eventChanClosed pl;
     pluginLog := pluginLog pl |}.

Definition set_fds (wm : Watchman) (ffd' rfd' : Z) : Watchman :=
  {| ffd := ffd'; rfd := rfd'; fdcManager := fdcManager wm;
     fpcManager := fpcManager wm; filter := filter wm;
     eventBufferSize := eventBufferSize wm; listeners := listeners wm |}.

(** [Stop]: under [stopOnce], close the notification descriptor, close the
    event channel (closing a closed channel panics), close the root
    descriptor, then close every plugin. *)
Definition Stop (pl : Pipeline) (p : Process) : go (Pipeline * Process) :=
  if stopOnce pl then Ret (pl, p)
  else
    let wm := watchman pl in
    let p := sys_close (ffd wm) p in
    if eventChanClosed pl then Panic
    else
      let p := sys_close (rfd wm) p in
      Ret ({| watchman := set_fds wm (-1) (-1);
              plugins := plugins pl;
              stopOnce := true;
              eventChanClosed := true;
              pluginLog := pluginLog pl
                           ++ map (fun q => PluginClose (plugin_name q))
                                  (plugins pl) |},
           p).

(* ================================================================== *)
(** ** The plugin loader ([internal/loader])                           *)
(* ================================================================== *)

Module loader.

(** What opening one [*.so] file leads to: [plugin.Open] fails, the symbol
    lookup fails, the symbol is not a [*wmp.Handler], the handler is nil, or
    there is a handler with its name, the outcome of its [Init()] and its
    callback. *)
Inductive plugin_file : Type :=
| OpenFails
| LookupFails
| NotAHandler
| NilHandler
| HandlerOf (name : string) (init_fails : bool) (handle : Listener).

Inductive load_error : Type :=
| ErrPluginOpen
| ErrLookup
| ErrNotHandler
| ErrNilSymbol
| ErrEmptyName
| ErrInit
| ErrDirList.

Definition loadOne (file : plugin_file) (pl : Pipeline)
  : option load_error * Pipeline :=
  match file with
  | OpenFails => (Some ErrPluginOpen, pl)
  | LookupFails => (Some ErrLookup, pl)
  | NotAHandler => (Some ErrNotHandler, pl)
  | NilHandler => (Some ErrNilSymbol, pl)
  | HandlerOf name init_fails handle =>
      if String.eqb name "" then (Some ErrEmptyName, pl)
      else
        let pl := {| watchman := watchman pl; plugins := plugins pl;
                     stopOnce := stopOnce pl;
                     eventChanClosed := eventChanClosed pl;
                     pluginLog := pluginLog pl ++ [PluginInit name] |} in
        if init_fails then (Some ErrInit, pl)
        else (None, RegisterPlugin pl (mkPlugin name handle))
  end.

(** [loader.Load(dir, wm)]: [glob] is what [filepath.Glob(dir/*.so)] gives,
    each match with what the file turns out to be; [None] is its error. *)
Definition Load (dir : string) (glob : option (list (string * plugin_file)))
    (pl : Pipeline) : option load_error * Pipeline :=
  if String.eqb dir "" then (None, pl)
  else
    match glob with
    | None => (Some ErrDirList, pl)
    | Some entries =>
        (None,
         fold_left (fun pl entry => snd (loadOne (snd entry) pl)) entries pl)
    end.

(** A file the loader registers. *)
Definition loadable (file : plugin_file) : option Plugin :=
  match file with
  | HandlerOf name false handle =>
      if String.eqb name "" then None else Some (mkPlugin name handle)
  | _ => None
  end.

Fixpoint loadables (entries : list (string * plugin_file)) : list Plugin :=
  match entries with
  | [] => []
  | (_, file) :: entries' =>
      match loadable file with
      | Some p => p :: loadables entries'
      | None => loadables entries'
      end
  end.

End loader.

(* ================================================================== *)
(** ** The settings ([internal/settings])                              *)
(* ================================================================== *)

(** [len(s)] of a string, as a Go [int]. *)
Definition slen (s : string) : Z := Z.of_nat (String.length s).

Module settings.

Definition defaultBufferKB : Z := 64.
Definition defaultFdSize : Z := 4096.
Definition defaultFdTtl : Z := 300.
Definition defaultFpSize : Z := 5000.
Definition defaultFpTtl : Z := 5.
Definition minBufferKB : Z := 4.
Definition maxBufferKB : Z := 1024.
Definition minCacheSize : Z := 1.
Definition minCacheTtlSec : Z := 1.
Definition maxCacheTtlSec : Z := 86400.

(** The inner loop of [normalizePaths]:
    [for len(p) > 1 && p[len(p)-1] == '/' { p = p[:len(p)-1] }].
    The guard [len(p) > 1] keeps the index and the slice in range; every
    turn shortens [p], so [len(p)] turns are enough. *)
Fixpoint trimLoop (fuel : nat) (p : string) : string :=
  match fuel with
  | O => p
  | S fuel' =>
      if (1 <? slen p)
         && Ascii.eqb (radix.byteAt p (Z.to_nat (slen p - 1))) "/"
      then trimLoop fuel' (str_to (Z.to_nat (slen p - 1)) p)
      else p
  end.

Definition trimSlashes (p : string) : string := trimLoop (String.length p) p.

(** [normalizePaths], over [filepath.Clean]. *)
Definition normalizePaths (Clean : string -> string) (s : Settings) : Settings :=
  {| PluginRoot := PluginRoot s;
     Paths := map (fun p => trimSlashes (Clean p)) (Paths s);
     BufferSize := BufferSize s;
     FdSize := FdSize s; FdTtl := FdTtl s;
     FpSize := FpSize s; FpTtl := FpTtl s |}.

Definition applyDefaults (s : Settings) : Settings :=
  {| PluginRoot := PluginRoot s;
     Paths := Paths s;
     BufferSize := if BufferSize s <=? 0 then defaultBufferKB else BufferSize s;
     FdSize := if FdSize s <=? 0 then defaultFdSize else FdSize s;
     FdTtl := if FdTtl s <=? 0 then defaultFdTtl else FdTtl s;
     FpSize := if FpSize s <=? 0 then defaultFpSize else FpSize s;
     FpTtl := if FpTtl s <=? 0 then defaultFpTtl else FpTtl s |}.

(** The errors of [Validate], one per message. *)
Inductive validation_error : Type :=
| ErrPathsEmpty
| ErrEmptyPath
| ErrDuplicatePath (p : string)
| ErrBufferSize (buf : Z)
| ErrFdSize
| ErrFdTtl
| ErrFpSize
| ErrFpTtl.

(** The loop of [Validate] over the paths; [seen] holds the keys of the
    map of the same name. *)
Fixpoint checkPaths (seen : list string) (paths : list string)
  : option validation_error :=
  match paths with
  | [] => None
  | p :: paths' =>
      if String.eqb p "" then Some ErrEmptyPath
      else if existsb (String.eqb p) seen then Some (ErrDuplicatePath p)
      else checkPaths (p :: seen) paths'
  end.

Definition Validate (s : Settings) : option validation_error :=
  if len (Paths s) =? 0 then Some ErrPathsEmpty
  else
    match checkPaths [] (Paths s) with
    | Some e => Some e
    | None =>
        let buf := BufferSize s in
        if (buf <? minBufferKB) || (maxBufferKB <? buf)
        then Some (ErrBufferSize buf)
        else if FdSize s <? minCacheSize then Some ErrFdSize
        else if (FdTtl s <? minCacheTtlSec) || (maxCacheTtlSec <? FdTtl s)
        then Some ErrFdTtl
        else if FpSize s <? minCacheSize then Some ErrFpSize
        else if (FpTtl s <? minCacheTtlSec) || (maxCacheTtlSec <? FpTtl s)
        then Some ErrFpTtl
        else None
    end.

Inductive load_error : Type :=
| ErrReadFile
| ErrUnmarshal
| ErrInvalid (e : validation_error).

(** [Load]: [file] is what reading and unmarshalling the configuration
    file gives: [None] when [os.ReadFile] fails, [Some None] when
    [yaml.Unmarshal] does. *)
Definition Load (Clean : string -> string) (file : option (option Settings))
  : Settings + load_error :=
  match file with
  | None => inr ErrReadFile
  | Some None => inr ErrUnmarshal
  | Some (Some s) =>
      let s := applyDefaults s in
      let s := normalizePaths Clean s in
      match Validate s with
      | Some e => inr (ErrInvalid e)
      | None => inl s
      end
  end.

End settings.

(** The bound of a Go [int64], the type of a [time.Duration]. *)
Definition maxInt64 : Z := 2 ^ 63 - 1.

(** A run of [n] slashes. *)
Fixpoint slashes (n : nat) : string :=
  match n with
  | O => ""
  | S n' => String "/" (slashes n')
  end.

(** The last byte of a non-empty string. *)
Definition ends_with_slash (s : string) : bool :=
  match String.length s with
  | O => false
  | S n => Ascii.eqb (radix.byteAt s n) "/"
  end.

(* ================================================================== *)
(** ** More of [strings] and [strconv]                                 *)
(* ================================================================== *)

(** [strings.Index(s, substr)]: the index of the first occurrence, or -1. *)
Fixpoint Index (s substr : string) : Z :=
  if HasPrefix s substr then 0
  else
    match s with
    | "" => -1
    | String _ s' =>
        let i := Index s' substr in
        if i <? 0 then -1 else i + 1
    end.

(** [strings.LastIndex(s, substr)]: the index of the last occurrence,
    or -1. *)
Fixpoint LastIndex (s substr : string) : Z :=
  match s with
  | "" => if HasPrefix s substr then 0 else -1
  | String _ s' =>
      let i := LastIndex s' substr in
      if 0 <=? i then i + 1
      else if HasPrefix s substr then 0 else -1
  end.

(** [strings.Contains(s, substr)] is [Index(s, substr) >= 0]. *)
Definition Contains (s substr : string) : bool := 0 <=? Index s substr.

(** [s[:hi]] on a string: panics unless [0 <= hi <= len(s)]. *)
Definition str_slice_to (s : string) (hi : Z) : go string :=
  if (0 <=? hi) && (hi <=? slen s)
  then Ret (str_to (Z.to_nat hi) s)
  else Panic.

(** The loop of [strings.genSplit] for a non-empty separator: up to [n]
    times, cut at the first separator; what is left is the last piece. *)
Fixpoint splitLoop (n : nat) (s sep : string) : list string :=
  match n with
  | O => [s]
  | S n' =>
      let m := Index s sep in
      if m <? 0 then [s]
      else str_to (Z.to_nat m) s
           :: splitLoop n' (str_from (Z.to_nat (m + slen sep)) s) sep
  end.

(** [strings.SplitN(s, sep, n)] for a non-empty [sep] and [n >= 0], which
    is how [KernelVersion] calls it: at most [n] pieces, the last one the
    unsplit rest. *)
Definition SplitN (s sep : string) (n : Z) : list string :=
  if n =? 0 then []
  else
    let n := if slen s + 1 <? n then slen s + 1 else n in
    splitLoop (Z.to_nat (n - 1)) s sep.

Inductive NumError : Type :=
| ErrSyntax
| ErrRange.

Definition maxUint64 : Z := 2 ^ 64 - 1.

(** The digit loop of [strconv.ParseUint] with base 10 and bit size 64.
    A byte that is no decimal digit is a syntax error (a letter is a digit
    of a larger base); the two overflow tests are those of the source,
    on [uint64] arithmetic. *)
Fixpoint parseUintLoop (s : string) (n : Z) : Z + NumError :=
  match s with
  | "" => inl n
  | String c s' =>
      let c := Z.of_N (N_of_ascii c) in
      if (48 <=? c) && (c <=? 57) then
        let d := c - 48 in
        if maxUint64 / 10 + 1 <=? n then inr ErrRange
        else
          let n := (n * 10) mod 2 ^ 64 in
          let n1 := (n + d) mod 2 ^ 64 in
          if (n1 <? n) || (maxUint64 <? n1) then inr ErrRange
          else parseUintLoop s' n1
      else inr ErrSyntax
  end.

(** [strconv.ParseUint(s, 10, 64)]. *)
Definition ParseUint (s : string) : Z + NumError :=
  if String.eqb s "" then inr ErrSyntax else parseUintLoop s 0.

(** The decimal numeral of [u], as the kernel writes a version number:
    digits from the least significant end, no leading zero.  A [uint64]
    has at most 20 digits. *)
Fixpoint decimal_loop (fuel : nat) (u : Z) (acc : string) : string :=
  match fuel with
  | O => acc
  | S fuel' =>
      if 10 <=? u
      then decimal_loop fuel' (u / 10)
             (String (ascii_of_N (Z.to_N (48 + u mod 10))) acc)
      else String (ascii_of_N (Z.to_N (48 + u))) acc
  end.

Definition decimal (u : Z) : string := decimal_loop 20 u "".

(** The value of a string of decimal digits read after [v]. *)
Fixpoint dec_acc (v : Z) (s : string) : option Z :=
  match s with
  | "" => Some v
  | String c s' =>
      let c := Z.of_N (N_of_ascii c) in
      if (48 <=? c) && (c <=? 57) then dec_acc (10 * v + (c - 48)) s'
      else None
  end.

(* ================================================================== *)
(** ** [platform/linux]: kernel version and capabilities               *)
(* ================================================================== *)

Module linux.

Inductive version_error : Type :=
| ErrUname (e : Errno)
| ErrInvalidMetadata
| ErrVersionFormat
| ErrNumber (e : NumError).

(** [KernelVersion]: [uname] is what [unix.Uname] gives, the [Release]
    array of the [Utsname] or an error. *)
Definition KernelVersion (uname : list byte + Errno)
  : go (Z * Z + version_error) :=
  match uname with
  | inr err => Ret (inr (ErrUname err))
  | inl Release =>
      let length := IndexByte Release Byte.x00 in
      if length =? -1 then Ret (inr ErrInvalidMetadata)
      else
        release <- slice_to Release length ;;
        let version := string_of_list_byte release in
        let components := SplitN version "." 3 in
        match components with
        | [c0; c1; _] =>
            match ParseUint c0 with
            | inr err => Ret (inr (ErrNumber err))
            | inl major =>
                match ParseUint c1 with
                | inr err => Ret (inr (ErrNumber err))
                | inl minor => Ret (inl (major, minor))
                end
            end
        | _ => Ret (inr ErrVersionFormat)   (* len(components) != 3 *)
        end
  end.

Inductive caps_error : Type :=
| ErrPidTooLarge
| ErrCapget (e : Errno).

Definition MaxInt32 : Z := 2 ^ 31 - 1.

(** [Capabilities]: [pid] is [os.Getpid()], [capget] what [unix.Capget]
    gives, the effective set or an error. *)
Definition Capabilities (pid : Z) (capget : Z + Errno) : Z + caps_error :=
  if MaxInt32 <? pid then inr ErrPidTooLarge
  else
    match capget with
    | inr err => inr (ErrCapget err)
    | inl Effective => inl Effective
    end.

End linux.

(* ================================================================== *)
(** ** [cmd]: start-up                                                 *)
(* ================================================================== *)

Module cmd.

Definition MinSupportedKernelMajor : Z := 5.
Definition MinSupportedKernelMinor : Z := 9.
Definition CAP_DAC_READ_SEARCH : Z := 2.
Definition CAP_SYS_ADMIN : Z := 21.
Definition requiredCaps : Z :=
  Z.lor (Z.shiftl 1 CAP_SYS_ADMIN) (Z.shiftl 1 CAP_DAC_READ_SEARCH).

Inductive init_error : Type :=
| ErrKernelVersion (e : linux.version_error)
| ErrKernelTooOld (major minor : Z)
| ErrCapabilities (e : linux.caps_error)
| ErrInsufficientCaps
| ErrSettings (e : settings.load_error)
| ErrWatcher (e : error)
| ErrLoader (e : loader.load_error).

(** What the host answers during start-up: to [unix.Uname], [os.Getpid],
    [unix.Capget], to reading and unmarshalling the configuration file, to
    the calls of the watcher's [Initialize] and to the glob of the plugin
    directory.  The [Process] that is threaded through keeps the
    descriptors the process holds and the calls of the watcher only; the
    calls of the checks before it are not recorded in it. *)
Record Host : Type := mkHost {
  uname : list byte + Errno;
  pid : Z;
  capget : Z + Errno;
  Clean : string -> string;
  configFile : option (option Settings);
  initAnswers : InitAnswers;
  pluginGlob : option (list (string * loader.plugin_file))
}.

Definition Initialize (h : Host) (p : Process)
  : go ((Pipeline + init_error) * Process) :=
  v <- linux.KernelVersion (uname h) ;;
  match v with
  | inr err => Ret (inr (ErrKernelVersion err), p)
  | inl (major, minor) =>
      if (major <? MinSupportedKernelMajor)
         || ((major =? MinSupportedKernelMajor)
             && (minor <? MinSupportedKernelMinor))
      then Ret (inr (ErrKernelTooOld major minor), p)
      else
        match linux.Capabilities (pid h) (capget h) with
        | inr err => Ret (inr (ErrCapabilities err), p)
        | inl caps =>
            if negb (Z.land caps requiredCaps =? requiredCaps)
            then Ret (inr ErrInsufficientCaps, p)
            else
              match settings.Load (Clean h) (configFile h) with
              | inr err => Ret (inr (ErrSettings err), p)
              | inl setting =>
                  let (r, p) := Initialize (initAnswers h) setting p in
                  match r with
                  | inr err => Ret (inr (ErrWatcher err), p)
                  | inl wm =>
                      let (r, pl) :=
                        loader.Load (PluginRoot setting) (pluginGlob h)
                                    (newPipeline wm) in
                      match r with
                      | Some err => Ret (inr (ErrLoader err), p)
                      | None => Ret (inl pl, p)
                      end
                  end
              end
        end
  end.

End cmd.

(* ================================================================== *)
(** ** [internal/listener]: the logging listener                       *)
(* ================================================================== *)

Module listener.

(** [LoggingHandler]; the result is the line it prints. *)
Definition LoggingHandler (join : string -> string -> string)
    (eventType eventDirectory eventFile : string) (isDir : bool) : go string :=
  let filename := eventFile in
  filename <-
    (if (String.eqb eventType "DELETE" || String.eqb eventType "DELETE_SELF")
        && Contains filename " (deleted)"
     then str_slice_to filename (LastIndex eventFile " (deleted)")
     else Ret filename) ;;
  Ret (join eventDirectory filename).

End listener.
(* ================================================================== *)
(** * Proofs                                                           *)
(* ================================================================== *)

(** ** Slices *)

Lemma len_nonneg {A} (s : list A) : 0 <= len s.
Proof. unfold len. lia. Qed.

Lemma len_app {A} (a b : list A) : len (a ++ b) = len a + len b.
Proof. unfold len. rewrite length_app. lia. Qed.

Lemma len_skipn {A} (n : nat) (s : list A) :
  len (skipn n s) = Z.max 0 (len s - Z.of_nat n).
Proof. unfold len. rewrite length_skipn. lia. Qed.

Lemma slice_ok (s : list byte) (lo hi : Z) :
  0 <= lo <= hi -> hi <= len s ->
  slice s lo hi = Ret (firstn (Z.to_nat (hi - lo)) (skipn (Z.to_nat lo) s)).
Proof.
  intros [Hlo Hhi] Hlen. unfold slice.
  replace (0 <=? lo) with true by (symmetry; apply Z.leb_le; lia).
  replace (lo <=? hi) with true by (symmetry; apply Z.leb_le; lia).
  replace (hi <=? len s) with true by (symmetry; apply Z.leb_le; lia).
  reflexivity.
Qed.

Lemma slice_from_ok (s : list byte) (lo : Z) :
  0 <= lo <= len s -> slice_from s lo = Ret (skipn (Z.to_nat lo) s).
Proof.
  intros H. unfold slice_from. rewrite slice_ok by lia.
  f_equal. apply firstn_all2. rewrite length_skipn. unfold len in *. lia.
Qed.

Lemma slice_app_l (a b : list byte) (lo hi : Z) :
  0 <= lo <= hi -> hi <= len a -> slice (a ++ b) lo hi = slice a lo hi.
Proof.
  intros H Hlen. rewrite !slice_ok by (rewrite ?len_app; pose proof (len_nonneg b); lia).
  f_equal. unfold len in Hlen.
  rewrite skipn_app, firstn_app, length_skipn.
  replace (Z.to_nat (hi - lo) - (List.length a - Z.to_nat lo))%nat with 0%nat by lia.
  rewrite firstn_O. apply app_nil_r.
Qed.

Lemma slice_from_app (a b : list byte) :
  slice_from (a ++ b) (len a) = Ret b.
Proof.
  rewrite slice_from_ok by (rewrite len_app; pose proof (len_nonneg a);
                            pose proof (len_nonneg b); lia).
  f_equal. unfold len. rewrite Nat2Z.id.
  rewrite skipn_app, Nat.sub_diag, skipn_all. reflexivity.
Qed.

Lemma index_ok (s : list byte) (i : Z) (b : byte) :
  0 <= i -> nth_error s (Z.to_nat i) = Some b -> index s i = Ret b.
Proof.
  intros Hi Hn. unfold index.
  assert (Z.to_nat i < List.length s)%nat
    by (apply nth_error_Some; congruence).
  replace (0 <=? i) with true by (symmetry; apply Z.leb_le; lia).
  replace (i <? len s) with true by (symmetry; apply Z.ltb_lt; unfold len; lia).
  simpl. rewrite Hn. reflexivity.
Qed.

Lemma index_in_range (s : list byte) (i : Z) :
  0 <= i < len s -> exists b, index s i = Ret b.
Proof.
  intros H.
  destruct (nth_error s (Z.to_nat i)) as [b|] eqn:E.
  - exists b. apply index_ok; [lia | assumption].
  - apply nth_error_None in E. unfold len in H. lia.
Qed.

(** ** Hexadecimal formatting *)

Lemma hex_digit_value_ldigits (d : Z) :
  0 <= d < 16 -> hex_digit_value (ldigits d) = Some d.
Proof.
  intros H.
  assert (d = 0 \/ d = 1 \/ d = 2 \/ d = 3 \/ d = 4 \/ d = 5 \/ d = 6 \/
          d = 7 \/ d = 8 \/ d = 9 \/ d = 10 \/ d = 11 \/ d = 12 \/ d = 13 \/
          d = 14 \/ d = 15) as Hd by lia.
  repeat (destruct Hd as [-> | Hd]; [reflexivity|]). subst d. reflexivity.
Qed.

(** The digits [fmt_hex_loop] puts before [acc] denote [u]. *)
Lemma fmt_hex_loop_value (fuel : nat) :
  forall u, 0 <= u < 16 ^ Z.of_nat fuel ->
    exists n, 0 <= n /\
      forall v acc,
        hex_acc v (fmt_hex_loop fuel u acc) = hex_acc (v * 16 ^ n + u) acc.
Proof.
  induction fuel as [|fuel IH]; intros u Hu.
  - exists 0. split; [lia|]. intros v acc. cbn [fmt_hex_loop].
    change (16 ^ Z.of_nat 0) with 1 in Hu. f_equal. lia.
  - cbn [fmt_hex_loop]. rewrite Nat2Z.inj_succ, Z.pow_succ_r in Hu by lia.
    destruct (16 <=? u) eqn:E.
    + apply Z.leb_le in E.
      assert (Hdiv : Z.shiftr u 4 = u / 16)
        by (rewrite Z.shiftr_div_pow2 by lia; reflexivity).
      assert (Hmod : Z.land u 15 = u mod 16)
        by (change 15 with (Z.ones 4); rewrite Z.land_ones by lia; reflexivity).
      destruct (IH (Z.shiftr u 4)) as (n & Hn & Hval).
      { rewrite Hdiv. split; [apply Z.div_pos; lia|].
        apply Z.div_lt_upper_bound; lia. }
      exists (n + 1). split; [lia|]. intros v acc.
      rewrite Hval. cbn [hex_acc].
      rewrite hex_digit_value_ldigits
        by (rewrite Hmod; apply Z.mod_pos_bound; lia).
      f_equal. rewrite Hdiv, Hmod, Z.pow_add_r by lia.
      pose proof (Z.div_mod u 16 ltac:(lia)). lia.
    + apply Z.leb_gt in E. exists 1. split; [lia|]. intros v acc.
      cbn [hex_acc]. rewrite hex_digit_value_ldigits by lia.
      f_equal. lia.
Qed.

Lemma fmt_hex_value (u : Z) :
  0 <= u < 2 ^ 64 -> hex_value (fmt_hex u) = Some u.
Proof.
  intros H. unfold hex_value, fmt_hex.
  destruct (fmt_hex_loop_value 16 u) as (n & _ & Hval).
  { change (16 ^ Z.of_nat 16) with (2 ^ 64). exact H. }
  rewrite Hval. reflexivity.
Qed.

(** ** Little-endian decoding *)

Lemma byteZ_range (b : byte) : 0 <= byteZ b < 256.
Proof.
  unfold byteZ. pose proof (Byte.to_N_bounded b). lia.
Qed.

Lemma Uint32_firstn (s : list byte) : Uint32 (firstn 4 s) = Uint32 s.
Proof.
  destruct s as [|b0 [|b1 [|b2 [|b3 s]]]]; reflexivity.
Qed.

Lemma Uint64_firstn (s : list byte) : Uint64 (firstn 8 s) = Uint64 s.
Proof.
  destruct s as [|b0 [|b1 [|b2 [|b3 [|b4 [|b5 [|b6 [|b7 s]]]]]]]]; reflexivity.
Qed.

Lemma Ret_inj {A} (a b : A) : Ret a = Ret b -> a = b.
Proof. intros H. injection H. auto. Qed.

Lemma Uint32_nonneg (s : list byte) (n : Z) : Uint32 s = Ret n -> 0 <= n.
Proof.
  destruct s as [|b0 [|b1 [|b2 [|b3 s]]]]; try discriminate.
  intros H. apply Ret_inj in H. subst n.
  pose proof (byteZ_range b0). pose proof (byteZ_range b1).
  pose proof (byteZ_range b2). pose proof (byteZ_range b3).
  rewrite !Z.lor_nonneg, !Z.shiftl_nonneg. lia.
Qed.

Lemma Uint32_total (s : list byte) :
  4 <= len s -> exists n, Uint32 s = Ret n.
Proof.
  unfold len.
  destruct s as [|b0 [|b1 [|b2 [|b3 s]]]]; simpl List.length; try lia.
  intros _. eexists. reflexivity.
Qed.

Lemma Uint64_total (s : list byte) :
  8 <= len s -> exists n, Uint64 s = Ret n.
Proof.
  unfold len.
  destruct s as [|b0 [|b1 [|b2 [|b3 [|b4 [|b5 [|b6 [|b7 s]]]]]]]];
    simpl List.length; try lia.
  intros _. eexists. reflexivity.
Qed.

(** ** The record parser *)

Lemma field_event_len_Uint32 (rec : list byte) :
  field_event_len rec <> 0 -> Uint32 rec = Ret (field_event_len rec).
Proof.
  unfold field_event_len. destruct (Uint32 rec); congruence.
Qed.

Lemma header_event_len (data : list byte) :
  EventMetadataLen <= len data ->
  (hdr <- slice data 0 4 ;; Uint32 hdr) = Ret (field_event_len data).
Proof.
  unfold EventMetadataLen. intros H.
  rewrite slice_ok by lia. cbn [bind].
  change (Z.to_nat (4 - 0)) with 4%nat. change (Z.to_nat 0) with 0%nat.
  cbn [skipn]. rewrite Uint32_firstn.
  destruct (Uint32_total data ltac:(lia)) as [n Hn].
  unfold field_event_len. rewrite Hn. reflexivity.
Qed.

Lemma header_vers (data : list byte) :
  EventMetadataLen <= len data ->
  exists b, index data 4 = Ret b /\ byteZ b = field_vers data.
Proof.
  unfold EventMetadataLen. intros H.
  destruct (nth_error data 4) as [b|] eqn:E.
  - exists b. split.
    + apply index_ok; [lia | exact E].
    + unfold field_vers. rewrite E. reflexivity.
  - apply nth_error_None in E. unfold len in H. lia.
Qed.

Lemma header_mask (data : list byte) :
  EventMetadataLen <= len data ->
  (m <- slice data 8 16 ;; Uint64 m) = Ret (field_mask data).
Proof.
  unfold EventMetadataLen. intros H.
  rewrite slice_ok by lia. cbn [bind].
  change (Z.to_nat (16 - 8)) with 8%nat. change (Z.to_nat 8) with 8%nat.
  rewrite Uint64_firstn.
  destruct (Uint64_total (skipn 8 data)) as [n Hn].
  { rewrite len_skipn. lia. }
  unfold field_mask. rewrite Hn. reflexivity.
Qed.

Lemma bind_assoc_header {B} (data : list byte) (lo hi : Z)
    (dec : list byte -> go Z) (k : Z -> go B) (v : Z) :
  (h <- slice data lo hi ;; dec h) = Ret v ->
  (h <- slice data lo hi ;; x <- dec h ;; k x) = k v.
Proof.
  destruct (slice data lo hi) as [h|]; cbn [bind]; [|discriminate].
  intros ->. reflexivity.
Qed.

(** Reading the head of a buffer that holds a whole metadata header: the
    record loop's decision in terms of the record's fields. *)
Lemma parseRecord_fields (data : list byte) :
  EventMetadataLen <= len data ->
  parseRecord data =
    let eventLen := field_event_len data in
    if (len data <? eventLen) || (eventLen =? 0) then Ret Break
    else if negb (field_vers data =? FANOTIFY_METADATA_VERSION)
         then Ret (Skip eventLen)
    else if negb (Z.land (field_mask data) FAN_Q_OVERFLOW =? 0)
         then Ret (Skip eventLen)
    else
      eventData <- slice data EventMetadataLen eventLen ;;
      Ret (Emit {| Mask := field_mask data;
                   IsDir := negb (Z.land (field_mask data) FAN_ONDIR =? 0);
                   Handle := if EventInfoFidLen + FileHandleLen <=? len eventData
                             then Some eventData else None |} eventLen).
Proof.
  intros H. unfold parseRecord.
  rewrite (bind_assoc_header _ _ _ _ _ _ (header_event_len data H)).
  cbv zeta.
  destruct ((len data <? field_event_len data) || (field_event_len data =? 0));
    [reflexivity|].
  destruct (header_vers data H) as (b & Hb & Hv).
  rewrite Hb. cbn [bind]. rewrite Hv.
  destruct (negb (field_vers data =? FANOTIFY_METADATA_VERSION)); [reflexivity|].
  rewrite (bind_assoc_header _ _ _ _ _ _ (header_mask data H)).
  reflexivity.
Qed.

Lemma Uint32_app (a b : list byte) : 4 <= len a -> Uint32 (a ++ b) = Uint32 a.
Proof.
  unfold len.
  destruct a as [|b0 [|b1 [|b2 [|b3 a]]]]; simpl List.length; try lia.
  reflexivity.
Qed.

Lemma Uint64_app (a b : list byte) : 8 <= len a -> Uint64 (a ++ b) = Uint64 a.
Proof.
  unfold len.
  destruct a as [|b0 [|b1 [|b2 [|b3 [|b4 [|b5 [|b6 [|b7 a]]]]]]]];
    simpl List.length; try lia.
  reflexivity.
Qed.

Lemma field_event_len_app (rec rest : list byte) :
  EventMetadataLen <= len rec ->
  field_event_len (rec ++ rest) = field_event_len rec.
Proof.
  unfold EventMetadataLen, field_event_len. intros H.
  rewrite Uint32_app by lia. reflexivity.
Qed.

Lemma field_vers_app (rec rest : list byte) :
  EventMetadataLen <= len rec ->
  field_vers (rec ++ rest) = field_vers rec.
Proof.
  unfold EventMetadataLen, field_vers, len. intros H.
  rewrite nth_error_app1 by lia. reflexivity.
Qed.

Lemma field_mask_app (rec rest : list byte) :
  EventMetadataLen <= len rec ->
  field_mask (rec ++ rest) = field_mask rec.
Proof.
  unfold EventMetadataLen, field_mask. intros H.
  rewrite skipn_app.
  rewrite Uint64_app by (rewrite len_skipn; lia). reflexivity.
Qed.

Lemma parseRecord_well_formed (rec rest : list byte) :
  well_formed rec ->
  parseRecord (rec ++ rest) = Ret (Emit (event_of rec) (len rec)).
Proof.
  intros (Hlen & Hel & Hv & Hm).
  pose proof (len_nonneg rest) as Hrest.
  rewrite parseRecord_fields by (rewrite len_app; lia).
  rewrite field_event_len_app, field_vers_app, field_mask_app by assumption.
  rewrite Hel, Hv, Hm. cbv zeta.
  replace (len (rec ++ rest) <? len rec) with false
    by (symmetry; apply Z.ltb_ge; rewrite len_app; lia).
  replace (len rec =? 0) with false
    by (symmetry; apply Z.eqb_neq; unfold EventMetadataLen in Hlen; lia).
  rewrite Z.eqb_refl. cbn [orb negb].
  rewrite slice_app_l by (unfold EventMetadataLen in *; lia).
  unfold slice_from in *.
  pose proof (slice_from_ok rec EventMetadataLen) as Hs.
  unfold slice_from in Hs. rewrite Hs by (unfold EventMetadataLen in *; lia).
  cbn [bind]. reflexivity.
Qed.

Lemma parseRecord_overflow (rec rest : list byte) :
  overflow_record rec ->
  parseRecord (rec ++ rest) = Ret (Skip (len rec)).
Proof.
  intros (Hlen & Hel & Hm).
  pose proof (len_nonneg rest) as Hrest.
  rewrite parseRecord_fields by (rewrite len_app; lia).
  rewrite field_event_len_app, field_vers_app, field_mask_app by assumption.
  rewrite Hel. cbv zeta.
  replace (len (rec ++ rest) <? len rec) with false
    by (symmetry; apply Z.ltb_ge; rewrite len_app; lia).
  replace (len rec =? 0) with false
    by (symmetry; apply Z.eqb_neq; unfold EventMetadataLen in Hlen; lia).
  cbn [orb].
  destruct (negb (field_vers rec =? FANOTIFY_METADATA_VERSION)); [reflexivity|].
  apply Z.eqb_neq in Hm. rewrite Hm. reflexivity.
Qed.

Lemma parseRecord_truncated (tail : list byte) :
  EventMetadataLen <= len tail ->
  truncated tail ->
  parseRecord tail = Ret Break.
Proof.
  intros Hlen [H | [H | H]]; [lia | |];
    rewrite parseRecord_fields by assumption; cbv zeta.
  - rewrite H, Z.eqb_refl, orb_true_r. reflexivity.
  - apply Z.ltb_lt in H. rewrite H. reflexivity.
Qed.

(** A record that is skipped or emitted declares a length between 1 and
    the bytes that remain, so the loop makes progress and its re-slicing
    stays in range. *)
Lemma parseRecord_advance (data : list byte) (a : record_action) :
  EventMetadataLen <= len data ->
  parseRecord data = Ret a ->
  match a with
  | Break => True
  | Skip n | Emit _ n => 0 < n <= len data
  end.
Proof.
  intros Hlen. rewrite parseRecord_fields by assumption. cbv zeta.
  assert (Hnn : 0 <= field_event_len data).
  { unfold field_event_len. destruct (Uint32 data) as [n|] eqn:E; [|lia].
    eapply Uint32_nonneg; eassumption. }
  destruct (len data <? field_event_len data) eqn:E1;
    [intros H; apply Ret_inj in H; subst a; exact I|].
  destruct (field_event_len data =? 0) eqn:E2;
    [intros H; apply Ret_inj in H; subst a; exact I|].
  apply Z.ltb_ge in E1. apply Z.eqb_neq in E2. cbn [orb].
  destruct (negb (field_vers data =? FANOTIFY_METADATA_VERSION));
    [intros H; apply Ret_inj in H; subst a; lia|].
  destruct (negb (Z.land (field_mask data) FAN_Q_OVERFLOW =? 0));
    [intros H; apply Ret_inj in H; subst a; lia|].
  destruct (slice data EventMetadataLen (field_event_len data));
    cbn [bind]; [|discriminate].
  intros H; apply Ret_inj in H; subst a; lia.
Qed.

Lemma slice_from_shorter (data data' : list byte) (n : Z) :
  0 < n <= len data ->
  slice_from data n = Ret data' ->
  (List.length data' < List.length data)%nat.
Proof.
  intros Hn. rewrite slice_from_ok by lia.
  intros H. apply Ret_inj in H. subst data'.
  rewrite length_skipn. unfold len in Hn. lia.
Qed.

(** Any fuel that covers the length of the buffer gives the same parse. *)
Lemma parseLoop_fuel (ctx : nat -> bool) (fuel1 : nat) :
  forall (fuel2 k : nat) (data : list byte),
    (List.length data <= fuel1)%nat ->
    (List.length data <= fuel2)%nat ->
    parseLoop ctx fuel1 k data = parseLoop ctx fuel2 k data.
Proof.
  induction fuel1 as [|fuel1 IH]; intros fuel2 k data H1 H2.
  - destruct data; [|simpl in H1; lia].
    destruct fuel2; reflexivity.
  - destruct fuel2 as [|fuel2].
    { destruct data; [reflexivity | simpl in H2; lia]. }
    cbn [parseLoop].
    destruct (len data <? EventMetadataLen) eqn:Eg; [reflexivity|].
    apply Z.ltb_ge in Eg.
    destruct (parseRecord data) as [[|n|e n]|] eqn:Ep; try reflexivity.
    + pose proof (parseRecord_advance _ _ Eg Ep) as Hn. cbv beta iota in Hn.
      destruct (slice_from data n) as [data'|] eqn:Es; [|reflexivity].
      pose proof (slice_from_shorter _ _ _ Hn Es).
      apply IH; lia.
    + pose proof (parseRecord_advance _ _ Eg Ep) as Hn. cbv beta iota in Hn.
      destruct (ctx k); [reflexivity|].
      destruct (slice_from data n) as [data'|] eqn:Es; [|reflexivity].
      pose proof (slice_from_shorter _ _ _ Hn Es).
      rewrite (IH fuel2 (S k) data') by lia. reflexivity.
Qed.

Lemma parseLoop_no_OutOfFuel (ctx : nat -> bool) (fuel : nat) :
  forall (k : nat) (data : list byte),
    (List.length data <= fuel)%nat ->
    snd (parseLoop ctx fuel k data) <> OutOfFuel.
Proof.
  induction fuel as [|fuel IH]; intros k data H.
  - destruct data; [discriminate | simpl in H; lia].
  - cbn [parseLoop].
    destruct (len data <? EventMetadataLen) eqn:Eg; [discriminate|].
    apply Z.ltb_ge in Eg.
    destruct (parseRecord data) as [[|n|e n]|] eqn:Ep; try discriminate.
    + pose proof (parseRecord_advance _ _ Eg Ep) as Hn. cbv beta iota in Hn.
      destruct (slice_from data n) as [data'|] eqn:Es; [|discriminate].
      pose proof (slice_from_shorter _ _ _ Hn Es).
      apply IH; lia.
    + pose proof (parseRecord_advance _ _ Eg Ep) as Hn. cbv beta iota in Hn.
      destruct (ctx k); [discriminate|].
      destruct (slice_from data n) as [data'|] eqn:Es; [|discriminate].
      pose proof (slice_from_shorter _ _ _ Hn Es).
      specialize (IH (S k) data' ltac:(lia)).
      destruct (parseLoop ctx fuel (S k) data'). exact IH.
Qed.

(** [parseBuffer] runs the loop to its end: the fuel never runs out. *)
Lemma parseBuffer_total (ctx : nat -> bool) (data : list byte) :
  snd (parseBuffer ctx data) <> OutOfFuel.
Proof. apply parseLoop_no_OutOfFuel. lia. Qed.

(** The parse of a run of well-formed records followed by a truncated
    record: one event per record, then the loop stops at the truncation. *)
Lemma parseLoop_records (ctx : nat -> bool) (tail : list byte) :
  (forall k, ctx k = false) ->
  truncated tail ->
  forall (recs : list (list byte)) (fuel k : nat),
    Forall well_formed recs ->
    (List.length (List.concat recs ++ tail) <= fuel)%nat ->
    parseLoop ctx fuel k (List.concat recs ++ tail)
    = (map event_of recs, Stopped tail).
Proof.
  intros Hctx Htail recs.
  induction recs as [|rec recs IH]; intros fuel k Hwf Hfuel.
  - cbn [List.concat app map] in *.
    destruct fuel as [|fuel].
    + destruct tail; [reflexivity | simpl in Hfuel; lia].
    + cbn [parseLoop].
      destruct (len tail <? EventMetadataLen) eqn:Eg; [reflexivity|].
      apply Z.ltb_ge in Eg.
      rewrite (parseRecord_truncated _ Eg Htail). reflexivity.
  - inversion Hwf as [|? ? Hrec Hrecs]; subst.
    cbn [List.concat map] in *. rewrite <- app_assoc in *.
    pose proof Hrec as (Hlen & _).
    pose proof (len_nonneg (List.concat recs ++ tail)) as Hnn.
    destruct fuel as [|fuel].
    { rewrite length_app in Hfuel. unfold len, EventMetadataLen in Hlen. lia. }
    cbn [parseLoop].
    replace (len (rec ++ List.concat recs ++ tail) <? EventMetadataLen)
      with false by (symmetry; apply Z.ltb_ge; rewrite len_app; lia).
    rewrite (parseRecord_well_formed _ _ Hrec), Hctx, slice_from_app.
    rewrite IH; [reflexivity | assumption |].
    rewrite length_app in Hfuel. unfold len, EventMetadataLen in Hlen. lia.
Qed.

Lemma truncated_nil : truncated [].
Proof. left. reflexivity. Qed.

Lemma sample_create_well_formed : well_formed sample_create.
Proof. repeat split; vm_compute; congruence. Qed.

Lemma sample_overflow_is_overflow : overflow_record sample_overflow.
Proof. repeat split; vm_compute; congruence. Qed.


(** ** [resolve] *)

Lemma IndexByte_range (s : list byte) (c : byte) :
  -1 <= IndexByte s c < len s.
Proof.
  induction s as [|b s IH]; cbn [IndexByte].
  - unfold len. simpl. lia.
  - replace (len (b :: s)) with (len s + 1)
      by (unfold len; cbn [List.length]; lia).
    destruct (Byte.eqb b c); [pose proof (len_nonneg s); lia|].
    destruct (IndexByte s c <? 0) eqn:E; [pose proof (len_nonneg s); lia|].
    apply Z.ltb_ge in E. lia.
Qed.

(** Every index and slice expression of [resolve] is in range: on any
    input it returns, and what it returns is [resolve_in_range]. *)
Lemma resolve_returns (kernel : Kernel) (now : Z) (wm : Watchman)
    (data : list byte) :
  resolve kernel now wm data = Ret (resolve_in_range kernel now wm data).
Proof.
  unfold resolve, resolve_in_range. cbv zeta.
  destruct (len data <? EventInfoFidLen) eqn:E1; [reflexivity|].
  apply Z.ltb_ge in E1. unfold EventInfoFidLen in E1.
  assert (Hidx : index data 0 = Ret (nth 0 data Byte.x00)).
  { apply index_ok; [lia|]. change (Z.to_nat 0) with 0%nat.
    destruct data; [unfold len in E1; simpl in E1; lia | reflexivity]. }
  rewrite Hidx. cbn [bind].
  rewrite slice_from_ok by (unfold EventInfoFidLen; lia). cbn [bind].
  set (handleData := skipn (Z.to_nat EventInfoFidLen) data).
  destruct (len handleData <? FileHandleLen) eqn:E2; [reflexivity|].
  apply Z.ltb_ge in E2. unfold FileHandleLen in E2.
  rewrite slice_ok by lia. cbn [bind].
  change (Z.to_nat (4 - 0)) with 4%nat. change (Z.to_nat 0) with 0%nat.
  rewrite skipn_O, Uint32_firstn.
  destruct (Uint32_total handleData ltac:(lia)) as [hb Hhb].
  assert (Ehb : field_event_len handleData = hb)
    by (unfold field_event_len; rewrite Hhb; reflexivity).
  rewrite Hhb. cbn [bind].
  rewrite slice_ok by lia. cbn [bind].
  change (Z.to_nat (8 - 4)) with 4%nat. change (Z.to_nat 4) with 4%nat.
  rewrite Uint32_firstn.
  destruct (Uint32_total (skipn 4 handleData)) as [ht Hht].
  { rewrite len_skipn. lia. }
  assert (Eht : field_event_len (skipn 4 handleData) = ht)
    by (unfold field_event_len; rewrite Hht; reflexivity).
  rewrite Hht. cbn [bind]. rewrite Ehb, Eht.
  pose proof (Uint32_nonneg _ _ Hhb) as Hnn.
  destruct (len handleData - FileHandleLen <? hb) eqn:E3; [reflexivity|].
  apply Z.ltb_ge in E3. unfold FileHandleLen in E3.
  rewrite slice_ok by (unfold FileHandleLen; lia). cbn [bind].
  replace (FileHandleLen + hb - FileHandleLen) with hb by lia.
  destruct (lru.Get (fdcManager wm) now _) as [hit fdc].
  match goal with
  | |- match ?l with _ => _ end = _ => destruct l as [[basePath wm']|]
  end; [|reflexivity].
  destruct ((byteZ (nth 0 data Byte.x00) =? FAN_EVENT_INFO_TYPE_DFID_NAME)
            && (FileHandleLen + hb <? len handleData)) eqn:E4; [|reflexivity].
  apply andb_prop in E4 as [_ E4]. apply Z.ltb_lt in E4.
  rewrite slice_from_ok by (unfold FileHandleLen in *; lia). cbn [bind].
  set (rest := skipn (Z.to_nat (FileHandleLen + hb)) handleData).
  pose proof (IndexByte_range rest Byte.x00) as Hi.
  destruct (0 <=? IndexByte rest Byte.x00) eqn:E5.
  - apply Z.leb_le in E5. unfold slice_to. rewrite slice_ok by lia.
    cbn [bind]. rewrite Z.sub_0_r. change (Z.to_nat 0) with 0%nat.
    rewrite skipn_O.
    destruct (negb (_ =? "")%string && negb (basePath =? "")%string);
      [destruct (basePath =? "/")%string|]; reflexivity.
  - cbn [bind].
    destruct (negb (_ =? "")%string && negb (basePath =? "")%string);
      [destruct (basePath =? "/")%string|]; reflexivity.
Qed.

(** [resolve] touches nothing but the handle cache. *)
Lemma resolve_in_range_frame (kernel : Kernel) (now : Z) (wm : Watchman)
    (data : list byte) :
  let wm' := snd (resolve_in_range kernel now wm data) in
  rfd wm' = rfd wm /\ fpcManager wm' = fpcManager wm /\
  filter wm' = filter wm /\ listeners wm' = listeners wm.
Proof.
  unfold resolve_in_range. cbv zeta.
  destruct (len data <? EventInfoFidLen); [cbn; auto|].
  destruct (len _ <? FileHandleLen); [cbn; auto|].
  destruct (_ - FileHandleLen <? _); [cbn; auto|].
  destruct (lru.Get (fdcManager wm) now _) as [hit fdc].
  destruct hit as [basePath|];
    [|destruct (OpenByHandleAt kernel _ _ _) as [fd|];
      [destruct (Readlink kernel fd) as [basePath|]|]];
    try (cbn; auto; fail);
    (destruct (_ && _); [|cbn; auto]);
    (destruct (negb _ && negb _); [|cbn; auto]);
    destruct (basePath =? "/")%string; cbn; auto.
Qed.

Lemma resolve_frame (kernel : Kernel) (now : Z) (wm wm' : Watchman)
    (data : list byte) (r : string * string * bool) :
  resolve kernel now wm data = Ret (r, wm') ->
  rfd wm' = rfd wm /\ fpcManager wm' = fpcManager wm /\
  filter wm' = filter wm /\ listeners wm' = listeners wm.
Proof.
  rewrite resolve_returns. intros H. apply Ret_inj in H.
  pose proof (resolve_in_range_frame kernel now wm data) as F.
  rewrite H in F. exact F.
Qed.

(** ** The caches *)

Lemma Get_miss (c : lru.LRU) (now : Z) (key : string) :
  fst (lru.Get c now key) = None -> lru.Get c now key = (None, c).
Proof.
  unfold lru.Get.
  destruct (lru.items (lru.evictList c) key) as [ent|]; [|reflexivity].
  destruct (lru.ExpiresAt ent <? now); [reflexivity | discriminate].
Qed.

Lemma Get_live (c : lru.LRU) (now : Z) (key : string) :
  lru.live c now key <-> exists v, fst (lru.Get c now key) = Some v.
Proof.
  unfold lru.live, lru.Get. split.
  - intros (ent & -> & Hle).
    replace (lru.ExpiresAt ent <? now) with false
      by (symmetry; apply Z.ltb_ge; lia).
    eexists. reflexivity.
  - intros [v H].
    destruct (lru.items (lru.evictList c) key) as [ent|]; [|discriminate].
    exists ent. split; [reflexivity|].
    destruct (lru.ExpiresAt ent <? now) eqn:E; [discriminate|].
    apply Z.ltb_ge in E. exact E.
Qed.

Lemma items_head (ent : lru.entry) (l : list lru.entry) :
  lru.items (ent :: l) (lru.Key ent) = Some ent.
Proof. cbn [lru.items]. rewrite String.eqb_refl. reflexivity. Qed.

Lemma removelast_head {A} (a b : A) (l : list A) :
  removelast (a :: b :: l) = a :: removelast (b :: l).
Proof. reflexivity. Qed.

(** After [Add], the entry for the key is in the cache, at the front, with
    the value given and an expiry one ttl ahead; no bound evicts it. *)
Lemma Add_items (c : lru.LRU) (now : Z) (key value : string) :
  lru.items (lru.evictList (lru.Add c now key value)) key
  = Some (lru.mkEntry key value (now + lru.ttl c)).
Proof.
  unfold lru.Add.
  destruct (lru.items (lru.evictList c) key) as [old|].
  - cbn [lru.evictList]. apply (items_head (lru.mkEntry key value _)).
  - cbn [lru.evictList].
    destruct ((0 <? lru.size c) && (lru.size c <? len (_ :: lru.evictList c)))
      eqn:E.
    + destruct (lru.evictList c) as [|e l].
      * apply andb_prop in E as [E1 E2].
        apply Z.ltb_lt in E1, E2. unfold len in E2. simpl in E2. lia.
      * rewrite removelast_head.
        apply (items_head (lru.mkEntry key value _)).
    + apply (items_head (lru.mkEntry key value _)).
Qed.

Lemma Add_live (c : lru.LRU) (now t : Z) (key value : string) :
  t <= now + lru.ttl c -> lru.live (lru.Add c now key value) t key.
Proof.
  intros H. eexists. split; [apply Add_items | exact H].
Qed.

(** ** One step of [processEvents] *)

Section ProcessSteps.

Variable join : string -> string -> string.
Variable kernel : Kernel.
Variable now : Z.

(** An event whose handle is nil is dropped at once. *)
Lemma processEvent_nil_handle (wm : Watchman) (event : Event) :
  Handle event = None ->
  resolve kernel now wm (handleBytesOf event) = Ret (("", "", false), wm) /\
  processEvent join kernel now wm event = Ret ([], wm).
Proof.
  intros H. unfold processEvent, handleBytesOf. rewrite H.
  split; reflexivity.
Qed.

(** An event for a file under a watched prefix, not seen of late, goes to
    every listener and leaves its path in the path cache. *)
Lemma processEvent_delivers (wm wm1 : Watchman) (event : Event)
    (directory filename : string) :
  resolve kernel now wm (handleBytesOf event)
  = Ret ((directory, filename, true), wm1) ->
  directory <> "" -> filename <> "" ->
  IsDir event = false ->
  matched (filter wm) (join directory filename) = true ->
  fst (lru.Get (fpcManager wm) now (join directory filename)) = None ->
  processEvent join kernel now wm event
  = Ret (map (fun b : string * Listener =>
                mkCall (snd b) (maskToString (Mask event))
                       directory filename false)
             (listeners wm),
         set_fpcManager wm1
           (lru.Add (fpcManager wm) now (join directory filename)
                    (maskToString (Mask event)))).
Proof.
  intros Hr Hd Hf Hdir Hm Hget.
  destruct (resolve_frame _ _ _ _ _ _ Hr) as (_ & Hfpc & Hfilter & Hls).
  unfold processEvent. rewrite Hr. cbn [bind negb orb].
  apply String.eqb_neq in Hd, Hf. rewrite Hd, Hf, Hdir. cbn [orb].
  unfold matched in Hm. rewrite Hfilter.
  destruct (radix.LongestPrefix (filter wm) (join directory filename));
    [|discriminate].
  rewrite Hfpc, (Get_miss _ _ _ Hget). cbn [listeners set_fpcManager].
  rewrite Hls. reflexivity.
Qed.

(** An event whose path has a live entry in the path cache reaches no
    listener, whatever its mask. *)
Lemma processEvent_deduplicates (wm wm1 : Watchman) (event : Event)
    (directory filename : string) (ok : bool) :
  resolve kernel now wm (handleBytesOf event)
  = Ret ((directory, filename, ok), wm1) ->
  lru.live (fpcManager wm) now (join directory filename) ->
  exists wm', processEvent join kernel now wm event = Ret ([], wm').
Proof.
  intros Hr Hlive.
  destruct (resolve_frame _ _ _ _ _ _ Hr) as (_ & Hfpc & _ & _).
  unfold processEvent. rewrite Hr. cbn [bind].
  destruct (negb ok || ((directory =? "")%string || (filename =? "")%string));
    [eexists; reflexivity|].
  destruct (IsDir event); [eexists; reflexivity|].
  destruct (radix.LongestPrefix (filter wm1) (join directory filename));
    [|eexists; reflexivity].
  rewrite Hfpc. apply Get_live in Hlive as [v Hv].
  destruct (lru.Get (fpcManager wm) now (join directory filename)) as [[v'|] c];
    [eexists; reflexivity | discriminate].
Qed.

End ProcessSteps.

(** ** The layout of a DFID_NAME payload *)

Lemma IndexByte_name (name pad : list byte) :
  ~ In Byte.x00 name ->
  IndexByte (name ++ Byte.x00 :: pad) Byte.x00 = len name.
Proof.
  induction name as [|b name IH]; intros Hnul.
  - reflexivity.
  - cbn [app IndexByte].
    destruct (Byte.eqb b Byte.x00) eqn:E.
    + apply Byte.byte_dec_bl in E. subst b. exfalso. apply Hnul. left. reflexivity.
    + rewrite IH by (intros Hin; apply Hnul; right; exact Hin).
      pose proof (len_nonneg name) as Hnn.
      replace (len name <? 0) with false by (symmetry; apply Z.ltb_ge; lia).
      unfold len. cbn [List.length]. lia.
Qed.

Lemma string_of_list_byte_empty (l : list byte) :
  string_of_list_byte l = "" -> l = [].
Proof. destruct l; [reflexivity | discriminate]. Qed.

Lemma skipn_len_app {A} (a b : list A) (n : Z) :
  n = len a -> skipn (Z.to_nat n) (a ++ b) = b.
Proof.
  intros ->. unfold len. rewrite Nat2Z.id.
  rewrite skipn_app, Nat.sub_diag, skipn_all. reflexivity.
Qed.

Lemma firstn_len_app {A} (a b : list A) (n : Z) :
  n = len a -> firstn (Z.to_nat n) (a ++ b) = a.
Proof.
  intros ->. unfold len. rewrite Nat2Z.id.
  rewrite firstn_app, Nat.sub_diag, firstn_all, firstn_O. apply app_nil_r.
Qed.

(** What [resolve] reads from a DFID_NAME payload. *)
Lemma dfid_name_fields (fid hdr body name pad : list byte) (handleType : Z) :
  dfid_name fid hdr body name handleType ->
  let data := fid ++ hdr ++ body ++ name ++ Byte.x00 :: pad in
  let handleData := skipn (Z.to_nat EventInfoFidLen) data in
  len data = EventInfoFidLen + FileHandleLen + len body + len name + 1 + len pad /\
  byteZ (nth 0 data Byte.x00) = FAN_EVENT_INFO_TYPE_DFID_NAME /\
  handleData = hdr ++ body ++ name ++ Byte.x00 :: pad /\
  field_event_len handleData = len body /\
  int32_of_uint32 (field_event_len (skipn 4 handleData)) = handleType /\
  firstn (Z.to_nat (len body)) (skipn (Z.to_nat FileHandleLen) handleData) = body /\
  skipn (Z.to_nat (FileHandleLen + len body)) handleData = name ++ Byte.x00 :: pad.
Proof.
  intros [Hfid Htype Hhdr Hbytes Hhtype Hnul]. cbv zeta.
  assert (Hhd : skipn (Z.to_nat EventInfoFidLen)
                  (fid ++ hdr ++ body ++ name ++ Byte.x00 :: pad)
                = hdr ++ body ++ name ++ Byte.x00 :: pad)
    by (apply skipn_len_app; congruence).
  rewrite Hhd.
  split; [|split; [|split; [reflexivity|split; [|split; [|split]]]]].
  - rewrite !len_app, Hfid, Hhdr.
    unfold len at 3. cbn [List.length]. rewrite Nat2Z.inj_succ. fold (len pad). lia.
  - destruct fid as [|b fid]; [discriminate|].
    cbn in Htype. cbn [app nth]. congruence.
  - unfold field_event_len.
    rewrite Uint32_app by (rewrite Hhdr; unfold FileHandleLen; lia).
    rewrite Hbytes. reflexivity.
  - unfold field_event_len. rewrite skipn_app.
    rewrite Uint32_app
      by (rewrite len_skipn, Hhdr; unfold FileHandleLen; lia).
    destruct (Uint32 (skipn 4 hdr)) as [t|]; [|discriminate].
    cbn in Hhtype. congruence.
  - rewrite (skipn_len_app hdr) by congruence.
    apply firstn_len_app. reflexivity.
  - rewrite app_assoc. apply skipn_len_app.
    rewrite len_app. congruence.
Qed.

(** The directory [resolve] works with is [base_path]. *)
Lemma resolve_dfid_name (kernel : Kernel) (now : Z) (wm : Watchman)
    (fid hdr body name pad : list byte) (handleType : Z) (basePath : string) :
  dfid_name fid hdr body name handleType ->
  name <> [] ->
  base_path kernel now wm handleType body = Some basePath ->
  basePath <> "" ->
  exists wm',
    resolve kernel now wm (fid ++ hdr ++ body ++ name ++ Byte.x00 :: pad)
    = Ret ((basePath, string_of_list_byte name, true), wm').
Proof.
  intros Hlay Hname Hbase Hne.
  pose proof (dfid_name_fields fid hdr body name pad handleType Hlay)
    as (Hlen & Hty & Hhd & Hhb & Hht & Hraw & Hrest).
  cbv zeta in *.
  pose proof (len_nonneg body). pose proof (len_nonneg name).
  pose proof (len_nonneg pad).
  assert (Hhdlen : len (hdr ++ body ++ name ++ Byte.x00 :: pad)
                   = FileHandleLen + len body + len name + 1 + len pad).
  { rewrite <- Hhd, len_skipn, Hlen. unfold EventInfoFidLen, FileHandleLen. lia. }
  rewrite resolve_returns. unfold resolve_in_range. cbv zeta.
  rewrite Hty, Hhd in *. rewrite Hhdlen, Hlen, Hhb, Hht, Hraw, Hrest.
  replace (_ <? EventInfoFidLen) with false
    by (symmetry; apply Z.ltb_ge; unfold EventInfoFidLen, FileHandleLen; lia).
  replace (_ <? FileHandleLen) with false
    by (symmetry; apply Z.ltb_ge; unfold FileHandleLen; lia).
  replace (_ - FileHandleLen <? len body) with false
    by (symmetry; apply Z.ltb_ge; lia).
  replace (FileHandleLen + len body <? _) with true
    by (symmetry; apply Z.ltb_lt; lia).
  rewrite Z.eqb_refl. cbn [andb].
  rewrite (IndexByte_name name pad) by (destruct Hlay; assumption).
  replace (0 <=? len name) with true by (symmetry; apply Z.leb_le; lia).
  rewrite (firstn_len_app name) by reflexivity.
  assert (Ename : (string_of_list_byte name =? "")%string = false).
  { apply String.eqb_neq. intros E. apply Hname.
    apply string_of_list_byte_empty. exact E. }
  apply String.eqb_neq in Hne.
  unfold base_path in Hbase.
  destruct (lru.Get (fdcManager wm) now (EncodeToString body)) as [hit fdc].
  cbn [fst] in Hbase.
  cbn [rfd set_fdcManager].
  destruct hit as [p|].
  - apply (f_equal (fun o => match o with Some x => x | None => "" end)) in Hbase.
    cbn beta iota in Hbase. subst p.
    rewrite Ename, Hne. cbn [negb andb].
    eexists. f_equal.
    destruct (basePath =? "/")%string eqn:E;
      [apply String.eqb_eq in E; subst basePath|]; reflexivity.
  - destruct (OpenByHandleAt kernel (rfd wm) handleType body) as [fd|];
      [|discriminate].
    rewrite Hbase, Ename, Hne. cbn [negb andb].
    eexists. f_equal.
    destruct (basePath =? "/")%string eqn:E;
      [apply String.eqb_eq in E; subst basePath|]; reflexivity.
Qed.

(* ------------------------------------------------------------------ *)
(** ** The radix tree *)

(** *** Strings *)

Lemma append_nil_r (s : string) : s +:+ "" = s.
Proof. induction s; cbn; congruence. Qed.

Lemma append_assoc (a b c : string) : (a +:+ b) +:+ c = a +:+ (b +:+ c).
Proof. induction a; cbn; congruence. Qed.

Lemma append_inv_l (a b c : string) : a +:+ b = a +:+ c -> b = c.
Proof. induction a; cbn; intros H; [exact H | injection H; auto]. Qed.

Lemma HasPrefix_append (s p : string) :
  HasPrefix s p = true <-> exists r, s = p +:+ r.
Proof.
  revert s. induction p as [|c p IH]; intros s; cbn [HasPrefix].
  - split; [intros _; exists s; reflexivity | reflexivity].
  - destruct s as [|c' s].
    + split; [discriminate | intros [r H]; discriminate H].
    + rewrite andb_true_iff, Ascii.eqb_eq, IH. split.
      * intros [-> [r ->]]. exists r. reflexivity.
      * intros [r H]. cbn in H. injection H as -> ->. split; [reflexivity | exists r; reflexivity].
Qed.

Lemma HasPrefix_refl_append (p r : string) : HasPrefix (p +:+ r) p = true.
Proof. apply HasPrefix_append. exists r. reflexivity. Qed.

Lemma str_from_append (p r : string) : str_from (String.length p) (p +:+ r) = r.
Proof. induction p; cbn; [destruct r; reflexivity | assumption]. Qed.

Lemma str_to_append (p r : string) : str_to (String.length p) (p +:+ r) = p.
Proof. induction p; cbn; [destruct r; reflexivity | congruence]. Qed.

Lemma str_to_all (s : string) : str_to (String.length s) s = s.
Proof. induction s; cbn; congruence. Qed.

Lemma str_to_from (n : nat) (s : string) : str_to n s +:+ str_from n s = s.
Proof.
  revert s. induction n as [|n IH]; intros s.
  - destruct s; reflexivity.
  - destruct s as [|c s]; [reflexivity|]. cbn. rewrite IH. reflexivity.
Qed.

(** The common prefix of [k1] and [k2]: both start with it, and what
    follows it differs in the first byte when both go on. *)
Lemma longestPrefix_common (k1 k2 : string) :
  str_to (radix.longestPrefix k1 k2) k1 = str_to (radix.longestPrefix k1 k2) k2.
Proof.
  revert k2. induction k1 as [|c1 k1 IH]; intros [|c2 k2]; cbn; try reflexivity.
  destruct (Ascii.eqb c1 c2) eqn:E; [|reflexivity].
  apply Ascii.eqb_eq in E. subst c2. cbn. rewrite IH. reflexivity.
Qed.

Lemma longestPrefix_le (k1 k2 : string) :
  (radix.longestPrefix k1 k2 <= String.length k2)%nat.
Proof.
  revert k2. induction k1 as [|c1 k1 IH]; intros [|c2 k2]; cbn; try lia.
  destruct (Ascii.eqb c1 c2); [|lia]. specialize (IH k2). lia.
Qed.

Lemma longestPrefix_differs (k1 k2 : string) (c1 c2 : ascii) (r1 r2 : string) :
  str_from (radix.longestPrefix k1 k2) k1 = String c1 r1 ->
  str_from (radix.longestPrefix k1 k2) k2 = String c2 r2 ->
  c1 <> c2.
Proof.
  revert k2. induction k1 as [|a1 k1 IH]; intros [|a2 k2]; cbn; try discriminate.
  destruct (Ascii.eqb a1 a2) eqn:E.
  - cbn. apply IH.
  - cbn. intros H1 H2. injection H1 as -> _. injection H2 as -> _.
    apply Ascii.eqb_neq. exact E.
Qed.

Lemma longestPrefix_head (c : ascii) (r1 r2 : string) :
  exists n, radix.longestPrefix (String c r1) (String c r2) = S n.
Proof. cbn. rewrite Ascii.eqb_refl. eexists. reflexivity. Qed.

Lemma str_from_length (n : nat) (s : string) :
  (n < String.length s)%nat ->
  exists r, str_from n s = String (radix.byteAt s n) r.
Proof.
  revert s. induction n as [|n IH]; intros [|c s]; cbn; try lia.
  - intros _. exists s. reflexivity.
  - intros H. apply IH. lia.
Qed.

Lemma str_to_length (n : nat) (s : string) :
  (n <= String.length s)%nat -> String.length (str_to n s) = n.
Proof.
  revert s. induction n as [|n IH]; intros [|c s]; cbn; try lia.
  intros H. rewrite IH; lia.
Qed.

(** *** Edge lists *)

Section Edges.

Context {V : Type}.
Implicit Types (es : list (radix.edge V)) (e : radix.edge V) (c l : ascii).

Lemma leb_N (a b : ascii) :
  Ascii.leb a b = (N_of_ascii a <=? N_of_ascii b)%N.
Proof. reflexivity. Qed.

Lemma N_of_ascii_inj (a b : ascii) : N_of_ascii a = N_of_ascii b -> a = b.
Proof.
  intros H. rewrite <- (ascii_N_embedding a), <- (ascii_N_embedding b).
  congruence.
Qed.

Lemma sorted_tail e es : radix.sorted (e :: es) -> radix.sorted es.
Proof. unfold radix.sorted. cbn [map]. intros H. inversion H; assumption. Qed.

Lemma sorted_head e es :
  radix.sorted (e :: es) ->
  forall e', In e' es -> (N_of_ascii (fst e) < N_of_ascii (fst e'))%N.
Proof.
  unfold radix.sorted. cbn [map]. intros H e' Hin.
  inversion H as [|? ? _ Hall]; subst.
  rewrite Forall_forall in Hall. apply Hall.
  apply (in_map (fun e : radix.edge V => N_of_ascii (fst e))). exact Hin.
Qed.

(** On sorted edges the label decides the child. *)
Lemma child_In es c (n : radix.node V) :
  radix.sorted es -> (radix.child es c = Some n <-> In (c, n) es).
Proof.
  induction es as [|[l n'] es IH]; intros Hs; cbn [radix.child In].
  - split; [discriminate | contradiction].
  - specialize (IH (sorted_tail _ _ Hs)).
    destruct (Ascii.eqb l c) eqn:E.
    + apply Ascii.eqb_eq in E. subst l. split.
      * intros H. injection H as ->. left. reflexivity.
      * intros [H | H]; [congruence|].
        pose proof (sorted_head _ _ Hs _ H) as Hlt. cbn [fst] in Hlt. lia.
    + apply Ascii.eqb_neq in E. rewrite IH. split; [auto|].
      intros [H | H]; [congruence | exact H].
Qed.

Lemma child_None es c :
  radix.child es c = None <-> ~ In c (map fst es).
Proof.
  induction es as [|[l n'] es IH]; cbn [radix.child map In fst].
  - split; [auto | reflexivity].
  - destruct (Ascii.eqb l c) eqn:E.
    + apply Ascii.eqb_eq in E. split; [discriminate | intros H; exfalso; auto].
    + apply Ascii.eqb_neq in E. rewrite IH. split; [intros H [?|?]; auto | auto].
Qed.

Lemma child_Some_In es c (n : radix.node V) :
  radix.child es c = Some n -> In (c, n) es.
Proof.
  induction es as [|[l n'] es IH]; cbn [radix.child In]; [discriminate|].
  destruct (Ascii.eqb l c) eqn:E.
  - apply Ascii.eqb_eq in E. subst l. intros H. injection H as ->. auto.
  - auto.
Qed.

(** The binary search of [getEdge], and its continuation form, find that
    child. *)
Lemma withEdge_child {A} (found : radix.node V -> A) (missing : A) c es :
  radix.sorted es ->
  radix.withEdge found missing c es
  = match radix.child es c with
    | Some n => found n
    | None => missing
    end.
Proof.
  induction es as [|[l n] es IH]; intros Hs; cbn [radix.withEdge radix.child];
    [reflexivity|].
  rewrite leb_N.
  destruct (N_of_ascii c <=? N_of_ascii l)%N eqn:E.
  - destruct (Ascii.eqb l c) eqn:E'; [reflexivity|].
    apply Ascii.eqb_neq in E'. apply N.leb_le in E.
    replace (radix.child es c) with (@None (radix.node V)); [reflexivity|].
    symmetry. apply child_None. intros Hin.
    apply in_map_iff in Hin as ([l' n'] & Hl & Hin). cbn [fst] in Hl. subst l'.
    pose proof (sorted_head _ _ Hs _ Hin) as Hlt. cbn [fst] in Hlt.
    assert (N_of_ascii c = N_of_ascii l) by lia.
    apply E'. symmetry. apply N_of_ascii_inj. assumption.
  - apply N.leb_gt in E.
    replace (Ascii.eqb l c) with false
      by (symmetry; apply Ascii.eqb_neq; intros ->; lia).
    apply IH. exact (sorted_tail _ _ Hs).
Qed.

Lemma getEdge_child lf pre es c :
  radix.sorted es ->
  radix.getEdge (radix.Node lf pre es) c = radix.child es c.
Proof.
  unfold radix.getEdge. cbn [radix.edges].
  induction es as [|[l n] es IH]; intros Hs; cbn [radix.search radix.child];
    [reflexivity|].
  rewrite leb_N.
  destruct (N_of_ascii c <=? N_of_ascii l)%N eqn:E.
  - cbn [nth_error].
    destruct (Ascii.eqb l c) eqn:E'; [reflexivity|].
    apply Ascii.eqb_neq in E'. apply N.leb_le in E.
    symmetry. apply child_None. intros Hin.
    apply in_map_iff in Hin as ([l' n'] & Hl & Hin). cbn [fst] in Hl. subst l'.
    pose proof (sorted_head _ _ Hs _ Hin) as Hlt. cbn [fst] in Hlt.
    assert (N_of_ascii c = N_of_ascii l) by lia.
    apply E'. symmetry. apply N_of_ascii_inj. assumption.
  - apply N.leb_gt in E. cbn [nth_error].
    replace (Ascii.eqb l c) with false
      by (symmetry; apply Ascii.eqb_neq; intros ->; lia).
    apply IH. exact (sorted_tail _ _ Hs).
Qed.

(** Sorting keeps the edges and orders them when their labels differ. *)
Lemma sortInsert_In e es e' :
  In e' (radix.sortInsert e es) <-> e' = e \/ In e' es.
Proof.
  induction es as [|e0 es IH]; cbn [radix.sortInsert In].
  - intuition.
  - destruct (Ascii.leb (fst e) (fst e0)); cbn [In]; [intuition|].
    rewrite IH. intuition.
Qed.

Lemma sortEdges_In es e' : In e' (radix.sortEdges es) <-> In e' es.
Proof.
  unfold radix.sortEdges.
  induction es as [|e0 es IH]; cbn [fold_right In]; [reflexivity|].
  rewrite sortInsert_In, IH. intuition.
Qed.

Lemma sortInsert_sorted e es :
  radix.sorted es -> ~ In (fst e) (map fst es) ->
  radix.sorted (radix.sortInsert e es).
Proof.
  induction es as [|e0 es IH]; intros Hs Hnin; cbn [radix.sortInsert].
  - repeat constructor.
  - rewrite leb_N.
    assert (Hne : N_of_ascii (fst e) <> N_of_ascii (fst e0)).
    { intros H. apply Hnin. left. symmetry. apply N_of_ascii_inj. exact H. }
    destruct (N_of_ascii (fst e) <=? N_of_ascii (fst e0))%N eqn:E.
    + apply N.leb_le in E. unfold radix.sorted. cbn [map].
      constructor; [exact Hs|].
      constructor; [lia|].
      apply Forall_forall. intros x Hx.
      apply in_map_iff in Hx as (e1 & <- & Hin).
      pose proof (sorted_head _ _ Hs _ Hin). lia.
    + apply N.leb_gt in E. unfold radix.sorted. cbn [map].
      constructor.
      * apply IH; [exact (sorted_tail _ _ Hs)|].
        intros Hin. apply Hnin. right. exact Hin.
      * apply Forall_forall. intros x Hx.
        apply in_map_iff in Hx as (e1 & <- & Hin).
        apply sortInsert_In in Hin as [-> | Hin]; [lia|].
        exact (sorted_head _ _ Hs _ Hin).
Qed.

Lemma sortEdges_labels es c :
  In c (map fst (radix.sortEdges es)) <-> In c (map fst es).
Proof.
  rewrite !in_map_iff. split; intros (e & He & Hin); exists e;
    (split; [exact He|]); apply sortEdges_In; exact Hin.
Qed.

Lemma sortEdges_sorted es :
  NoDup (map fst es) -> radix.sorted (radix.sortEdges es).
Proof.
  induction es as [|e es IH]; cbn [map]; intros Hnd.
  - constructor.
  - inversion Hnd as [|? ? Hnin Hnd']; subst.
    change (radix.sortEdges (e :: es))
      with (radix.sortInsert e (radix.sortEdges es)).
    apply sortInsert_sorted; [apply IH; exact Hnd'|].
    rewrite sortEdges_labels. exact Hnin.
Qed.

Lemma sorted_NoDup es : radix.sorted es -> NoDup (map fst es).
Proof.
  induction es as [|e es IH]; intros Hs; cbn [map]; constructor.
  - intros Hin. apply in_map_iff in Hin as (e' & He & Hin).
    pose proof (sorted_head _ _ Hs _ Hin) as Hlt. rewrite He in Hlt. lia.
  - apply IH. exact (sorted_tail _ _ Hs).
Qed.

End Edges.

(** *** Trees *)

Section Trees.

Context {V : Type}.

Lemma node_ind (P : radix.node V -> Prop) :
  (forall lf pre es,
      Forall (fun e : radix.edge V => P (snd e)) es ->
      P (radix.Node lf pre es)) ->
  forall n, P n.
Proof.
  intros H. fix IH 1. intros [lf pre es]. apply H.
  induction es as [|[l n] es IHes]; constructor; [apply IH | exact IHes].
Qed.

Lemma shaped_inv (path : string) (lf : option (string * V)) (pre : string)
    (es : list (radix.edge V)) :
  radix.shaped path (radix.Node lf pre es) ->
  (forall key v, lf = Some (key, v) -> key = path) /\
  radix.sorted es /\
  Forall (fun e : radix.edge V =>
            (exists r, radix.prefix (snd e) = String (fst e) r) /\
            radix.shaped (path +:+ radix.prefix (snd e)) (snd e)) es.
Proof. intros H. inversion H; subst. auto. Qed.

(** The shape does not depend on the node's own prefix. *)
Lemma shaped_prefix (path : string) (lf : option (string * V))
    (pre pre' : string) (es : list (radix.edge V)) :
  radix.shaped path (radix.Node lf pre es) ->
  radix.shaped path (radix.Node lf pre' es).
Proof.
  intros H. apply shaped_inv in H as (H1 & H2 & H3).
  constructor; assumption.
Qed.

Lemma keys_Node (lf : option (string * V)) (pre : string)
    (es : list (radix.edge V)) (k : string) :
  In k (radix.keys (radix.Node lf pre es)) <->
  (exists v, lf = Some (k, v)) \/
  (exists e, In e es /\ In k (radix.keys (snd e))).
Proof.
  cbn [radix.keys]. rewrite in_app_iff, in_flat_map.
  split; intros [H | H]; [left | right; exact H | left | right; exact H].
  - destruct lf as [[key v]|]; [|contradiction].
    destruct H as [-> | []]. exists v. reflexivity.
  - destruct H as [v ->]. left. reflexivity.
Qed.

(** Every key below a node spells the way to the node first. *)
Lemma shaped_keys (n : radix.node V) :
  forall path k, radix.shaped path n -> In k (radix.keys n) ->
                 exists suffix, k = path +:+ suffix.
Proof.
  induction n as [lf pre es IH] using node_ind.
  intros path k Hs Hk.
  apply shaped_inv in Hs as (Hleaf & _ & Hes).
  apply keys_Node in Hk as [[v Hv] | (e & Hin & Hk)].
  - exists "". rewrite append_nil_r. eapply Hleaf. exact Hv.
  - rewrite Forall_forall in IH, Hes.
    destruct (Hes e Hin) as [_ Hsh].
    destruct (IH e Hin _ _ Hsh Hk) as [suffix ->].
    exists (radix.prefix (snd e) +:+ suffix). apply append_assoc.
Qed.

(** Once a leaf has been seen the walk ends with a leaf. *)
Lemma longest_last (n : radix.node V) :
  forall search l, found (radix.longest n search (Some l)) = true.
Proof.
  induction n as [lf pre es IH] using node_ind.
  intros search l. cbn [radix.longest].
  set (last := match lf with Some l0 => Some l0 | None => Some l end).
  assert (Hlast : exists l', last = Some l')
    by (subst last; destruct lf; eexists; reflexivity).
  destruct Hlast as [l' ->].
  destruct search as [|c search]; [reflexivity|].
  induction es as [|[l0 n0] es IHes]; cbn [radix.withEdge]; [reflexivity|].
  inversion IH as [|? ? Hn0 Hes]; subst.
  destruct (Ascii.leb c l0); [|apply IHes; exact Hes].
  destruct (Ascii.eqb l0 c); [|reflexivity].
  destruct (HasPrefix (String c search) (radix.prefix n0)); [|reflexivity].
  apply Hn0.
Qed.

(** A key below a node is a prefix of the query exactly when it is the
    node's own leaf, or the query goes on with the prefix of a child and a
    key below that child is a prefix of it. *)
Lemma keys_prefix_cases (path search : string) (lf : option (string * V))
    (pre : string) (es : list (radix.edge V)) :
  radix.shaped path (radix.Node lf pre es) ->
  (exists k, In k (radix.keys (radix.Node lf pre es)) /\
             HasPrefix (path +:+ search) k = true) <->
  (exists v, lf = Some (path, v)) \/
  (exists c rest n0 search',
      search = String c rest /\ radix.child es c = Some n0 /\
      search = radix.prefix n0 +:+ search' /\
      exists k, In k (radix.keys n0) /\
                HasPrefix ((path +:+ radix.prefix n0) +:+ search') k = true).
Proof.
  intros Hs. apply shaped_inv in Hs as (Hleaf & Hsorted & Hes).
  rewrite Forall_forall in Hes. split.
  - intros (k & Hk & Hp).
    apply keys_Node in Hk as [[v Hv] | ([l n0] & Hin & Hk)].
    + left. exists v. rewrite <- (Hleaf _ _ Hv). exact Hv.
    + right. destruct (Hes _ Hin) as [[r Hr] Hsh]. cbn [fst snd] in *.
      destruct (shaped_keys _ _ _ Hsh Hk) as [suffix ->].
      apply HasPrefix_append in Hp as [rest Hp].
      rewrite !append_assoc in Hp. apply append_inv_l in Hp.
      exists l, (r +:+ suffix +:+ rest), n0, (suffix +:+ rest).
      split; [rewrite Hp, Hr; reflexivity|].
      split; [apply (child_In _ _ _ Hsorted); exact Hin|].
      split; [exact Hp|].
      exists ((path +:+ radix.prefix n0) +:+ suffix). split; [exact Hk|].
      rewrite <- append_assoc. apply HasPrefix_refl_append.
  - intros [[v Hv] | (c & rest & n0 & search' & Hc & Hch & Hpre & k & Hk & Hp)].
    + exists path. split; [apply keys_Node; left; eauto|].
      apply HasPrefix_refl_append.
    + exists k. split.
      * apply keys_Node. right. exists (c, n0).
        split; [apply child_Some_In; exact Hch | exact Hk].
      * rewrite Hpre, <- append_assoc. exact Hp.
Qed.

(** [LongestPrefix] from a node: a leaf is found exactly when one had been
    seen on the way or a key below the node is a prefix of the query. *)
Lemma longest_found (n : radix.node V) :
  forall path search last,
    radix.shaped path n ->
    found (radix.longest n search last) = true <->
    found last = true \/
    exists k, In k (radix.keys n) /\ HasPrefix (path +:+ search) k = true.
Proof.
  induction n as [lf pre es IH] using node_ind.
  intros path search last Hs.
  rewrite (keys_prefix_cases _ _ _ _ _ Hs).
  apply shaped_inv in Hs as (Hleaf & Hsorted & Hes).
  rewrite Forall_forall in IH, Hes.
  cbn [radix.longest].
  set (last' := match lf with Some l0 => Some l0 | None => last end).
  assert (Hlast' : found last' = true <->
                   found last = true \/ exists v, lf = Some (path, v)).
  { subst last'. destruct lf as [[key v]|].
    - rewrite (Hleaf key v eq_refl). split; [right; eauto | reflexivity].
    - split; [auto | intros [H | [v H]]; [exact H | discriminate H]]. }
  destruct search as [|c search].
  - rewrite Hlast'. split; [tauto|].
    intros [H | [H | (c & rest & n0 & search' & Hc & _)]];
      [auto | auto | discriminate Hc].
  - rewrite (withEdge_child _ _ _ _ Hsorted).
    destruct (radix.child es c) as [n0|] eqn:Hc.
    + pose proof (child_Some_In _ _ _ Hc) as Hin.
      destruct (Hes _ Hin) as [_ Hsh]. cbn [fst snd] in Hsh.
      destruct (HasPrefix (String c search) (radix.prefix n0)) eqn:Hp.
      * apply HasPrefix_append in Hp as [rest Hrest].
        replace (str_from (String.length (radix.prefix n0)) (String c search))
          with rest by (rewrite Hrest, str_from_append; reflexivity).
        rewrite (IH _ Hin _ rest last' Hsh). cbn [snd]. rewrite Hlast'.
        split.
        -- intros [[H | H] | H]; [auto | auto |].
           right; right. exists c, search, n0, rest. auto.
        -- intros [H | [H | (c' & rest' & n1 & search' & Hc' & Hch & Hpre & Hk)]];
             [auto | auto |].
           injection Hc' as <- <-. rewrite Hc in Hch. injection Hch as <-.
           rewrite Hrest in Hpre.
           apply append_inv_l in Hpre. subst search'. right. exact Hk.
      * rewrite Hlast'. split; [tauto|].
        intros [H | [H | (c' & rest' & n1 & search' & Hc' & Hch & Hpre & _)]];
          [auto | auto |].
        injection Hc' as <- <-. rewrite Hc in Hch. injection Hch as <-.
        rewrite Hpre, HasPrefix_refl_append in Hp. discriminate Hp.
    + rewrite Hlast'. split; [tauto|].
      intros [H | [H | (c' & rest' & n1 & search' & Hc' & Hch & _)]];
        [auto | auto |].
      injection Hc' as <- <-. rewrite Hc in Hch. discriminate Hch.
Qed.

Lemma keys_prefix_irrelevant (lf : option (string * V)) (pre pre' : string)
    (es : list (radix.edge V)) :
  radix.keys (radix.Node lf pre es) = radix.keys (radix.Node lf pre' es).
Proof. reflexivity. Qed.

Lemma shaped_leaf (path s search : string) (v : V) :
  s = path +:+ search ->
  radix.shaped (path +:+ search) (radix.Node (Some (s, v)) search []).
Proof.
  intros ->. constructor.
  - intros key v' H. injection H as <- _. reflexivity.
  - constructor.
  - constructor.
Qed.

(** The split node: it keeps the label of the edge it hangs on, is shaped,
    and holds the new key next to the old ones. *)
Lemma split_shaped (path : string) (n0 : radix.node V) (c : ascii)
    (r rest s : string) (v : V) :
  radix.prefix n0 = String c r ->
  radix.shaped (path +:+ radix.prefix n0) n0 ->
  s = path +:+ String c rest ->
  radix.longestPrefix (String c rest) (radix.prefix n0)
    <> String.length (radix.prefix n0) ->
  let n' := radix.split n0 s v (String c rest)
              (radix.longestPrefix (String c rest) (radix.prefix n0)) in
  (exists r', radix.prefix n' = String c r') /\
  radix.shaped (path +:+ radix.prefix n') n' /\
  (forall k, In k (radix.keys n') <-> k = s \/ In k (radix.keys n0)).
Proof.
  intros Hpre Hsh Hs Hne.
  destruct n0 as [lf0 pre0 es0]. cbn [radix.prefix] in *.
  set (search := String c rest) in *.
  set (cp := radix.longestPrefix search pre0) in *.
  pose proof (longestPrefix_le search pre0) as Hle. fold cp in Hle.
  pose proof (longestPrefix_common search pre0) as Hcommon. fold cp in Hcommon.
  destruct (str_from_length cp pre0 ltac:(lia)) as [r1 Hr1].
  assert (Hhead : exists r', str_to cp search = String c r').
  { subst cp search. rewrite Hpre.
    destruct (longestPrefix_head c rest r) as [m ->]. cbn. eauto. }
  set (restored := radix.Node lf0 (str_from cp pre0) es0).
  assert (Hrestored : radix.shaped ((path +:+ str_to cp search)
                                    +:+ str_from cp pre0) restored).
  { rewrite append_assoc, Hcommon, str_to_from.
    eapply shaped_prefix. exact Hsh. }
  assert (Hedge1 : (exists r0, radix.prefix (snd (radix.byteAt pre0 cp, restored))
                               = String (fst (radix.byteAt pre0 cp, restored)) r0) /\
                   radix.shaped ((path +:+ str_to cp search)
                                 +:+ radix.prefix (snd (radix.byteAt pre0 cp, restored)))
                                (snd (radix.byteAt pre0 cp, restored))).
  { cbn [fst snd radix.prefix restored]. split; [eauto | exact Hrestored]. }
  assert (Hsplit : s = (path +:+ str_to cp search) +:+ str_from cp search)
    by (rewrite append_assoc, str_to_from; exact Hs).
  unfold radix.split. fold search cp. cbv zeta.
  unfold radix.addEdge. cbn [radix.leaf radix.prefix radix.edges app].
  fold restored.
  change (radix.sortEdges [(radix.byteAt pre0 cp, restored)])
    with [(radix.byteAt pre0 cp, restored)].
  destruct (str_from cp search) as [|c' r'] eqn:Hrest.
  - cbn [radix.prefix]. split; [exact Hhead|]. split.
    + constructor.
      * intros key v' H. injection H as <- _. rewrite Hsplit.
        apply append_nil_r.
      * repeat constructor.
      * constructor; [exact Hedge1 | constructor].
    + intros k. rewrite keys_Node. cbn [In snd]. split.
      * intros [[v' H] | (e & [<- | []] & Hk)];
          [injection H as <- _; auto | right; exact Hk].
      * intros [-> | Hk]; [left; eauto|].
        right. exists (radix.byteAt pre0 cp, restored). auto.
  - cbn [radix.prefix radix.edges radix.leaf].
    set (e1 := (radix.byteAt pre0 cp, restored)) in *.
    set (e2 := (c', radix.Node (Some (s, v)) (String c' r') [])).
    assert (Hdiff : radix.byteAt pre0 cp <> c').
    { intros E. eapply (longestPrefix_differs search pre0); fold cp; eauto. }
    cbn [app].
    split; [exact Hhead|]. split.
    + constructor.
      * discriminate.
      * apply sortEdges_sorted. subst e1 e2. cbn [map app fst].
        constructor; [cbn [In]; intros H; destruct H as [H | []]; auto|].
        constructor; [cbn [In]; intros H; destruct H | constructor].
      * apply Forall_forall. intros e He.
        rewrite sortEdges_In in He. cbn [app In] in He.
        destruct He as [<- | [<- | []]]; [exact Hedge1|].
        cbn [fst snd radix.prefix e2]. split; [eauto|].
        apply shaped_leaf. exact Hsplit.
    + intros k. rewrite keys_Node. split.
      * intros [[v' H] | (e & He & Hk)]; [discriminate H|].
        rewrite sortEdges_In in He. cbn [app In] in He.
        destruct He as [<- | [<- | []]]; [right; exact Hk|].
        cbn in Hk. destruct Hk as [<- | []]. left. reflexivity.
      * intros [-> | Hk]; right.
        -- exists e2. split; [rewrite sortEdges_In; cbn; auto | cbn; auto].
        -- exists e1. split; [rewrite sortEdges_In; cbn; auto | exact Hk].
Qed.

Lemma NoDup_snoc {A} (l : list A) (x : A) :
  NoDup l -> ~ In x l -> NoDup (l ++ [x]).
Proof.
  induction l as [|a l IH]; cbn [app]; intros Hnd Hnin.
  - constructor; [intros [] | constructor].
  - inversion Hnd as [|? ? Ha Hl]; subst. constructor.
    + rewrite in_app_iff. cbn [In]. intros [H | [H | []]]; [auto|].
      apply Hnin. left. symmetry. exact H.
    + apply IH; [exact Hl|]. intros H. apply Hnin. right. exact H.
Qed.

(** A whole prefix in common: the search string goes on with it. *)
Lemma longestPrefix_whole (search pre : string) :
  radix.longestPrefix search pre = String.length pre ->
  search = pre +:+ str_from (radix.longestPrefix search pre) search.
Proof.
  intros H. pose proof (longestPrefix_common search pre) as Hc.
  rewrite H in *. rewrite str_to_all in Hc.
  transitivity (str_to (String.length pre) search
                +:+ str_from (String.length pre) search);
    [symmetry; apply str_to_from | rewrite Hc; reflexivity].
Qed.

(** [Insert] from a shaped node: the node stays shaped and keeps its
    prefix, and the keys below it are the old ones and the new one. *)
Lemma insert_shaped (n : radix.node V) :
  forall path search s v,
    radix.shaped path n -> s = path +:+ search ->
    radix.prefix (radix.insert n s v search) = radix.prefix n /\
    radix.shaped path (radix.insert n s v search) /\
    (forall k, In k (radix.keys (radix.insert n s v search)) <->
               k = s \/ In k (radix.keys n)).
Proof.
  induction n as [lf pre es IH] using node_ind.
  intros path search s v Hs Heq.
  apply shaped_inv in Hs as (Hleaf & Hsorted & Hes).
  rewrite Forall_forall in IH, Hes.
  destruct search as [|c rest].
  - rewrite append_nil_r in Heq. subst s. cbn [radix.insert].
    destruct lf as [[key old]|].
    + rewrite (Hleaf key old eq_refl).
      split; [reflexivity|]. split.
      * constructor; [|exact Hsorted | apply Forall_forall; exact Hes].
        intros key' v' H. injection H as <- _. reflexivity.
      * intros k. rewrite !keys_Node. split.
        -- intros [[v' H] | H]; [injection H as <- _; auto | auto].
        -- intros [-> | [[v' H] | H]]; [left; eauto | | auto].
           injection H as <- _. left. eauto.
    + split; [reflexivity|]. split.
      * constructor; [|exact Hsorted | apply Forall_forall; exact Hes].
        intros key' v' H. injection H as <- _. reflexivity.
      * intros k. rewrite !keys_Node. split.
        -- intros [[v' H] | H]; [injection H as <- _; auto | auto].
        -- intros [-> | [[v' H] | H]]; [left; eauto | discriminate H | auto].
  - cbn [radix.insert]. rewrite (getEdge_child _ _ _ _ Hsorted).
    destruct (radix.child es c) as [n0|] eqn:Hc.
    + set (upd := fun e : radix.edge V =>
                    if Ascii.eqb (fst e) c
                    then
                      if Nat.eqb (radix.longestPrefix (String c rest)
                                    (radix.prefix (snd e)))
                                 (String.length (radix.prefix (snd e)))
                      then (fst e,
                            radix.insert (snd e) s v
                              (str_from (radix.longestPrefix (String c rest)
                                           (radix.prefix (snd e)))
                                        (String c rest)))
                      else (fst e,
                            radix.split (snd e) s v (String c rest)
                              (radix.longestPrefix (String c rest)
                                 (radix.prefix (snd e))))
                    else e).
      assert (Hupd : forall e, In e es ->
                fst (upd e) = fst e /\
                ((exists r, radix.prefix (snd (upd e)) = String (fst (upd e)) r) /\
                 radix.shaped (path +:+ radix.prefix (snd (upd e))) (snd (upd e))) /\
                (forall k, In k (radix.keys (snd (upd e))) <->
                           (fst e = c /\ k = s) \/ In k (radix.keys (snd e)))).
      { intros e Hin. destruct (Hes e Hin) as [[r Hr] Hsh]. unfold upd.
        destruct (Ascii.eqb (fst e) c) eqn:E.
        - apply Ascii.eqb_eq in E. rewrite E in Hr.
          destruct (Nat.eqb _ _) eqn:E2.
          + apply Nat.eqb_eq in E2.
            pose proof (longestPrefix_whole _ _ E2) as Hwhole.
            destruct (IH e Hin (path +:+ radix.prefix (snd e))
                        (str_from (radix.longestPrefix (String c rest)
                                     (radix.prefix (snd e))) (String c rest))
                        s v Hsh) as (Hp & Hsh' & Hk).
            { rewrite append_assoc, <- Hwhole. exact Heq. }
            cbn [fst snd]. split; [reflexivity|]. split.
            * rewrite Hp. split; [rewrite E; eauto | exact Hsh'].
            * intros k. rewrite Hk. intuition.
          + apply Nat.eqb_neq in E2.
            destruct (split_shaped path (snd e) c r rest s v Hr Hsh Heq E2)
              as (Hp & Hsh' & Hk).
            cbn [fst snd]. split; [reflexivity|]. split.
            * split; [rewrite E; exact Hp | exact Hsh'].
            * intros k. rewrite Hk. intuition.
        - apply Ascii.eqb_neq in E. split; [reflexivity|]. split.
          + split; [eauto | exact Hsh].
          + intros k. intuition. }
      fold upd. split; [reflexivity|]. split.
      * constructor; [exact Hleaf | |].
        -- unfold radix.sorted in *. rewrite map_map.
           erewrite map_ext_in; [exact Hsorted|].
           intros e Hin. cbv beta. destruct (Hupd e Hin) as [-> _]. reflexivity.
        -- apply Forall_forall. intros e' Hin'.
           apply in_map_iff in Hin' as (e & <- & Hin).
           apply (Hupd e Hin).
      * intros k. rewrite !keys_Node. split.
        -- intros [H | (e' & Hin' & Hk)]; [auto|].
           apply in_map_iff in Hin' as (e & <- & Hin).
           apply (Hupd e Hin) in Hk as [[_ ->] | Hk]; [auto|].
           right; right. eauto.
        -- intros [-> | [H | (e & Hin & Hk)]]; [| auto |].
           ++ right. exists (upd (c, n0)).
              pose proof (child_Some_In _ _ _ Hc) as Hin.
              split; [apply in_map; exact Hin|].
              apply (Hupd _ Hin). left. auto.
           ++ right. exists (upd e). split; [apply in_map; exact Hin|].
              apply (Hupd e Hin). right. exact Hk.
    + unfold radix.addEdge. cbn [radix.leaf radix.prefix radix.edges].
      split; [reflexivity|]. split.
      * constructor; [exact Hleaf | |].
        -- apply sortEdges_sorted. rewrite map_app. cbn [map fst].
           apply NoDup_snoc; [apply sorted_NoDup; exact Hsorted|].
           apply child_None. exact Hc.
        -- apply Forall_forall. intros e Hin.
           rewrite sortEdges_In, in_app_iff in Hin. cbn [In] in Hin.
           destruct Hin as [Hin | [<- | []]]; [apply Hes; exact Hin|].
           cbn [fst snd radix.prefix]. split; [eauto|].
           apply shaped_leaf. exact Heq.
      * intros k. rewrite !keys_Node. split.
        -- intros [H | (e & Hin & Hk)]; [auto|].
           rewrite sortEdges_In, in_app_iff in Hin. cbn [In] in Hin.
           destruct Hin as [Hin | [<- | []]]; [right; right; eauto|].
           cbn in Hk. destruct Hk as [<- | []]. auto.
        -- intros [-> | [H | (e & Hin & Hk)]]; [| auto |].
           ++ right. eexists. split;
                [rewrite sortEdges_In, in_app_iff; right; left; reflexivity|].
              cbn. auto.
           ++ right. exists e. split; [|exact Hk].
              rewrite sortEdges_In, in_app_iff. auto.
Qed.

End Trees.

(** *** The filter *)

Lemma New_shaped {V} : radix.shaped "" (radix.root (@radix.New V)).
Proof. constructor; [discriminate | constructor | constructor]. Qed.

Lemma Insert_shaped {V} (t : radix.Tree V) (s : string) (v : V) :
  radix.shaped "" (radix.root t) ->
  radix.shaped "" (radix.root (radix.Insert t s v)) /\
  (forall k, In k (radix.keys (radix.root (radix.Insert t s v))) <->
             k = s \/ In k (radix.keys (radix.root t))).
Proof.
  intros H.
  destruct (insert_shaped (radix.root t) "" s s v H eq_refl) as (_ & H1 & H2).
  split; assumption.
Qed.

Lemma fold_Insert_shaped (paths : list string) :
  forall t : radix.Tree bool,
    radix.shaped "" (radix.root t) ->
    let t' := fold_left (fun t path => radix.Insert t path true) paths t in
    radix.shaped "" (radix.root t') /\
    (forall k, In k (radix.keys (radix.root t')) <->
               In k paths \/ In k (radix.keys (radix.root t))).
Proof.
  induction paths as [|p paths IH]; intros t Ht; cbn [fold_left].
  - split; [exact Ht|]. intros k. cbn [In]. tauto.
  - destruct (Insert_shaped t p true Ht) as [H1 H2].
    destruct (IH _ H1) as [H3 H4]. split; [exact H3|].
    intros k. rewrite H4, H2. cbn [In]. split.
    + intros [H | [-> | H]]; auto.
    + intros [[-> | H] | H]; auto.
Qed.

(** The filter holds exactly the configured paths. *)
Lemma buildFilter_keys (paths : list string) :
  radix.shaped "" (radix.root (buildFilter paths)) /\
  (forall k, In k (radix.keys (radix.root (buildFilter paths))) <-> In k paths).
Proof.
  destruct (fold_Insert_shaped paths radix.New New_shaped) as [H1 H2].
  split; [exact H1|]. intros k. unfold buildFilter. rewrite H2.
  cbn. tauto.
Qed.

(** A shaped tree matches a query exactly when it holds a key that is a
    prefix of the query. *)
Lemma matched_iff (t : radix.Tree bool) (q : string) :
  radix.shaped "" (radix.root t) ->
  matched t q = true <->
  exists k, In k (radix.keys (radix.root t)) /\ HasPrefix q k = true.
Proof.
  intros Ht. unfold matched, radix.LongestPrefix.
  change (match radix.longest (radix.root t) q None with
          | Some _ => true | None => false end)
    with (found (radix.longest (radix.root t) q None)).
  rewrite (longest_found (radix.root t) "" q None Ht). cbn [found append].
  split; [intros [H | H]; [discriminate H | exact H] | auto].
Qed.
(* ================================================================== *)
(** * The claims                                                       *)
(* ================================================================== *)

(** C1, as stated, fails: the filter built for the one prefix [/var/log]
    matches the path [/var/logging/x], of which no configured prefix is a
    prefix at a path-component boundary. *)
Lemma filter_matches_inside_component :
  matched (buildFilter ["/var/log"]) "/var/logging/x" = true /\
  forall p, In p ["/var/log"] -> ~ component_prefix p "/var/logging/x".
Proof.
  split; [vm_compute; reflexivity|].
  intros p [<- | []] (rest & Hrest & H).
  cbn in Hrest. injection Hrest as <-.
  destruct H as [H | [[r H] | [p' H]]]; [discriminate H | discriminate H |].
  repeat (destruct p' as [|? p']; [discriminate H|];
          cbn in H; injection H as _ H).
  destruct p'; discriminate H.
Qed.

(** C1 (amended): the filter reports a match for a path Q exactly when
    some configured prefix is a prefix of Q as a string.  Hence every Q that
    begins with a configured prefix at a path-component boundary matches;
    so does a Q that merely goes on inside a component, as [/var/logging/x]
    does for the prefix [/var/log]. *)
Theorem filter_matches_string_prefix (paths : list string) (q : string) :
  (matched (buildFilter paths) q = true <->
   exists p, In p paths /\ HasPrefix q p = true) /\
  (forall p, In p paths -> component_prefix p q ->
             matched (buildFilter paths) q = true).
Proof.
  destruct (buildFilter_keys paths) as [Hshaped Hkeys].
  assert (Hiff : matched (buildFilter paths) q = true <->
                 exists p, In p paths /\ HasPrefix q p = true).
  { rewrite (matched_iff _ q Hshaped). split; intros (k & Hk & Hp);
      exists k; (split; [apply Hkeys; exact Hk | exact Hp]). }
  split; [exact Hiff|].
  intros p Hin (rest & -> & _). apply Hiff. exists p.
  split; [exact Hin | apply HasPrefix_refl_append].
Qed.

Lemma filter_matches_string_prefix_witness :
  matched (buildFilter ["/var/log"; "/etc"]) "/var/log/syslog" = true /\
  matched (buildFilter ["/var/log"; "/etc"]) "/var/logging/x" = true.
Proof.
  split.
  - apply (proj2 (filter_matches_string_prefix ["/var/log"; "/etc"]
                    "/var/log/syslog") "/var/log").
    + left. reflexivity.
    + exists "/syslog". split; [reflexivity|]. right; left. eauto.
  - apply (proj1 (filter_matches_string_prefix ["/var/log"; "/etc"]
                    "/var/logging/x")).
    exists "/var/log". split; [left; reflexivity | reflexivity].
Defined.

(** C2, as stated, fails: a buffer that consists of the one record
    [short_record] meets every condition the claim lists (nonzero
    [event_len] within the remaining bytes, the kernel's version, overflow
    bit clear), yet the loop guard [len(data) >= EventMetadataLen] keeps the
    parser from looking at it, and no event is sent. *)
Lemma capture_short_record_not_parsed :
  Forall declared_well_formed [short_record] /\
  parseBuffer background (List.concat [short_record])
  = ([], Stopped short_record) /\
  List.length (fst (parseBuffer background (List.concat [short_record])))
  <> List.length [short_record].
Proof.
  split; [|split].
  - constructor; [|constructor].
    repeat split; vm_compute; congruence.
  - vm_compute. reflexivity.
  - vm_compute. congruence.
Qed.

(** C2 (amended): a buffer that consists of N consecutive records, each
    with the whole 24-byte metadata header, an [event_len] equal to its
    size, the kernel's version and the overflow bit clear, is parsed into
    exactly N events, one per record and in record order; the loop then
    stops with nothing left. *)
Theorem capture_parse_complete (ctx : nat -> bool) (recs : list (list byte)) :
  (forall k, ctx k = false) ->
  Forall well_formed recs ->
  parseBuffer ctx (List.concat recs) = (map event_of recs, Stopped []) /\
  List.length (fst (parseBuffer ctx (List.concat recs))) = List.length recs.
Proof.
  intros Hctx Hwf.
  assert (E : parseBuffer ctx (List.concat recs) = (map event_of recs, Stopped [])).
  { unfold parseBuffer.
    pose proof (parseLoop_records ctx [] Hctx truncated_nil recs
                  (List.length (List.concat recs)) 0%nat Hwf) as H.
    rewrite app_nil_r in H. apply H. lia. }
  split; [exact E|]. rewrite E. cbn [fst]. apply length_map.
Qed.

Lemma capture_parse_complete_witness :
  parseBuffer background (List.concat [sample_create; sample_create])
  = (map event_of [sample_create; sample_create], Stopped []) /\
  List.length (fst (parseBuffer background
                      (List.concat [sample_create; sample_create])))
  = List.length [sample_create; sample_create].
Proof.
  apply (capture_parse_complete background [sample_create; sample_create]).
  - reflexivity.
  - repeat constructor; vm_compute; congruence.
Defined.

(** A record that declares fewer bytes than the metadata header and is
    followed by enough bytes to pass the loop guard makes the slice
    [data[EventMetadataLen:eventLen]] panic; the completeness and truncation
    theorems are about records that hold the whole header. *)
Remark capture_short_record_panics :
  parseBuffer background (short_record ++ sample_bare) = ([], Crashed).
Proof. vm_compute. reflexivity. Qed.

(** C3, as stated, fails: [short_record] meets every condition the claims
    list for a well-formed record, and in both buffers below it is followed
    by a final record whose declared [event_len] (56) exceeds the bytes
    left.  With 8 bytes left the loop guard passes and the slice
    [data[EventMetadataLen:eventLen]] panics; with 4 bytes left the loop
    guard [len(data) >= EventMetadataLen] keeps the parser from looking at
    the buffer at all, and the event of [short_record] is not sent. *)
Lemma capture_truncation_after_short_record :
  Forall declared_well_formed [short_record] /\
  len (firstn 8 sample_create) < field_event_len (firstn 8 sample_create) /\
  parseBuffer background (List.concat [short_record] ++ firstn 8 sample_create)
  = ([], Crashed) /\
  len (firstn 4 sample_create) < field_event_len (firstn 4 sample_create) /\
  parseBuffer background (List.concat [short_record] ++ firstn 4 sample_create)
  = ([], Stopped (short_record ++ firstn 4 sample_create)) /\
  map event_of [short_record] <> [].
Proof.
  split; [|split; [|split; [|split; [|split]]]].
  - constructor; [|constructor].
    repeat split; vm_compute; congruence.
  - vm_compute. reflexivity.
  - vm_compute. reflexivity.
  - vm_compute. reflexivity.
  - vm_compute. reflexivity.
  - discriminate.
Qed.

(** C3 (amended): when the records of the buffer each hold the whole
    24-byte metadata header and the buffer ends in a truncated record (the
    declared [event_len] is zero or exceeds the bytes left, or fewer bytes
    than a metadata header are left), the parse does not panic: it sends
    exactly the events of the well-formed records before it, in order, and
    stops at the truncated record, which is left unparsed. *)
Theorem capture_stops_at_truncation (ctx : nat -> bool)
    (recs : list (list byte)) (tail : list byte) :
  (forall k, ctx k = false) ->
  Forall well_formed recs ->
  truncated tail ->
  parseBuffer ctx (List.concat recs ++ tail) = (map event_of recs, Stopped tail).
Proof.
  intros Hctx Hwf Htail. unfold parseBuffer.
  apply parseLoop_records; auto.
Qed.

Lemma capture_stops_at_truncation_witness :
  parseBuffer background (List.concat [sample_create] ++ sample_cut)
  = (map event_of [sample_create], Stopped sample_cut).
Proof.
  apply (capture_stops_at_truncation background [sample_create] sample_cut).
  - reflexivity.
  - repeat constructor; vm_compute; congruence.
  - right; right. vm_compute. reflexivity.
Defined.

(** C4: a record with the queue-overflow bit set in its mask sends no
    event and does not end the parse: the buffer is parsed as if it began
    after that record.  In particular a well-formed record that follows it
    (a CREATE, say) still yields its event. *)
Theorem overflow_record_skipped (ctx : nat -> bool) (ovf : list byte) :
  overflow_record ovf ->
  (forall rest, parseBuffer ctx (ovf ++ rest) = parseBuffer ctx rest) /\
  (forall rec,
     (forall k, ctx k = false) ->
     well_formed rec ->
     parseBuffer ctx (ovf ++ rec) = ([event_of rec], Stopped [])).
Proof.
  intros Hovf.
  assert (E : forall rest, parseBuffer ctx (ovf ++ rest) = parseBuffer ctx rest).
  { intros rest. unfold parseBuffer.
    pose proof Hovf as (Hlen & _).
    pose proof (len_nonneg rest) as Hnn.
    destruct (List.length (ovf ++ rest)) as [|fuel] eqn:Ef.
    { rewrite length_app in Ef. unfold len, EventMetadataLen in Hlen. lia. }
    cbn [parseLoop].
    replace (len (ovf ++ rest) <? EventMetadataLen)
      with false by (symmetry; apply Z.ltb_ge; rewrite len_app; lia).
    rewrite (parseRecord_overflow _ _ Hovf), slice_from_app.
    apply parseLoop_fuel; [|lia].
    rewrite length_app in Ef. unfold len, EventMetadataLen in Hlen. lia. }
  split; [exact E|].
  intros rec Hctx Hwf. rewrite E.
  pose proof (parseLoop_records ctx [] Hctx truncated_nil [rec]
                (List.length rec) 0%nat
                (Forall_cons _ Hwf (Forall_nil _))) as H.
  cbn [List.concat map] in H. rewrite !app_nil_r in H.
  apply H. lia.
Qed.

Lemma overflow_record_skipped_witness :
  parseBuffer background (sample_overflow ++ sample_create)
  = parseBuffer background sample_create /\
  parseBuffer background (sample_overflow ++ sample_create)
  = ([event_of sample_create], Stopped []) /\
  Z.land (Mask (event_of sample_create)) FAN_CREATE <> 0.
Proof.
  pose proof (overflow_record_skipped background sample_overflow) as [H1 H2].
  { repeat split; vm_compute; congruence. }
  split; [apply H1|]. split.
  - apply (H2 sample_create).
    + reflexivity.
    + repeat split; vm_compute; congruence.
  - vm_compute. congruence.
Defined.

(** C5: [maskToString] tests the bits in the order CREATE, DELETE,
    DELETE_SELF, CLOSE_WRITE, MOVED_TO and joins the names of those set
    with ["|"]; when none is set the result is ["0x"] followed by the mask
    in hexadecimal (for a 64-bit mask, digits that denote it).  So
    CREATE|MOVED_TO gives ["CREATE|MOVED_TO"] and 0 gives ["0x0"]. *)
Theorem maskToString_spec (mask : Z) :
  maskToString mask =
    match matched_names mask with
    | [] => "0x" +:+ fmt_hex mask
    | names => strings_Join names "|"
    end /\
  (0 <= mask < 2 ^ 64 -> hex_value (fmt_hex mask) = Some mask) /\
  maskToString (Z.lor FAN_CREATE FAN_MOVED_TO) = "CREATE|MOVED_TO" /\
  maskToString 0 = "0x0".
Proof.
  split; [|split; [apply fmt_hex_value | split; reflexivity]].
  unfold maskToString, matched_names, mask_names.
  cbn [List.filter fst snd].
  destruct (Z.land mask FAN_CREATE =? 0);
  destruct (Z.land mask FAN_DELETE =? 0);
  destruct (Z.land mask FAN_DELETE_SELF =? 0);
  destruct (Z.land mask FAN_CLOSE_WRITE =? 0);
  destruct (Z.land mask FAN_MOVED_TO =? 0);
  reflexivity.
Qed.

Lemma maskToString_spec_witness :
  maskToString FAN_ONDIR = "0x40000000" /\
  hex_value (fmt_hex FAN_ONDIR) = Some FAN_ONDIR.
Proof.
  destruct (maskToString_spec FAN_ONDIR) as (H1 & H2 & _).
  split; [rewrite H1; reflexivity|].
  apply H2. vm_compute. split; congruence.
Defined.

(** C7: when the handle resolves to the directory ["/"] and the DFID_NAME
    payload carries a non-empty child name N, [resolve] succeeds with the
    pair (["/"], N): the directory is not turned into the empty string.  So
    a CREATE event for a file, whose path the filter matches and the path
    cache does not hold, calls every listener with directory ["/"]. *)
Theorem root_directory_kept (join : string -> string -> string)
    (kernel : Kernel) (now : Z) (wm : Watchman)
    (fid hdr body name pad : list byte) (handleType : Z) :
  dfid_name fid hdr body name handleType ->
  name <> [] ->
  base_path kernel now wm handleType body = Some "/" ->
  let data := fid ++ hdr ++ body ++ name ++ Byte.x00 :: pad in
  let N := string_of_list_byte name in
  (exists wm', resolve kernel now wm data = Ret (("/", N, true), wm')) /\
  (matched (filter wm) (join "/" N) = true ->
   fst (lru.Get (fpcManager wm) now (join "/" N)) = None ->
   exists wm',
     processEvent join kernel now wm (mkEvent FAN_CREATE false (Some data))
     = Ret (map (fun b : string * Listener =>
                   mkCall (snd b) "CREATE" "/" N false) (listeners wm),
            wm')).
Proof.
  intros Hlay Hname Hbase data N.
  destruct (resolve_dfid_name kernel now wm fid hdr body name pad handleType "/"
              Hlay Hname Hbase ltac:(discriminate)) as [wm1 Hr].
  split; [exists wm1; exact Hr|].
  intros Hm Hget. eexists.
  apply (processEvent_delivers join kernel now wm wm1
           (mkEvent FAN_CREATE false (Some data)) "/" N).
  - exact Hr.
  - discriminate.
  - subst N. intros E. apply Hname. apply string_of_list_byte_empty. exact E.
  - reflexivity.
  - exact Hm.
  - exact Hget.
Qed.

Lemma root_directory_kept_witness :
  let data := sample_fid ++ sample_hdr ++ sample_body ++ sample_name
              ++ Byte.x00 :: [] in
  (exists wm', resolve sample_kernel 0 sample_watchman data
               = Ret (("/", "etc", true), wm')) /\
  exists wm',
    processEvent sample_join sample_kernel 0 sample_watchman
                 (mkEvent FAN_CREATE false (Some data))
    = Ret ([mkCall 1%nat "CREATE" "/" "etc" false], wm').
Proof.
  pose proof (root_directory_kept sample_join sample_kernel 0 sample_watchman
                sample_fid sample_hdr sample_body sample_name [] 1) as H.
  destruct H as [H1 H2].
  - constructor; vm_compute; try reflexivity.
    intros [E|[E|[E|[]]]]; discriminate E.
  - discriminate.
  - vm_compute. reflexivity.
  - split; [exact H1|]. apply H2; vm_compute; reflexivity.
Defined.

(** C9: [resolve] returns on every byte slice, of any length and
    contents: none of its index and slice expressions is out of range.  A
    payload too short for the info-FID and file_handle headers, or whose
    declared [handle_bytes] exceeds what follows them, gives the failure
    result. *)
Theorem resolve_never_panics (kernel : Kernel) (now : Z) (wm : Watchman)
    (data : list byte) :
  (exists r wm', resolve kernel now wm data = Ret (r, wm')) /\
  (len data < EventInfoFidLen + FileHandleLen \/
   len data - (EventInfoFidLen + FileHandleLen)
     < field_event_len (skipn (Z.to_nat EventInfoFidLen) data) ->
   resolve kernel now wm data = Ret (("", "", false), wm)).
Proof.
  rewrite resolve_returns. split.
  - destruct (resolve_in_range kernel now wm data) as [r wm'].
    exists r, wm'. reflexivity.
  - intros H. f_equal. unfold resolve_in_range. cbv zeta.
    destruct (len data <? EventInfoFidLen) eqn:E1; [reflexivity|].
    apply Z.ltb_ge in E1.
    assert (Hhd : len (skipn (Z.to_nat EventInfoFidLen) data)
                  = len data - EventInfoFidLen).
    { rewrite len_skipn. unfold EventInfoFidLen in *. lia. }
    rewrite Hhd.
    destruct (len data - EventInfoFidLen <? FileHandleLen) eqn:E2;
      [reflexivity|].
    apply Z.ltb_ge in E2.
    replace (len data - EventInfoFidLen - FileHandleLen <? _) with true;
      [reflexivity|].
    symmetry. apply Z.ltb_lt. lia.
Qed.

Lemma resolve_never_panics_witness :
  (exists r wm', resolve sample_kernel 0 sample_watchman sample_fid
                 = Ret (r, wm')) /\
  resolve sample_kernel 0 sample_watchman sample_fid
  = Ret (("", "", false), sample_watchman).
Proof.
  pose proof (resolve_never_panics sample_kernel 0 sample_watchman sample_fid)
    as [H1 H2].
  split; [exact H1|]. apply H2. left. vm_compute. reflexivity.
Defined.

(** C10: a well-formed record whose info payload is shorter than the 20
    bytes of the info-FID and file_handle headers is still sent as an event,
    with a nil handle; [resolve] fails on that handle, and the process stage
    drops the event without calling a listener or changing the pipeline. *)
Theorem short_payload_event_dropped (ctx : nat -> bool) (rec : list byte) :
  (forall k, ctx k = false) ->
  well_formed rec ->
  len (field_info rec) < EventInfoFidLen + FileHandleLen ->
  parseBuffer ctx rec = ([event_of rec], Stopped []) /\
  Handle (event_of rec) = None /\
  forall (join : string -> string -> string) (kernel : Kernel) (now : Z)
         (wm : Watchman),
    resolve kernel now wm (handleBytesOf (event_of rec))
    = Ret (("", "", false), wm) /\
    processEvent join kernel now wm (event_of rec) = Ret ([], wm).
Proof.
  intros Hctx Hwf Hshort.
  assert (Hnil : Handle (event_of rec) = None).
  { unfold event_of. cbn [Handle].
    replace (_ <=? len (field_info rec)) with false; [reflexivity|].
    symmetry. apply Z.leb_gt. exact Hshort. }
  split; [|split; [exact Hnil|]].
  - pose proof (parseLoop_records ctx [] Hctx truncated_nil [rec]
                  (List.length rec) 0%nat
                  (Forall_cons _ Hwf (Forall_nil _))) as H.
    cbn [List.concat map] in H. rewrite !app_nil_r in H.
    apply H. lia.
  - intros join kernel now wm.
    apply processEvent_nil_handle. exact Hnil.
Qed.

Lemma short_payload_event_dropped_witness :
  parseBuffer background sample_bare = ([event_of sample_bare], Stopped []) /\
  Handle (event_of sample_bare) = None /\
  processEvent sample_join sample_kernel 0 sample_watchman (event_of sample_bare)
  = Ret ([], sample_watchman).
Proof.
  pose proof (short_payload_event_dropped background sample_bare) as H.
  destruct H as (H1 & H2 & H3).
  - reflexivity.
  - repeat split; vm_compute; congruence.
  - vm_compute. reflexivity.
  - split; [exact H1|]. split; [exact H2|].
    apply (H3 sample_join sample_kernel 0 sample_watchman).
Defined.

(** C6: the dedup is keyed on the path alone.  When an event for a file
    resolves to the path A, passes the filter and finds no live entry for A
    in the path cache, every listener is called for it and A enters the
    cache, live for one TTL.  Any event that resolves to A while that entry
    is live reaches no listener, whatever its mask; in particular the next
    event on A within the TTL. *)
Theorem dedup_by_path (join : string -> string -> string)
    (kernel1 : Kernel) (now1 : Z) (wm wm1 : Watchman) (e1 : Event)
    (directory filename : string) :
  resolve kernel1 now1 wm (handleBytesOf e1)
  = Ret ((directory, filename, true), wm1) ->
  directory <> "" -> filename <> "" ->
  IsDir e1 = false ->
  matched (filter wm) (join directory filename) = true ->
  fst (lru.Get (fpcManager wm) now1 (join directory filename)) = None ->
  exists wm',
    processEvent join kernel1 now1 wm e1
    = Ret (map (fun b : string * Listener =>
                  mkCall (snd b) (maskToString (Mask e1))
                         directory filename false)
               (listeners wm),
           wm') /\
    (forall t, t <= now1 + lru.ttl (fpcManager wm) ->
               lru.live (fpcManager wm') t (join directory filename)) /\
    (forall kernel2 now2 wm2 wm2r e2 d2 f2 ok2,
        resolve kernel2 now2 wm2 (handleBytesOf e2) = Ret ((d2, f2, ok2), wm2r) ->
        join d2 f2 = join directory filename ->
        lru.live (fpcManager wm2) now2 (join directory filename) ->
        exists wm2', processEvent join kernel2 now2 wm2 e2 = Ret ([], wm2')) /\
    (forall kernel2 now2 wm2r e2 d2 f2 ok2,
        resolve kernel2 now2 wm' (handleBytesOf e2) = Ret ((d2, f2, ok2), wm2r) ->
        join d2 f2 = join directory filename ->
        now2 <= now1 + lru.ttl (fpcManager wm) ->
        exists wm2', processEvent join kernel2 now2 wm' e2 = Ret ([], wm2')).
Proof.
  intros Hr Hd Hf Hdir Hm Hget.
  pose proof (processEvent_delivers join kernel1 now1 wm wm1 e1
                directory filename Hr Hd Hf Hdir Hm Hget) as Hp.
  eexists. split; [exact Hp|].
  assert (Hlive : forall t, t <= now1 + lru.ttl (fpcManager wm) ->
            lru.live (fpcManager
                        (set_fpcManager wm1
                           (lru.Add (fpcManager wm) now1 (join directory filename)
                                    (maskToString (Mask e1)))))
                     t (join directory filename)).
  { intros t Ht. cbn [fpcManager set_fpcManager]. apply Add_live. exact Ht. }
  assert (Hdrop : forall kernel2 now2 wm2 wm2r e2 d2 f2 ok2,
            resolve kernel2 now2 wm2 (handleBytesOf e2) = Ret ((d2, f2, ok2), wm2r) ->
            join d2 f2 = join directory filename ->
            lru.live (fpcManager wm2) now2 (join directory filename) ->
            exists wm2', processEvent join kernel2 now2 wm2 e2 = Ret ([], wm2')).
  { intros kernel2 now2 wm2 wm2r e2 d2 f2 ok2 Hr2 Hpath Hl.
    apply (processEvent_deduplicates join kernel2 now2 wm2 wm2r e2 d2 f2 ok2 Hr2).
    rewrite Hpath. exact Hl. }
  split; [exact Hlive|]. split; [exact Hdrop|].
  intros kernel2 now2 wm2r e2 d2 f2 ok2 Hr2 Hpath Hnow.
  apply (Hdrop kernel2 now2 _ wm2r e2 d2 f2 ok2 Hr2 Hpath).
  apply Hlive. exact Hnow.
Qed.

Lemma dedup_by_path_witness :
  exists wm' wm'',
    processEvent sample_join sample_kernel 0 sample_watchman
                 (mkEvent FAN_CREATE false (Some sample_payload))
    = Ret ([mkCall 1%nat "CREATE" "/" "etc" false], wm') /\
    processEvent sample_join sample_kernel 1000000000 wm'
                 (mkEvent FAN_CLOSE_WRITE false (Some sample_payload))
    = Ret ([], wm'').
Proof.
  destruct (resolve sample_kernel 0 sample_watchman sample_payload)
    as [[r wm1]|] eqn:Hr; [|vm_compute in Hr; discriminate Hr].
  assert (Er : r = ("/", "etc", true))
    by (vm_compute in Hr; apply Ret_inj in Hr; congruence).
  subst r.
  destruct (dedup_by_path sample_join sample_kernel 0 sample_watchman wm1
              (mkEvent FAN_CREATE false (Some sample_payload)) "/" "etc")
    as (wm' & H1 & _ & _ & H4).
  - exact Hr.
  - discriminate.
  - discriminate.
  - reflexivity.
  - vm_compute. reflexivity.
  - vm_compute. reflexivity.
  - exists wm'.
    destruct (resolve sample_kernel 1000000000 wm' sample_payload)
      as [[[[d2 f2] ok2] wm2r]|] eqn:Hr2.
    + assert (E2 : d2 = "/" /\ f2 = "etc").
      { vm_compute in H1. apply Ret_inj in H1.
        apply (f_equal snd) in H1. cbn [snd] in H1. subst wm'.
        vm_compute in Hr. apply Ret_inj in Hr.
        apply (f_equal snd) in Hr. cbn [snd] in Hr. subst wm1.
        vm_compute in Hr2. apply Ret_inj in Hr2.
        split; congruence. }
      destruct E2 as [-> ->].
      destruct (H4 sample_kernel 1000000000 wm2r
                  (mkEvent FAN_CLOSE_WRITE false (Some sample_payload))
                  "/" "etc" ok2 Hr2) as [wm'' H].
      * reflexivity.
      * vm_compute. discriminate.
      * exists wm''. split; [exact H1 | exact H].
    + exfalso.
      pose proof (resolve_returns sample_kernel 1000000000 wm' sample_payload).
      congruence.
Defined.

(** C8: [Initialize] issues its three acquisition calls in order: open
    the notification descriptor, register the filesystem mark, open the root
    directory.  When one of them fails no later one is issued, the error
    names the failing step, and the notification descriptor, if it had been
    acquired, has been closed: the process holds the descriptors it held
    before.  When all succeed the pipeline owns both new descriptors. *)
Theorem initialize_unwinds (k : InitAnswers) (setting : Settings) (p : Process) :
  (forall err,
      fanotify_init k = inr err ->
      exists e,
        Initialize k setting p
        = (inr e, {| descriptors := descriptors p;
                     calls := calls p ++ [call_init] |}) /\
        e = Errorf "init" err /\ failing_step e = Some StepInit) /\
  (forall ffd err,
      fanotify_init k = inl ffd -> fanotify_mark k = Some err ->
      exists e,
        Initialize k setting p
        = (inr e, {| descriptors := descriptors p;
                     calls := calls p ++ [call_init; call_mark ffd; Close ffd] |}) /\
        e = Errorf "mark" err /\ failing_step e = Some StepMark) /\
  (forall ffd err,
      fanotify_init k = inl ffd -> fanotify_mark k = None ->
      open_root k = inr err ->
      exists e,
        Initialize k setting p
        = (inr e, {| descriptors := descriptors p;
                     calls := calls p ++ [call_init; call_mark ffd;
                                          call_open_root; Close ffd] |}) /\
        e = Errorf "open root" err /\ failing_step e = Some StepOpenRoot) /\
  (forall ffd' rfd',
      fanotify_init k = inl ffd' -> fanotify_mark k = None ->
      open_root k = inl rfd' ->
      exists wm,
        Initialize k setting p
        = (inl wm, {| descriptors := rfd' :: ffd' :: descriptors p;
                      calls := calls p ++ [call_init; call_mark ffd';
                                           call_open_root] |}) /\
        ffd wm = ffd' /\ rfd wm = rfd' /\
        filter wm = buildFilter (Paths setting)).
Proof.
  unfold Initialize, sys_acquire, sys_call, sys_close.
  repeat split.
  - intros err ->. eexists. split; [reflexivity|]. split; reflexivity.
  - intros ffd err -> ->. cbn [descriptors calls release].
    rewrite Z.eqb_refl, <- !app_assoc.
    eexists. split; [reflexivity|]. split; reflexivity.
  - intros ffd err -> -> ->. cbn [descriptors calls release].
    rewrite Z.eqb_refl, <- !app_assoc.
    eexists. split; [reflexivity|]. split; reflexivity.
  - intros ffd' rfd' -> -> ->. cbn [descriptors calls].
    rewrite <- !app_assoc.
    eexists. split; [reflexivity|]. repeat split; reflexivity.
Qed.

Lemma initialize_unwinds_witness :
  Initialize (mkInitAnswers (inl 3) (Some 1) (inl 4)) sample_settings sample_process
  = (inr (Errorf "mark" 1),
     {| descriptors := [0; 1; 2];
        calls := [call_init; call_mark 3; Close 3] |}) /\
  Initialize (mkInitAnswers (inl 3) None (inr 24)) sample_settings sample_process
  = (inr (Errorf "open root" 24),
     {| descriptors := [0; 1; 2];
        calls := [call_init; call_mark 3; call_open_root; Close 3] |}).
Proof.
  split.
  - destruct (initialize_unwinds (mkInitAnswers (inl 3) (Some 1) (inl 4))
                sample_settings sample_process) as (_ & H & _ & _).
    destruct (H 3 1 eq_refl eq_refl) as (e & He & -> & _). exact He.
  - destruct (initialize_unwinds (mkInitAnswers (inl 3) None (inr 24))
                sample_settings sample_process) as (_ & _ & H & _).
    destruct (H 3 24 eq_refl eq_refl eq_refl) as (e & He & -> & _). exact He.
Defined.
(* ================================================================== *)
(** * Further properties of the watcher                                *)
(* ================================================================== *)

(** ** The listener registry *)

Lemma listenerOf_filter_ne (ls : list (string * Listener)) (identify n : string) :
  n <> identify ->
  listenerOf (List.filter (fun b => negb (String.eqb (fst b) identify)) ls) n
  = listenerOf ls n.
Proof.
  intros Hne. induction ls as [|[name l] ls IH]; [reflexivity|].
  cbn [List.filter fst listenerOf].
  destruct (String.eqb name identify) eqn:E; cbn [negb listenerOf].
  - apply String.eqb_eq in E. subst name.
    replace (String.eqb identify n) with false
      by (symmetry; apply String.eqb_neq; congruence).
    exact IH.
  - rewrite IH. reflexivity.
Qed.

Lemma listenerOf_filter_eq (ls : list (string * Listener)) (identify : string) :
  listenerOf (List.filter (fun b => negb (String.eqb (fst b) identify)) ls)
             identify = None.
Proof.
  induction ls as [|[name l] ls IH]; [reflexivity|].
  cbn [List.filter fst].
  destruct (String.eqb name identify) eqn:E; cbn [negb listenerOf]; [exact IH|].
  rewrite E. exact IH.
Qed.

Lemma NoDup_names_filter (ls : list (string * Listener)) (identify : string) :
  NoDup (map fst ls) ->
  NoDup (map fst (List.filter (fun b => negb (String.eqb (fst b) identify)) ls))
  /\ ~ In identify
       (map fst (List.filter (fun b => negb (String.eqb (fst b) identify)) ls)).
Proof.
  intros Hnd. split.
  - induction ls as [|[name l] ls IH]; [constructor|].
    cbn [map fst] in Hnd. inversion Hnd as [|? ? Hnin Hnd']; subst.
    cbn [List.filter fst].
    destruct (negb (String.eqb name identify)); [|apply IH; exact Hnd'].
    cbn [map fst]. constructor; [|apply IH; exact Hnd'].
    intros Hin. apply Hnin.
    apply in_map_iff in Hin as (b & Hb & Hin).
    apply filter_In in Hin as [Hin _].
    apply in_map_iff. exists b. auto.
  - intros Hin. apply in_map_iff in Hin as ([name l] & Hb & Hin).
    apply filter_In in Hin as [_ Hf]. cbn [fst] in *. subst name.
    rewrite String.eqb_refl in Hf. discriminate Hf.
Qed.

(** X1: the listener registry is a map from names to callbacks.  Starting
    from distinct names, [AddListener] and [RemoveListener] keep the names
    distinct; after [AddListener] the name is bound to the new callback and
    after [RemoveListener] it is unbound, and in both cases every other name
    keeps its binding. *)
Theorem listener_registry_is_a_map (wm : Watchman) (identify : string)
    (listener : Listener) :
  NoDup (map fst (listeners wm)) ->
  (NoDup (map fst (listeners (AddListener wm identify listener))) /\
   listenerOf (listeners (AddListener wm identify listener)) identify
   = Some listener /\
   forall n, n <> identify ->
     listenerOf (listeners (AddListener wm identify listener)) n
     = listenerOf (listeners wm) n) /\
  (NoDup (map fst (listeners (RemoveListener wm identify))) /\
   listenerOf (listeners (RemoveListener wm identify)) identify = None /\
   forall n, n <> identify ->
     listenerOf (listeners (RemoveListener wm identify)) n
     = listenerOf (listeners wm) n).
Proof.
  intros Hnd.
  destruct (NoDup_names_filter (listeners wm) identify Hnd) as [Hnd' Hnin].
  unfold AddListener, RemoveListener. cbn [listeners set_listeners].
  split; [split; [|split] | split; [|split]].
  - cbn [map fst]. constructor; assumption.
  - cbn [listenerOf]. rewrite String.eqb_refl. reflexivity.
  - intros n Hne. cbn [listenerOf].
    replace (String.eqb identify n) with false
      by (symmetry; apply String.eqb_neq; congruence).
    apply listenerOf_filter_ne. exact Hne.
  - exact Hnd'.
  - apply listenerOf_filter_eq.
  - intros n Hne. apply listenerOf_filter_ne. exact Hne.
Qed.

Lemma listener_registry_is_a_map_witness :
  listenerOf (listeners (AddListener sample_watchman "logging" 2%nat)) "logging"
  = Some 2%nat /\
  listenerOf (listeners (RemoveListener sample_watchman "logging")) "logging"
  = None.
Proof.
  destruct (listener_registry_is_a_map sample_watchman "logging" 2%nat)
    as [(_ & H1 & _) (_ & H2 & _)].
  - vm_compute. repeat constructor. intros [].
  - split; assumption.
Defined.

(** ** What one step of [processEvents] can do *)

Section ProcessMore.

Variable join : string -> string -> string.
Variable kernel : Kernel.
Variable now : Z.

(** X2: one step of the process loop never panics, and it is all or
    nothing: either no listener is called, or the event is a file event
    with a non-empty directory and file name whose joined path the filter
    matches and the path cache did not hold, and then every registered
    listener is called once, with the same arguments
    (the kind from [maskToString], [isDir] false), and the path is in the
    path cache afterwards, live for one TTL. *)
Theorem processEvent_all_or_nothing (wm : Watchman) (event : Event) :
  exists calls wm',
    processEvent join kernel now wm event = Ret (calls, wm') /\
    (calls = [] \/
     exists directory filename,
       directory <> "" /\ filename <> "" /\ IsDir event = false /\
       matched (filter wm) (join directory filename) = true /\
       fst (lru.Get (fpcManager wm) now (join directory filename)) = None /\
       calls = map (fun b : string * Listener =>
                      mkCall (snd b) (maskToString (Mask event))
                             directory filename false) (listeners wm) /\
       forall t, t <= now + lru.ttl (fpcManager wm) ->
                 lru.live (fpcManager wm') t (join directory filename)).
Proof.
  destruct (resolve_in_range kernel now wm (handleBytesOf event))
    as [[[directory filename] ok] wm1] eqn:Hr.
  assert (Hres : resolve kernel now wm (handleBytesOf event)
                 = Ret ((directory, filename, ok), wm1))
    by (rewrite resolve_returns, Hr; reflexivity).
  destruct (resolve_frame _ _ _ _ _ _ Hres) as (_ & Hfpc & Hfilter & Hls).
  destruct ok;
    [|exists [], wm1; split; [|left; reflexivity];
      unfold processEvent; rewrite Hres; reflexivity].
  destruct (String.eqb directory "") eqn:Ed;
    [exists [], wm1; split; [|left; reflexivity];
     unfold processEvent; rewrite Hres; cbn [bind negb orb]; rewrite Ed;
     reflexivity|].
  destruct (String.eqb filename "") eqn:Ef;
    [exists [], wm1; split; [|left; reflexivity];
     unfold processEvent; rewrite Hres; cbn [bind negb orb]; rewrite Ed, Ef;
     reflexivity|].
  destruct (IsDir event) eqn:Edir;
    [exists [], wm1; split; [|left; reflexivity];
     unfold processEvent; rewrite Hres; cbn [bind negb orb];
     rewrite Ed, Ef, Edir; reflexivity|].
  destruct (matched (filter wm) (join directory filename)) eqn:Em.
  2:{ exists [], wm1. split; [|left; reflexivity].
      unfold processEvent. rewrite Hres. cbn [bind negb orb].
      rewrite Ed, Ef, Edir. cbn [orb]. rewrite Hfilter.
      unfold matched in Em.
      destruct (radix.LongestPrefix (filter wm) (join directory filename));
        [discriminate Em | reflexivity]. }
  destruct (fst (lru.Get (fpcManager wm) now (join directory filename)))
    as [v|] eqn:Eg.
  - destruct (lru.Get (fpcManager wm) now (join directory filename))
      as [hit c] eqn:Eget. cbn [fst] in Eg. subst hit.
    exists [], (set_fpcManager wm1 c). split; [|left; reflexivity].
    unfold processEvent. rewrite Hres. cbn [bind negb orb].
    rewrite Ed, Ef, Edir. cbn [orb]. rewrite Hfilter.
    unfold matched in Em.
    destruct (radix.LongestPrefix (filter wm) (join directory filename));
      [|discriminate Em].
    rewrite Hfpc, Eget. reflexivity.
  - apply String.eqb_neq in Ed, Ef.
    eexists _, _. split.
    + apply (processEvent_delivers join kernel now wm wm1 event
               directory filename Hres Ed Ef Edir Em Eg).
    + right. exists directory, filename.
      repeat (split; [assumption || reflexivity|]).
      intros t Ht. cbn [fpcManager set_fpcManager]. apply Add_live. exact Ht.
Qed.

(** X3: a directory event, and an event whose path the filter does not
    match, reach no listener and leave the path cache as it was: they
    cannot suppress a later file event on the same path. *)
Theorem dropped_before_dedup (wm wm1 : Watchman) (event : Event)
    (directory filename : string) (ok : bool) :
  resolve kernel now wm (handleBytesOf event)
  = Ret ((directory, filename, ok), wm1) ->
  IsDir event = true \/ matched (filter wm) (join directory filename) = false ->
  processEvent join kernel now wm event = Ret ([], wm1) /\
  fpcManager wm1 = fpcManager wm.
Proof.
  intros Hres Hdrop.
  destruct (resolve_frame _ _ _ _ _ _ Hres) as (_ & Hfpc & Hfilter & _).
  split; [|exact Hfpc].
  unfold processEvent. rewrite Hres. cbn [bind].
  destruct (negb ok || ((directory =? "")%string || (filename =? "")%string));
    [reflexivity|].
  destruct (IsDir event) eqn:Edir; [reflexivity|].
  destruct Hdrop as [H | H]; [discriminate H|].
  rewrite Hfilter. unfold matched in H.
  destruct (radix.LongestPrefix (filter wm) (join directory filename));
    [discriminate H | reflexivity].
Qed.

(** The file name [resolve] returns is empty unless the info record is a
    DFID_NAME record. *)
Lemma resolve_in_range_other_info (wm : Watchman) (data : list byte) :
  byteZ (nth 0 data Byte.x00) <> FAN_EVENT_INFO_TYPE_DFID_NAME ->
  snd (fst (fst (resolve_in_range kernel now wm data))) = "".
Proof.
  intros Hty. apply Z.eqb_neq in Hty.
  unfold resolve_in_range. cbv zeta. rewrite Hty. cbn [andb].
  destruct (len data <? EventInfoFidLen); [reflexivity|].
  destruct (len _ <? FileHandleLen); [reflexivity|].
  destruct (_ - FileHandleLen <? _); [reflexivity|].
  destruct (lru.Get (fdcManager wm) now _) as [hit fdc].
  destruct hit as [basePath|];
    [|destruct (OpenByHandleAt kernel _ _ _) as [fd|];
      [destruct (Readlink kernel fd) as [basePath|]|]];
    reflexivity.
Qed.

(** X4: only DFID_NAME info records lead to listener calls: for an event
    whose info record has any other type (or whose payload is empty),
    [resolve] gives an empty file name and the step calls no listener. *)
Theorem other_info_types_not_delivered (wm : Watchman) (event : Event) :
  byteZ (nth 0 (handleBytesOf event) Byte.x00) <> FAN_EVENT_INFO_TYPE_DFID_NAME ->
  exists directory ok wm',
    resolve kernel now wm (handleBytesOf event)
    = Ret ((directory, "", ok), wm') /\
    processEvent join kernel now wm event = Ret ([], wm').
Proof.
  intros Hty.
  pose proof (resolve_in_range_other_info wm (handleBytesOf event) Hty) as Hn.
  destruct (resolve_in_range kernel now wm (handleBytesOf event))
    as [[[directory filename] ok] wm1] eqn:Hr.
  cbn [fst snd] in Hn. subst filename.
  exists directory, ok, wm1.
  assert (Hres : resolve kernel now wm (handleBytesOf event)
                 = Ret ((directory, "", ok), wm1))
    by (rewrite resolve_returns, Hr; reflexivity).
  split; [exact Hres|].
  unfold processEvent. rewrite Hres. cbn [bind].
  rewrite orb_true_r. cbn [String.eqb]. rewrite orb_true_r. reflexivity.
Qed.

End ProcessMore.

Lemma dropped_before_dedup_witness :
  exists wm1,
    processEvent sample_join sample_kernel 0 sample_watchman
      (mkEvent (Z.lor FAN_CREATE FAN_ONDIR) true (Some sample_payload))
    = Ret ([], wm1) /\
    fpcManager wm1 = fpcManager sample_watchman.
Proof.
  destruct (resolve sample_kernel 0 sample_watchman sample_payload)
    as [[[[d f] ok] wm1]|] eqn:Hr; [|vm_compute in Hr; discriminate Hr].
  exists wm1.
  apply (dropped_before_dedup sample_join sample_kernel 0 sample_watchman wm1
           (mkEvent (Z.lor FAN_CREATE FAN_ONDIR) true (Some sample_payload))
           d f ok).
  - exact Hr.
  - left. reflexivity.
Defined.

Lemma other_info_types_not_delivered_witness :
  exists directory ok wm',
    resolve sample_kernel 0 sample_watchman
            (Byte.x01 :: List.tl sample_payload)
    = Ret ((directory, "", ok), wm') /\
    processEvent sample_join sample_kernel 0 sample_watchman
      (mkEvent FAN_CREATE false (Some (Byte.x01 :: List.tl sample_payload)))
    = Ret ([], wm').
Proof.
  apply (other_info_types_not_delivered sample_join sample_kernel 0
           sample_watchman
           (mkEvent FAN_CREATE false (Some (Byte.x01 :: List.tl sample_payload)))).
  vm_compute. discriminate.
Defined.


(** ** The handle cache *)

Lemma Get_after_Add (c : lru.LRU) (now1 now2 : Z) (key value : string) :
  fst (lru.Get (lru.Add c now1 key value) now2 key)
  = if now1 + lru.ttl c <? now2 then None else Some value.
Proof.
  unfold lru.Get. rewrite Add_items. cbn [lru.ExpiresAt lru.Value].
  destruct (now1 + lru.ttl c <? now2); reflexivity.
Qed.

Lemma Add_ttl (c : lru.LRU) (now : Z) (key value : string) :
  lru.ttl (lru.Add c now key value) = lru.ttl c.
Proof.
  unfold lru.Add. destruct (lru.items (lru.evictList c) key); reflexivity.
Qed.

(** [resolve] on a DFID_NAME payload with a child name, in terms of the
    handle cache and the kernel's answers. *)
Lemma resolve_dfid_name_eq (kernel : Kernel) (now : Z) (wm : Watchman)
    (fid hdr body name pad : list byte) (handleType : Z) :
  dfid_name fid hdr body name handleType ->
  name <> [] ->
  resolve kernel now wm (fid ++ hdr ++ body ++ name ++ Byte.x00 :: pad)
  = Ret (let cacheKey := EncodeToString body in
         let (hit, fdc) := lru.Get (fdcManager wm) now cacheKey in
         let wm0 := set_fdcManager wm fdc in
         match
           match hit with
           | Some basePath => Some (basePath, wm0)
           | None =>
               match OpenByHandleAt kernel (rfd wm) handleType body with
               | None => None
               | Some fd =>
                   match Readlink kernel fd with
                   | None => None
                   | Some basePath =>
                       Some (basePath,
                             set_fdcManager wm0 (lru.Add fdc now cacheKey basePath))
                   end
               end
           end
         with
         | None => (("", "", false), wm0)
         | Some (basePath, w) =>
             if String.eqb basePath ""
             then ((basePath, "", true), w)
             else ((basePath, string_of_list_byte name, true), w)
         end).
Proof.
  intros Hlay Hname.
  pose proof (dfid_name_fields fid hdr body name pad handleType Hlay)
    as (Hlen & Hty & Hhd & Hhb & Hht & Hraw & Hrest).
  cbv zeta in *.
  pose proof (len_nonneg body). pose proof (len_nonneg name).
  pose proof (len_nonneg pad).
  assert (Hhdlen : len (hdr ++ body ++ name ++ Byte.x00 :: pad)
                   = FileHandleLen + len body + len name + 1 + len pad).
  { rewrite <- Hhd, len_skipn, Hlen. unfold EventInfoFidLen, FileHandleLen. lia. }
  rewrite resolve_returns. unfold resolve_in_range. cbv zeta.
  rewrite Hty, Hhd in *. rewrite Hhdlen, Hlen, Hhb, Hht, Hraw, Hrest.
  replace (_ <? EventInfoFidLen) with false
    by (symmetry; apply Z.ltb_ge; unfold EventInfoFidLen, FileHandleLen; lia).
  replace (_ <? FileHandleLen) with false
    by (symmetry; apply Z.ltb_ge; unfold FileHandleLen; lia).
  replace (_ - FileHandleLen <? len body) with false
    by (symmetry; apply Z.ltb_ge; lia).
  replace (FileHandleLen + len body <? _) with true
    by (symmetry; apply Z.ltb_lt; lia).
  rewrite Z.eqb_refl. cbn [andb].
  rewrite (IndexByte_name name pad) by (destruct Hlay; assumption).
  replace (0 <=? len name) with true by (symmetry; apply Z.leb_le; lia).
  rewrite (firstn_len_app name) by reflexivity.
  assert (Ename : (string_of_list_byte name =? "")%string = false).
  { apply String.eqb_neq. intros E. apply Hname.
    apply string_of_list_byte_empty. exact E. }
  rewrite Ename. cbn [negb andb rfd set_fdcManager fdcManager].
  f_equal.
  destruct (lru.Get (fdcManager wm) now (EncodeToString body)) as [hit fdc].
  assert (Hfin : forall (p : string) (w : Watchman),
             (if negb (p =? "")%string
              then if (p =? "/")%string
                   then (("/", string_of_list_byte name, true), w)
                   else ((p, string_of_list_byte name, true), w)
              else ((p, "", true), w))
             = (if (p =? "")%string
                then ((p, "", true), w)
                else ((p, string_of_list_byte name, true), w))).
  { intros p w. destruct (p =? "")%string; cbn [negb]; [reflexivity|].
    destruct (p =? "/")%string eqn:E; [|reflexivity].
    apply String.eqb_eq in E. subst p. reflexivity. }
  destruct hit as [p|]; [apply Hfin|].
  destruct (OpenByHandleAt kernel (rfd wm) handleType body) as [fd|];
    [|reflexivity].
  destruct (Readlink kernel fd) as [p|]; [apply Hfin | reflexivity].
Qed.

(** X5: the handle cache.  When a DFID_NAME payload is resolved through
    the kernel (the handle cache has no live entry for its handle), the
    directory is cached under the handle: until the TTL has passed, the same
    payload resolves to the same directory and file name whatever the
    kernel would answer by then; once the TTL has passed the kernel is asked
    again, and if it fails the event fails to resolve. *)
Theorem handle_cache_reuse (kernel1 : Kernel) (now1 : Z) (wm : Watchman)
    (fid hdr body name pad : list byte) (handleType fd : Z)
    (basePath : string) :
  dfid_name fid hdr body name handleType ->
  name <> [] ->
  basePath <> "" ->
  fst (lru.Get (fdcManager wm) now1 (EncodeToString body)) = None ->
  OpenByHandleAt kernel1 (rfd wm) handleType body = Some fd ->
  Readlink kernel1 fd = Some basePath ->
  let data := fid ++ hdr ++ body ++ name ++ Byte.x00 :: pad in
  let N := string_of_list_byte name in
  exists wm1,
    resolve kernel1 now1 wm data = Ret ((basePath, N, true), wm1) /\
    (forall kernel2 now2,
        now2 <= now1 + lru.ttl (fdcManager wm) ->
        exists wm2, resolve kernel2 now2 wm1 data
                    = Ret ((basePath, N, true), wm2)) /\
    (forall kernel2 now2,
        now1 + lru.ttl (fdcManager wm) < now2 ->
        OpenByHandleAt kernel2 (rfd wm) handleType body = None ->
        resolve kernel2 now2 wm1 data = Ret (("", "", false), wm1)).
Proof.
  intros Hlay Hname Hne Hmiss Hopen Hread data N.
  apply String.eqb_neq in Hne.
  set (c := fdcManager wm) in *.
  set (key := EncodeToString body) in *.
  exists (set_fdcManager (set_fdcManager wm c) (lru.Add c now1 key basePath)).
  split; [|split].
  - subst data N. rewrite (resolve_dfid_name_eq _ _ _ _ _ _ _ _ _ Hlay Hname).
    cbv zeta. fold c key. rewrite (Get_miss _ _ _ Hmiss).
    rewrite Hopen, Hread, Hne. reflexivity.
  - intros kernel2 now2 Hnow.
    subst data N. rewrite (resolve_dfid_name_eq _ _ _ _ _ _ _ _ _ Hlay Hname).
    cbv zeta. cbn [fdcManager set_fdcManager]. fold key.
    pose proof (Get_after_Add c now1 now2 key basePath) as Hg.
    replace (now1 + lru.ttl c <? now2) with false in Hg
      by (symmetry; apply Z.ltb_ge; lia).
    destruct (lru.Get (lru.Add c now1 key basePath) now2 key) as [hit fdc2].
    cbn [fst] in Hg. subst hit. rewrite Hne. eexists. reflexivity.
  - intros kernel2 now2 Hnow Hfail.
    subst data N. rewrite (resolve_dfid_name_eq _ _ _ _ _ _ _ _ _ Hlay Hname).
    cbv zeta. cbn [fdcManager set_fdcManager rfd]. fold key.
    pose proof (Get_after_Add c now1 now2 key basePath) as Hg.
    replace (now1 + lru.ttl c <? now2) with true in Hg
      by (symmetry; apply Z.ltb_lt; lia).
    rewrite (Get_miss _ _ _ Hg), Hfail. reflexivity.
Qed.

Lemma handle_cache_reuse_witness :
  exists wm1 wm2,
    resolve sample_kernel 0 sample_watchman sample_payload
    = Ret (("/", "etc", true), wm1) /\
    resolve (mkKernel (fun _ _ _ => None) (fun _ => None)) 1000000000 wm1
            sample_payload
    = Ret (("/", "etc", true), wm2).
Proof.
  destruct (handle_cache_reuse sample_kernel 0 sample_watchman
              sample_fid sample_hdr sample_body sample_name [] 1 7 "/")
    as (wm1 & H1 & H2 & _).
  - constructor; vm_compute; try reflexivity.
    intros [E|[E|[E|[]]]]; discriminate E.
  - discriminate.
  - discriminate.
  - vm_compute. reflexivity.
  - reflexivity.
  - reflexivity.
  - destruct (H2 (mkKernel (fun _ _ _ => None) (fun _ => None)) 1000000000)
      as [wm2 H3].
    + vm_compute. discriminate.
    + exists wm1, wm2. split; [exact H1 | exact H3].
Defined.

(** ** More on the record parser *)

Lemma parseBuffer_skip (ctx : nat -> bool) (rec rest : list byte) :
  EventMetadataLen <= len rec ->
  parseRecord (rec ++ rest) = Ret (Skip (len rec)) ->
  parseBuffer ctx (rec ++ rest) = parseBuffer ctx rest.
Proof.
  intros Hlen Hskip. unfold parseBuffer.
  pose proof (len_nonneg rest) as Hnn.
  destruct (List.length (rec ++ rest)) as [|fuel] eqn:Ef.
  { rewrite length_app in Ef. unfold len, EventMetadataLen in Hlen. lia. }
  cbn [parseLoop].
  replace (len (rec ++ rest) <? EventMetadataLen)
    with false by (symmetry; apply Z.ltb_ge; rewrite len_app; lia).
  rewrite Hskip, slice_from_app.
  apply parseLoop_fuel; [|lia].
  rewrite length_app in Ef. unfold len, EventMetadataLen in Hlen. lia.
Qed.

(** X6: version gating.  A record whose metadata version is not the
    kernel constant sends no event and does not disturb the parse of what
    follows: the buffer is parsed as if it began after that record. *)
Theorem other_version_skipped (ctx : nat -> bool) (rec rest : list byte) :
  other_version_record rec ->
  parseBuffer ctx (rec ++ rest) = parseBuffer ctx rest.
Proof.
  intros (Hlen & Hel & Hv).
  apply parseBuffer_skip; [exact Hlen|].
  pose proof (len_nonneg rest) as Hrest.
  rewrite parseRecord_fields by (rewrite len_app; lia).
  rewrite field_event_len_app, field_vers_app by assumption.
  rewrite Hel. cbv zeta.
  replace (len (rec ++ rest) <? len rec) with false
    by (symmetry; apply Z.ltb_ge; rewrite len_app; lia).
  replace (len rec =? 0) with false
    by (symmetry; apply Z.eqb_neq; unfold EventMetadataLen in Hlen; lia).
  apply Z.eqb_neq in Hv. rewrite Hv. reflexivity.
Qed.

Lemma other_version_skipped_witness :
  parseBuffer background ((List.firstn 4 sample_bare ++ Byte.x02
                           :: List.skipn 5 sample_bare) ++ sample_create)
  = ([event_of sample_create], Stopped []).
Proof.
  rewrite (other_version_skipped background
             (List.firstn 4 sample_bare ++ Byte.x02 :: List.skipn 5 sample_bare)
             sample_create).
  - vm_compute. reflexivity.
  - repeat split; vm_compute; congruence.
Defined.

(** What an emitted event is made of. *)
Lemma parseRecord_Emit (data : list byte) (e : Event) (n : Z) :
  EventMetadataLen <= len data ->
  parseRecord data = Ret (Emit e n) ->
  n = field_event_len data /\
  EventMetadataLen <= n <= len data /\
  field_vers data = FANOTIFY_METADATA_VERSION /\
  Z.land (field_mask data) FAN_Q_OVERFLOW = 0 /\
  e = {| Mask := field_mask data;
         IsDir := negb (Z.land (field_mask data) FAN_ONDIR =? 0);
         Handle :=
           let eventData :=
             firstn (Z.to_nat (n - EventMetadataLen))
                    (skipn (Z.to_nat EventMetadataLen) data) in
           if EventInfoFidLen + FileHandleLen <=? len eventData
           then Some eventData else None |}.
Proof.
  intros Hlen. rewrite parseRecord_fields by assumption. cbv zeta.
  destruct ((len data <? field_event_len data) || (field_event_len data =? 0))
    eqn:E1; [discriminate|].
  apply orb_false_elim in E1 as [E1 E2].
  apply Z.ltb_ge in E1. apply Z.eqb_neq in E2.
  destruct (field_vers data =? FANOTIFY_METADATA_VERSION) eqn:Ev;
    cbn [negb]; [|discriminate].
  destruct (Z.land (field_mask data) FAN_Q_OVERFLOW =? 0) eqn:Em;
    cbn [negb]; [|discriminate].
  apply Z.eqb_eq in Ev, Em.
  unfold slice.
  destruct ((0 <=? EventMetadataLen)
            && (EventMetadataLen <=? field_event_len data)
            && (field_event_len data <=? len data)) eqn:Es;
    cbn [bind]; [|discriminate].
  apply andb_prop in Es as [Es _]. apply andb_prop in Es as [_ Es].
  apply Z.leb_le in Es.
  intros H. apply Ret_inj in H. injection H as He Hn. subst n.
  repeat split; try assumption. symmetry. exact He.
Qed.

(** X7: where the parser can panic.  With a whole metadata header in the
    buffer, the loop body panics exactly when the record passes the length,
    version and overflow tests and yet declares fewer bytes than the
    metadata header, which makes the slice [data[EventMetadataLen:eventLen]]
    run backwards. *)
Theorem parseRecord_panics_iff (data : list byte) :
  EventMetadataLen <= len data ->
  (parseRecord data = Panic <->
   0 < field_event_len data < EventMetadataLen /\
   field_vers data = FANOTIFY_METADATA_VERSION /\
   Z.land (field_mask data) FAN_Q_OVERFLOW = 0).
Proof.
  intros Hlen. rewrite parseRecord_fields by assumption. cbv zeta.
  assert (Hnn : 0 <= field_event_len data).
  { unfold field_event_len. destruct (Uint32 data) as [n|] eqn:E; [|lia].
    eapply Uint32_nonneg; eassumption. }
  destruct (len data <? field_event_len data) eqn:E1.
  { apply Z.ltb_lt in E1. cbn [orb]. split; [discriminate | lia]. }
  apply Z.ltb_ge in E1. cbn [orb].
  destruct (field_event_len data =? 0) eqn:E2.
  { apply Z.eqb_eq in E2. split; [discriminate | lia]. }
  apply Z.eqb_neq in E2.
  destruct (field_vers data =? FANOTIFY_METADATA_VERSION) eqn:Ev; cbn [negb].
  2:{ apply Z.eqb_neq in Ev. split; [discriminate | tauto]. }
  apply Z.eqb_eq in Ev.
  destruct (Z.land (field_mask data) FAN_Q_OVERFLOW =? 0) eqn:Em; cbn [negb].
  2:{ apply Z.eqb_neq in Em. split; [discriminate | tauto]. }
  apply Z.eqb_eq in Em.
  unfold slice.
  replace (0 <=? EventMetadataLen) with true by reflexivity.
  replace (field_event_len data <=? len data) with true
    by (symmetry; apply Z.leb_le; exact E1).
  rewrite andb_true_r. cbn [andb].
  destruct (EventMetadataLen <=? field_event_len data) eqn:Es; cbn [bind].
  - apply Z.leb_le in Es. split; [discriminate | lia].
  - apply Z.leb_gt in Es. split; [intros _; repeat split; (lia || assumption)|].
    reflexivity.
Qed.

Lemma parseRecord_panics_iff_witness :
  parseRecord (short_record ++ sample_bare) = Panic.
Proof.
  apply (parseRecord_panics_iff (short_record ++ sample_bare)).
  - vm_compute. congruence.
  - repeat split; vm_compute; congruence.
Defined.


(** While the event channel is open, the loop with the three-way [select]
    is the loop of the parse theorems. *)
Lemma parseLoopSel_open (ctx : nat -> bool) :
  forall fuel k data,
    parseLoopSel (select_open ctx) fuel k data = parseLoop ctx fuel k data.
Proof.
  induction fuel as [|fuel IH]; intros k data;
    cbn [parseLoopSel parseLoop]; [reflexivity|].
  destruct (len data <? EventMetadataLen); [reflexivity|].
  destruct (parseRecord data) as [[|n|e n]|]; try reflexivity.
  - destruct (slice_from data n); [apply IH | reflexivity].
  - unfold select_open at 1. destruct (ctx k); [reflexivity|].
    destruct (slice_from data n); [rewrite IH|]; reflexivity.
Qed.




(** X9: whatever bytes the buffer holds, every event the parse sends is
    sound: its [IsDir] flag is the FAN_ONDIR bit of its mask, the overflow
    bit of its mask is clear, and its handle is nil or at least 20 bytes
    long, so [resolve] can read both headers. *)
Theorem parse_emits_sound_events (ctx : nat -> bool) (data : list byte) :
  Forall event_ok (fst (parseBuffer ctx data)).
Proof.
  unfold parseBuffer. generalize 0%nat as k. generalize (List.length data) as fuel.
  intros fuel. revert data.
  induction fuel as [|fuel IH]; intros d k; cbn [parseLoop].
  - destruct (len d <? EventMetadataLen); constructor.
  - destruct (len d <? EventMetadataLen) eqn:Eg; [constructor|].
    apply Z.ltb_ge in Eg.
    destruct (parseRecord d) as [[|n|e n]|] eqn:Ep; try constructor.
    + destruct (slice_from d n); [apply IH | constructor].
    + assert (Hok : event_ok e).
      { destruct (parseRecord_Emit d e n Eg Ep) as (_ & _ & _ & Hm & He).
        subst e. unfold event_ok. cbn [Mask IsDir Handle].
        split; [reflexivity|]. split; [exact Hm|].
        cbv zeta.
        destruct (EventInfoFidLen + FileHandleLen <=? len _) eqn:E;
          [apply Z.leb_le in E; exact E | exact I]. }
      destruct (ctx k); [constructor|].
      destruct (slice_from d n) as [d'|];
        [|cbn [fst]; constructor; [exact Hok | constructor]].
      specialize (IH d' (S k)).
      destruct (parseLoop ctx fuel (S k) d') as [evs r].
      cbn [fst] in *. constructor; [exact Hok | exact IH].
Qed.

(** X10: cancellation only cuts the parse short: the events sent before
    the context is found done are an initial segment of the events the same
    buffer yields when the context is never done. *)
Theorem cancelled_parse_is_prefix (ctx : nat -> bool) (data : list byte) :
  exists rest,
    fst (parseBuffer background data) = fst (parseBuffer ctx data) ++ rest.
Proof.
  unfold parseBuffer.
  assert (forall fuel k k' d,
             exists rest,
               fst (parseLoop background fuel k' d)
               = fst (parseLoop ctx fuel k d) ++ rest) as H.
  { induction fuel as [|fuel IH]; intros k k' d; cbn [parseLoop].
    - destruct (len d <? EventMetadataLen); exists []; reflexivity.
    - destruct (len d <? EventMetadataLen); [exists []; reflexivity|].
      destruct (parseRecord d) as [[|n|e n]|]; try (exists []; reflexivity).
      + destruct (slice_from d n) as [d'|]; [apply IH | exists []; reflexivity].
      + unfold background at 1.
        destruct (slice_from d n) as [d'|].
        * destruct (IH (S k) (S k') d') as [rest Hrest].
          destruct (parseLoop background fuel (S k') d') as [evs1 r1].
          destruct (ctx k); [exists (e :: evs1); reflexivity|].
          destruct (parseLoop ctx fuel (S k) d') as [evs2 r2].
          cbn [fst] in *. exists rest. rewrite Hrest. reflexivity.
        * destruct (ctx k); [exists [e] | exists []]; reflexivity. }
  apply H.
Qed.

(** ** The read loop *)

Lemma parseLoop_ctx_ext (ctx ctx' : nat -> bool) :
  (forall k, ctx k = ctx' k) ->
  forall fuel k data, parseLoop ctx fuel k data = parseLoop ctx' fuel k data.
Proof.
  intros Hext. induction fuel as [|fuel IH]; intros k data; cbn [parseLoop];
    [reflexivity|].
  destruct (len data <? EventMetadataLen); [reflexivity|].
  destruct (parseRecord data) as [[|n|e n]|]; try reflexivity.
  - destruct (slice_from data n); [apply IH | reflexivity].
  - rewrite Hext. destruct (ctx' k); [reflexivity|].
    destruct (slice_from data n); [rewrite IH|]; reflexivity.
Qed.

(** X11: the capture worker across reads.  While the context is not done,
    read errors other than EBADF and EINTR are retried and lose nothing:
    every well-formed record of every buffer read yields its event, in the
    order read.  The first EBADF or EINTR makes the worker return, and
    nothing that a later read would deliver is looked at. *)
Theorem capture_across_reads (done : nat -> bool) (sending : nat -> nat -> bool)
    (script : list (Errno + list (list byte))) (fatal : Errno)
    (later : list read_result) :
  (forall i, done i = false) ->
  (forall i k, sending i k = false) ->
  Forall passable script ->
  fatal = EBADF \/ fatal = EINTR ->
  forall i,
    captureEvents done sending i (map read_of script ++ ReadErr fatal :: later)
    = (map event_of (List.concat (map records_of script)), Returned).
Proof.
  intros Hdone Hsend Hpass Hfatal.
  induction script as [|s script IH]; intros i;
    cbn [map app List.concat captureEvents]; rewrite Hdone.
  - replace ((fatal =? EBADF) || (fatal =? EINTR)) with true; [reflexivity|].
    destruct Hfatal as [-> | ->]; reflexivity.
  - inversion Hpass as [|? ? Hs Hrest]; subst.
    destruct s as [err | recs]; cbn [read_of records_of app].
    + destruct Hs as [H1 H2].
      apply Z.eqb_neq in H1, H2. rewrite H1, H2. cbn [orb].
      apply IH. exact Hrest.
    + cbn [passable] in Hs.
      assert (Hp : parseBuffer (sending i) (List.concat recs)
                   = (map event_of recs, Stopped [])).
      { unfold parseBuffer.
        pose proof (parseLoop_records (sending i) [] (Hsend i) truncated_nil
                      recs (List.length (List.concat recs)) 0%nat Hs) as H.
        rewrite app_nil_r in H. apply H. lia. }
      rewrite Hp, (IH Hrest (S i)), map_app. reflexivity.
Qed.

Lemma capture_across_reads_witness :
  captureEvents background (fun _ => background) 0
    (map read_of [inr [sample_create]; inl 11; inr [sample_bare; sample_create]]
     ++ ReadErr EBADF :: [ReadN sample_create])
  = (map event_of [sample_create; sample_bare; sample_create], Returned).
Proof.
  apply (capture_across_reads background (fun _ => background)
           [inr [sample_create]; inl 11; inr [sample_bare; sample_create]]
           EBADF [ReadN sample_create]).
  - reflexivity.
  - reflexivity.
  - repeat constructor; vm_compute; congruence.
  - left. reflexivity.
Defined.

(** ** [Stop] and the plugins *)

Lemma release_head (fd : Z) (fds : list Z) : release fd (fd :: fds) = fds.
Proof. cbn [release]. rewrite Z.eqb_refl. reflexivity. Qed.

Lemma release_two (a b : Z) (fds : list Z) :
  release b (release a (b :: a :: fds)) = fds.
Proof.
  cbn [release]. destruct (b =? a) eqn:E.
  - apply Z.eqb_eq in E. subst b. apply release_head.
  - rewrite Z.eqb_refl. apply release_head.
Qed.

(** X12: shutdown.  On a pipeline that has not been stopped, [Stop] does
    not panic: it closes the notification descriptor, then the event
    channel, then the root descriptor, marks both descriptors as -1 and
    closes every registered plugin in registration order.  A second [Stop]
    changes nothing and issues no system call.  After a successful
    [Initialize], [Stop] leaves the process with exactly the descriptors it
    held before [Initialize]. *)
Theorem stop_closes_once (pl : Pipeline) (p : Process) :
  stopOnce pl = false ->
  eventChanClosed pl = false ->
  exists pl' p',
    Stop pl p = Ret (pl', p') /\
    calls p' = calls p ++ [Close (ffd (watchman pl)); Close (rfd (watchman pl))] /\
    descriptors p'
    = release (rfd (watchman pl)) (release (ffd (watchman pl)) (descriptors p)) /\
    ffd (watchman pl') = -1 /\ rfd (watchman pl') = -1 /\
    eventChanClosed pl' = true /\
    pluginLog pl'
    = pluginLog pl ++ map (fun q => PluginClose (plugin_name q)) (plugins pl) /\
    Stop pl' p' = Ret (pl', p') /\
    (forall k setting p0 wm,
        Initialize k setting p0 = (inl wm, p) ->
        watchman pl = wm ->
        descriptors p' = descriptors p0).
Proof.
  intros Honce Hchan. unfold Stop. rewrite Honce, Hchan.
  eexists _, _. split; [reflexivity|].
  cbn [calls descriptors sys_close watchman ffd rfd set_fds eventChanClosed
       pluginLog stopOnce].
  split; [rewrite <- app_assoc; reflexivity|].
  repeat (split; [reflexivity|]).
  intros k setting p0 wm Hinit Hwm. rewrite Hwm.
  unfold Initialize, sys_acquire, sys_call, sys_close in Hinit.
  destruct (fanotify_init k) as [ffd0|e]; [|discriminate Hinit].
  destruct (fanotify_mark k) as [e|]; [discriminate Hinit|].
  destruct (open_root k) as [rfd0|e]; [|discriminate Hinit].
  injection Hinit as Hw Hp. subst wm p.
  cbn [ffd rfd descriptors]. apply release_two.
Qed.

Lemma stop_closes_once_witness :
  exists wm p1 pl' p',
    Initialize (mkInitAnswers (inl 3) None (inl 4)) sample_settings sample_process
    = (inl wm, p1) /\
    Stop (newPipeline wm) p1 = Ret (pl', p') /\
    descriptors p' = descriptors sample_process /\
    Stop pl' p' = Ret (pl', p').
Proof.
  destruct (Initialize (mkInitAnswers (inl 3) None (inl 4))
              sample_settings sample_process) as [[wm|e] p1] eqn:Hi;
    [|vm_compute in Hi; discriminate Hi].
  destruct (stop_closes_once (newPipeline wm) p1 eq_refl eq_refl)
    as (pl' & p' & H1 & _ & _ & _ & _ & _ & _ & H8 & H9).
  exists wm, p1, pl', p'.
  split; [reflexivity|]. split; [exact H1|]. split; [|exact H8].
  apply (H9 _ _ _ _ Hi). reflexivity.
Defined.

(** A registration leaves the stop state alone and keeps names distinct. *)
Lemma loadOne_keeps (file : loader.plugin_file) (pl : Pipeline) :
  let pl' := snd (loader.loadOne file pl) in
  stopOnce pl' = stopOnce pl /\ eventChanClosed pl' = eventChanClosed pl /\
  plugins pl'
  = plugins pl ++ match loader.loadable file with Some q => [q] | None => [] end /\
  (fst (loader.loadOne file pl) = None <-> loader.loadable file <> None).
Proof.
  destruct file as [| | | |name init_fails handle]; cbn;
    try (repeat split; try (symmetry; apply app_nil_r); congruence).
  destruct init_fails, (String.eqb name ""); cbn;
    repeat split; try (symmetry; apply app_nil_r); congruence.
Qed.

Lemma fold_loadOne_plugins (entries : list (string * loader.plugin_file)) :
  forall pl,
    plugins (fold_left (fun pl entry => snd (loader.loadOne (snd entry) pl))
                       entries pl)
    = plugins pl ++ loader.loadables entries.
Proof.
  induction entries as [|[path file] entries IH]; intros pl;
    cbn [fold_left loader.loadables snd].
  - symmetry. apply app_nil_r.
  - rewrite IH.
    destruct (loadOne_keeps file pl) as (_ & _ & Hp & _). cbv zeta in Hp.
    rewrite Hp. destruct (loader.loadable file); rewrite <- app_assoc; reflexivity.
Qed.

(** X13: the plugin loader.  With an empty plugin directory nothing is
    globbed or loaded.  Otherwise a failure to list the directory is the
    only error [Load] returns: a file that cannot be opened, lacks the
    symbol, holds no handler, has an empty name or fails its [Init] is
    passed over, and the plugins of the pipeline grow by exactly the
    handlers with a non-empty name whose [Init] succeeded, in glob order. *)
Theorem loader_skips_bad_plugins (dir : string)
    (glob : option (list (string * loader.plugin_file))) (pl : Pipeline) :
  (dir = "" -> loader.Load dir glob pl = (None, pl)) /\
  (dir <> "" -> glob = None -> loader.Load dir glob pl = (Some loader.ErrDirList, pl)) /\
  (forall entries,
      dir <> "" -> glob = Some entries ->
      exists pl',
        loader.Load dir glob pl = (None, pl') /\
        plugins pl' = plugins pl ++ loader.loadables entries).
Proof.
  unfold loader.Load. split; [|split].
  - intros ->. reflexivity.
  - intros Hd ->. apply String.eqb_neq in Hd. rewrite Hd. reflexivity.
  - intros entries Hd ->. apply String.eqb_neq in Hd. rewrite Hd.
    eexists. split; [reflexivity|]. apply fold_loadOne_plugins.
Qed.

Lemma loader_skips_bad_plugins_witness :
  exists pl',
    loader.Load "plugins"
      (Some [("plugins/a.so", loader.OpenFails);
             ("plugins/b.so", loader.HandlerOf "kafka" false 5%nat);
             ("plugins/c.so", loader.HandlerOf "" false 6%nat);
             ("plugins/d.so", loader.HandlerOf "mail" true 7%nat)])
      (newPipeline sample_watchman)
    = (None, pl') /\
    plugins pl' = [mkPlugin "kafka" 5%nat].
Proof.
  destruct (loader_skips_bad_plugins "plugins"
              (Some [("plugins/a.so", loader.OpenFails);
                     ("plugins/b.so", loader.HandlerOf "kafka" false 5%nat);
                     ("plugins/c.so", loader.HandlerOf "" false 6%nat);
                     ("plugins/d.so", loader.HandlerOf "mail" true 7%nat)])
              (newPipeline sample_watchman)) as (_ & _ & H).
  destruct (H _ ltac:(discriminate) eq_refl) as (pl' & H1 & H2).
  exists pl'. split; [exact H1 | exact H2].
Defined.

(** ** Settings *)

Lemma checkPaths_None (paths : list string) :
  forall seen,
    settings.checkPaths seen paths = None <->
    ~ In "" paths /\ NoDup paths /\ (forall p, In p paths -> ~ In p seen).
Proof.
  induction paths as [|p paths IH]; intros seen; cbn [settings.checkPaths].
  - split; [intros _|reflexivity].
    split; [intros []|]. split; [constructor | intros p []].
  - destruct (String.eqb p "") eqn:E.
    + apply String.eqb_eq in E. subst p.
      split; [discriminate|]. intros [H _]. exfalso. apply H. left. reflexivity.
    + apply String.eqb_neq in E.
      destruct (existsb (String.eqb p) seen) eqn:Ex.
      * apply existsb_exists in Ex. destruct Ex as (x & Hx & Hpx).
        apply String.eqb_eq in Hpx. subst x.
        split; [discriminate|]. intros (_ & _ & H). exfalso.
        apply (H p); [left; reflexivity | exact Hx].
      * rewrite IH. cbn [In].
        assert (Hns : ~ In p seen).
        { intros Hin.
          assert (existsb (String.eqb p) seen = true) as Ht.
          { apply existsb_exists. exists p. split; [exact Hin|].
            apply String.eqb_refl. }
          congruence. }
        split.
        -- intros (H1 & H2 & H3). split; [|split].
           ++ intros [H|H]; [congruence | contradiction].
           ++ constructor; [|exact H2].
              intros Hin. apply (H3 p Hin). left. reflexivity.
           ++ intros q [<-|Hq]; [exact Hns|].
              intros Hin. apply (H3 q Hq). right. exact Hin.
        -- intros (H1 & H2 & H3). inversion H2 as [|? ? Hnin Hnd]; subst.
           split; [tauto|]. split; [exact Hnd|].
           intros q Hq [<-|Hin]; [contradiction|].
           apply (H3 q); [right; exact Hq | exact Hin].
Qed.

(** The conditions on the paths that [Validate] checks. *)
Lemma checkPaths_ok (paths : list string) :
  (len paths =? 0) = false /\ settings.checkPaths [] paths = None <->
  paths <> [] /\ ~ In "" paths /\ NoDup paths.
Proof.
  rewrite checkPaths_None. split.
  - intros (H0 & H1 & H2 & _). split; [|tauto].
    intros ->. discriminate H0.
  - intros (H0 & H1 & H2). split; [|split; [exact H1 | split; [exact H2|]]].
    + destruct paths; [congruence | reflexivity].
    + intros p _ [].
Qed.

Lemma Validate_None (s : Settings) :
  settings.Validate s = None <->
  Paths s <> [] /\ ~ In "" (Paths s) /\ NoDup (Paths s) /\
  4 <= BufferSize s <= 1024 /\
  1 <= FdSize s /\ 1 <= FdTtl s <= 86400 /\
  1 <= FpSize s /\ 1 <= FpTtl s <= 86400.
Proof.
  pose proof (checkPaths_ok (Paths s)) as Hp.
  unfold settings.Validate, settings.minBufferKB, settings.maxBufferKB,
    settings.minCacheSize, settings.minCacheTtlSec, settings.maxCacheTtlSec.
  destruct (len (Paths s) =? 0).
  { split; [discriminate|]. intros (H1 & H2 & H3 & _).
    assert (true = false /\ settings.checkPaths [] (Paths s) = None) as [F _]
      by (apply Hp; tauto).
    discriminate F. }
  destruct (settings.checkPaths [] (Paths s)) as [e|].
  { split; [discriminate|]. intros (H1 & H2 & H3 & _).
    assert (false = false /\ Some e = None) as [_ F] by (apply Hp; tauto).
    discriminate F. }
  assert (Hpaths : Paths s <> [] /\ ~ In "" (Paths s) /\ NoDup (Paths s))
    by (apply Hp; split; reflexivity).
  destruct (BufferSize s <? 4) eqn:E1; cbn [orb];
    [apply Z.ltb_lt in E1; split; [discriminate | lia] | apply Z.ltb_ge in E1].
  destruct (1024 <? BufferSize s) eqn:E2;
    [apply Z.ltb_lt in E2; split; [discriminate | lia] | apply Z.ltb_ge in E2].
  destruct (FdSize s <? 1) eqn:E3;
    [apply Z.ltb_lt in E3; split; [discriminate | lia] | apply Z.ltb_ge in E3].
  destruct (FdTtl s <? 1) eqn:E4; cbn [orb];
    [apply Z.ltb_lt in E4; split; [discriminate | lia] | apply Z.ltb_ge in E4].
  destruct (86400 <? FdTtl s) eqn:E5;
    [apply Z.ltb_lt in E5; split; [discriminate | lia] | apply Z.ltb_ge in E5].
  destruct (FpSize s <? 1) eqn:E6;
    [apply Z.ltb_lt in E6; split; [discriminate | lia] | apply Z.ltb_ge in E6].
  destruct (FpTtl s <? 1) eqn:E7; cbn [orb];
    [apply Z.ltb_lt in E7; split; [discriminate | lia] | apply Z.ltb_ge in E7].
  destruct (86400 <? FpTtl s) eqn:E8;
    [apply Z.ltb_lt in E8; split; [discriminate | lia] | apply Z.ltb_ge in E8].
  split; [intros _|reflexivity].
  destruct Hpaths as (P1 & P2 & P3). repeat split; try assumption; lia.
Qed.

(** X14: what [Validate] accepts.  A configuration passes exactly when
    there is at least one watched path, no path is empty, no path occurs
    twice, the buffer size is between 4 and 1024, both cache sizes are at
    least 1 and both TTLs are between 1 and 86400. *)
Theorem validate_accepts_iff (s : Settings) :
  settings.Validate s = None <->
  Paths s <> [] /\ ~ In "" (Paths s) /\ NoDup (Paths s) /\
  4 <= BufferSize s <= 1024 /\
  1 <= FdSize s /\ 1 <= FdTtl s <= 86400 /\
  1 <= FpSize s /\ 1 <= FpTtl s <= 86400.
Proof. exact (Validate_None s). Qed.

(** X15: what [Load] accepts.  A configuration file loads exactly when it
    can be read and unmarshalled and, after cleaning and trimming, its
    paths are non-empty, distinct and at least one; the buffer size is at
    most 1024 and not one of 1, 2, 3; and no TTL exceeds 86400.  Values
    that are zero or negative are never rejected: they are replaced by the
    defaults 64, 4096, 300, 5000 and 5, and cache sizes are never rejected
    at all. *)
Theorem load_accepts_iff (Clean : string -> string)
    (file : option (option Settings)) (s' : Settings) :
  settings.Load Clean file = inl s' <->
  exists s,
    file = Some (Some s) /\
    s' = settings.normalizePaths Clean (settings.applyDefaults s) /\
    Paths s <> [] /\ ~ In "" (Paths s') /\ NoDup (Paths s') /\
    BufferSize s <= 1024 /\ (BufferSize s <= 0 \/ 4 <= BufferSize s) /\
    FdTtl s <= 86400 /\ FpTtl s <= 86400 /\
    BufferSize s' = (if BufferSize s <=? 0 then 64 else BufferSize s) /\
    FdSize s' = (if FdSize s <=? 0 then 4096 else FdSize s) /\
    FdTtl s' = (if FdTtl s <=? 0 then 300 else FdTtl s) /\
    FpSize s' = (if FpSize s <=? 0 then 5000 else FpSize s) /\
    FpTtl s' = (if FpTtl s <=? 0 then 5 else FpTtl s).
Proof.
  unfold settings.Load.
  destruct file as [[s|]|];
    [| split; [discriminate | intros (s & H & _); discriminate H]
     | split; [discriminate | intros (s & H & _); discriminate H]].
  cbv zeta.
  pose proof (Validate_None
                (settings.normalizePaths Clean (settings.applyDefaults s))) as Hv.
  assert (Hnil : Paths (settings.normalizePaths Clean (settings.applyDefaults s))
                 <> [] <-> Paths s <> []).
  { cbn [settings.normalizePaths settings.applyDefaults Paths].
    destruct (Paths s); cbn [map]; split; congruence. }
  cbn [settings.normalizePaths settings.applyDefaults BufferSize FdSize FdTtl
       FpSize FpTtl] in Hv.
  unfold settings.defaultBufferKB, settings.defaultFdSize, settings.defaultFdTtl,
    settings.defaultFpSize, settings.defaultFpTtl in Hv.
  split.
  - destruct (settings.Validate _) as [e|]; [discriminate|].
    intros H. injection H as <-. exists s.
    split; [reflexivity|]. split; [reflexivity|].
    destruct Hv as [Hv _]. specialize (Hv eq_refl).
    destruct Hv as (V1 & V2 & V3 & V4 & V5 & V6 & V7 & V8).
    split; [apply Hnil; exact V1|]. split; [exact V2|]. split; [exact V3|].
    cbn [settings.normalizePaths settings.applyDefaults BufferSize FdSize FdTtl
         FpSize FpTtl].
    unfold settings.defaultBufferKB, settings.defaultFdSize,
      settings.defaultFdTtl, settings.defaultFpSize, settings.defaultFpTtl.
    destruct (BufferSize s <=? 0) eqn:B; [apply Z.leb_le in B | apply Z.leb_gt in B];
    destruct (FdTtl s <=? 0) eqn:D; [apply Z.leb_le in D | apply Z.leb_gt in D
                                    |apply Z.leb_le in D | apply Z.leb_gt in D];
    destruct (FpTtl s <=? 0) eqn:P;
      try apply Z.leb_le in P; try apply Z.leb_gt in P;
    repeat split; try reflexivity; lia.
  - intros (s0 & Hf & -> & P1 & P2 & P3 & B1 & B2 & D1 & F1 & _).
    injection Hf as <-.
    destruct Hv as [_ Hv].
    rewrite Hv; [reflexivity|].
    split; [apply Hnil; exact P1|]. split; [exact P2|]. split; [exact P3|].
    destruct (BufferSize s <=? 0) eqn:B; [apply Z.leb_le in B | apply Z.leb_gt in B];
    destruct (FdSize s <=? 0) eqn:S1;
      try apply Z.leb_le in S1; try apply Z.leb_gt in S1;
    destruct (FdTtl s <=? 0) eqn:D;
      try apply Z.leb_le in D; try apply Z.leb_gt in D;
    destruct (FpSize s <=? 0) eqn:S2;
      try apply Z.leb_le in S2; try apply Z.leb_gt in S2;
    destruct (FpTtl s <=? 0) eqn:P;
      try apply Z.leb_le in P; try apply Z.leb_gt in P;
    lia.
Qed.

(** X16: a loaded configuration fits [Initialize].  With settings that
    [Load] returned, [Initialize] takes none of its fallbacks: the buffer
    size is the configured one and the read buffer has between 4 KiB and
    1 MiB, each cache has the configured size and a TTL of the configured
    number of seconds, and the conversion of the TTLs to nanoseconds stays
    within an [int64]. *)
Theorem loaded_settings_fit (Clean : string -> string)
    (file : option (option Settings)) (s : Settings)
    (k : InitAnswers) (p p' : Process) (wm : Watchman) :
  settings.Load Clean file = inl s ->
  Initialize k s p = (inl wm, p') ->
  eventBufferSize wm = BufferSize s /\
  4096 <= eventBufferSize wm * 1024 <= 1048576 /\
  lru.size (fdcManager wm) = FdSize s /\
  lru.ttl (fdcManager wm) = FdTtl s * time_Second /\
  lru.size (fpcManager wm) = FpSize s /\
  lru.ttl (fpcManager wm) = FpTtl s * time_Second /\
  0 < lru.ttl (fdcManager wm) <= maxInt64 /\
  0 < lru.ttl (fpcManager wm) <= maxInt64.
Proof.
  intros Hload Hinit.
  assert (Hv : settings.Validate s = None).
  { unfold settings.Load in Hload.
    destruct file as [[s0|]|]; try discriminate Hload.
    cbv zeta in Hload.
    destruct (settings.Validate _) eqn:E; [discriminate Hload|].
    injection Hload as <-. exact E. }
  apply Validate_None in Hv.
  destruct Hv as (_ & _ & _ & V4 & V5 & V6 & V7 & V8).
  unfold Initialize, sys_acquire, sys_call, sys_close in Hinit.
  destruct (fanotify_init k) as [ffd0|e]; [|discriminate Hinit].
  destruct (fanotify_mark k) as [e|]; [discriminate Hinit|].
  destruct (open_root k) as [rfd0|e]; [|discriminate Hinit].
  injection Hinit as Hw Hp. subst wm.
  cbn [eventBufferSize fdcManager fpcManager].
  unfold lru.NewLRU, time_Second, maxInt64. cbn [lru.size lru.ttl].
  replace (BufferSize s <=? 0) with false by (symmetry; apply Z.leb_gt; lia).
  replace (FdSize s <? 0) with false by (symmetry; apply Z.ltb_ge; lia).
  replace (FpSize s <? 0) with false by (symmetry; apply Z.ltb_ge; lia).
  replace (FdTtl s * 1000000000 <=? 0) with false
    by (symmetry; apply Z.leb_gt; lia).
  replace (FpTtl s * 1000000000 <=? 0) with false
    by (symmetry; apply Z.leb_gt; lia).
  repeat split; try reflexivity; lia.
Qed.

Lemma loaded_settings_fit_witness :
  exists wm p',
    settings.Load (fun p => p) (Some (Some sample_settings)) = inl sample_settings /\
    Initialize (mkInitAnswers (inl 3) None (inl 4)) sample_settings sample_process
    = (inl wm, p') /\
    eventBufferSize wm = 64 /\
    lru.ttl (fpcManager wm) = 5 * time_Second.
Proof.
  destruct (Initialize (mkInitAnswers (inl 3) None (inl 4))
              sample_settings sample_process) as [[wm|e] p'] eqn:Hi;
    [|vm_compute in Hi; discriminate Hi].
  exists wm, p'.
  assert (Hl : settings.Load (fun p => p) (Some (Some sample_settings))
               = inl sample_settings) by reflexivity.
  destruct (loaded_settings_fit (fun p => p) (Some (Some sample_settings))
              sample_settings _ _ _ _ Hl Hi)
    as (H1 & _ & _ & _ & _ & H6 & _).
  split; [exact Hl|]. split; [reflexivity|]. split; [exact H1 | exact H6].
Defined.

(** ** [normalizePaths] *)

Lemma str_last (s : string) (n : nat) :
  String.length s = S n ->
  s = str_to n s +:+ String (radix.byteAt s n) "".
Proof.
  revert s. induction n as [|n IH]; intros [|c s] H; try discriminate H.
  - destruct s; [reflexivity | discriminate H].
  - cbn in H. injection H as H. cbn [str_to append].
    change (radix.byteAt (String c s) (S n)) with (radix.byteAt s n).
    rewrite <- (IH s H). reflexivity.
Qed.

Lemma slashes_snoc (n : nat) : String "/" (slashes n) = slashes n +:+ "/".
Proof. induction n as [|n IH]; cbn; [reflexivity | rewrite <- IH; reflexivity]. Qed.

(** What the trimming loop returns: the input without a run of trailing
    slashes, and nothing more to trim. *)
Lemma trimLoop_spec (fuel : nat) :
  forall p, (String.length p <= fuel)%nat ->
    exists k,
      p = settings.trimLoop fuel p +:+ slashes k /\
      ((String.length (settings.trimLoop fuel p) <= 1)%nat \/
       ends_with_slash (settings.trimLoop fuel p) = false) /\
      (p <> "" -> settings.trimLoop fuel p <> "").
Proof.
  induction fuel as [|fuel IH]; intros p Hlen.
  - exists 0%nat. cbn [settings.trimLoop slashes]. rewrite append_nil_r.
    split; [reflexivity|]. split; [left; lia | auto].
  - cbn [settings.trimLoop]. unfold slen.
    destruct (1 <? Z.of_nat (String.length p)) eqn:E1; cbn [andb].
    + apply Z.ltb_lt in E1.
      destruct (String.length p) as [|n] eqn:Hn; [cbn in E1; lia|].
      replace (Z.to_nat (Z.of_nat (S n) - 1)) with n by lia.
      destruct (Ascii.eqb (radix.byteAt p n) "/") eqn:E2.
      * apply Ascii.eqb_eq in E2.
        pose proof (str_last p n Hn) as Hp. rewrite E2 in Hp.
        assert (Hl : String.length (str_to n p) = n)
          by (apply str_to_length; lia).
        destruct (IH (str_to n p)) as (k & K1 & K2 & K3); [lia|].
        exists (S k). split; [|split; [exact K2|]].
        -- rewrite Hp at 1. rewrite K1 at 1. rewrite append_assoc.
           f_equal. cbn [slashes]. symmetry. apply slashes_snoc.
        -- intros _. apply K3. intros H0. rewrite H0 in Hl. cbn in Hl. lia.
      * exists 0%nat. cbn [slashes]. rewrite append_nil_r.
        split; [reflexivity|]. split; [|auto].
        right. unfold ends_with_slash. rewrite Hn. exact E2.
    + apply Z.ltb_ge in E1. exists 0%nat. cbn [slashes]. rewrite append_nil_r.
      split; [reflexivity|]. split; [left; lia | auto].
Qed.

(** X17: [normalizePaths] keeps the number and order of the paths and
    replaces each by its cleaned form without trailing slashes: the cleaned
    path is the result followed by slashes only, the result does not end in
    a slash unless it is the single byte ["/"], and it is empty only when
    the cleaned path is. *)
Theorem normalizePaths_trims (Clean : string -> string) (s : Settings)
    (i : nat) (p : string) :
  nth_error (Paths s) i = Some p ->
  exists r k,
    nth_error (Paths (settings.normalizePaths Clean s)) i = Some r /\
    Clean p = r +:+ slashes k /\
    (r = "/" \/ ends_with_slash r = false) /\
    (r = "" <-> Clean p = "").
Proof.
  intros Hnth. cbn [settings.normalizePaths Paths].
  exists (settings.trimSlashes (Clean p)).
  destruct (trimLoop_spec (String.length (Clean p)) (Clean p) (le_n _))
    as (k & K1 & K2 & K3).
  fold (settings.trimSlashes (Clean p)) in K1, K2, K3.
  exists k.
  split; [exact (map_nth_error (fun q => settings.trimSlashes (Clean q)) i _ Hnth)|].
  split; [exact K1|]. split.
  - destruct K2 as [K2|K2]; [|right; exact K2].
    destruct (settings.trimSlashes (Clean p)) as [|c [|c' r]] eqn:E.
    + right. reflexivity.
    + unfold ends_with_slash. cbn.
      destruct (Ascii.eqb c "/") eqn:Ec; [|right; reflexivity].
      apply Ascii.eqb_eq in Ec. left. subst c. reflexivity.
    + cbn in K2. lia.
  - split.
    + intros Hr. destruct (string_dec (Clean p) "") as [H|H]; [exact H|].
      exfalso. exact (K3 H Hr).
    + intros Hc. rewrite Hc. reflexivity.
Qed.

Lemma normalizePaths_trims_witness :
  exists r k,
    nth_error (Paths (settings.normalizePaths (fun p => p)
                        (mkSettings "" ["/etc"; "/srv///"; "//"] 64 1 1 1 1)))
              1 = Some r /\
    "/srv///" = r +:+ slashes k /\
    (r = "/" \/ ends_with_slash r = false) /\
    (r = "" <-> "/srv///" = "").
Proof.
  apply (normalizePaths_trims (fun p => p)
           (mkSettings "" ["/etc"; "/srv///"; "//"] 64 1 1 1 1) 1 "/srv///").
  reflexivity.
Defined.

(** ** Decimal numerals and [ParseUint] *)

Lemma digit_code (d : Z) :
  0 <= d < 10 -> Z.of_N (N_of_ascii (ascii_of_N (Z.to_N (48 + d)))) = 48 + d.
Proof.
  intros H. rewrite N_ascii_embedding by lia. lia.
Qed.

(** The digits [decimal_loop] puts before [acc] denote [u]. *)
Lemma decimal_loop_value (fuel : nat) :
  forall u, 0 <= u < 10 ^ Z.of_nat fuel ->
    exists n, 0 <= n /\
      forall v acc,
        dec_acc v (decimal_loop fuel u acc) = dec_acc (v * 10 ^ n + u) acc.
Proof.
  induction fuel as [|fuel IH]; intros u Hu.
  - exists 0. split; [lia|]. intros v acc. cbn [decimal_loop].
    change (10 ^ Z.of_nat 0) with 1 in Hu. f_equal. lia.
  - cbn [decimal_loop]. rewrite Nat2Z.inj_succ, Z.pow_succ_r in Hu by lia.
    destruct (10 <=? u) eqn:E.
    + apply Z.leb_le in E.
      destruct (IH (u / 10)) as (n & Hn & Hval).
      { split; [apply Z.div_pos; lia|]. apply Z.div_lt_upper_bound; lia. }
      exists (n + 1). split; [lia|]. intros v acc.
      rewrite Hval. cbn [dec_acc].
      pose proof (Z.mod_pos_bound u 10 ltac:(lia)) as Hm.
      rewrite digit_code by lia.
      replace ((48 <=? 48 + u mod 10) && (48 + u mod 10 <=? 57)) with true
        by (symmetry; apply andb_true_intro; split; apply Z.leb_le; lia).
      f_equal. rewrite Z.pow_add_r by lia.
      pose proof (Z.div_mod u 10 ltac:(lia)). lia.
    + apply Z.leb_gt in E. exists 1. split; [lia|]. intros v acc.
      cbn [dec_acc]. rewrite digit_code by lia.
      replace ((48 <=? 48 + u) && (48 + u <=? 57)) with true
        by (symmetry; apply andb_true_intro; split; apply Z.leb_le; lia).
      f_equal. lia.
Qed.

Lemma decimal_value (u : Z) :
  0 <= u <= maxUint64 -> dec_acc 0 (decimal u) = Some u.
Proof.
  intros H. unfold decimal.
  destruct (decimal_loop_value 20 u) as (n & _ & Hval).
  { unfold maxUint64 in H. change (10 ^ Z.of_nat 20) with 100000000000000000000.
    change (2 ^ 64) with 18446744073709551616 in H. lia. }
  rewrite Hval. reflexivity.
Qed.

Lemma decimal_loop_nonempty (fuel : nat) :
  forall u c acc, decimal_loop fuel u (String c acc) <> "".
Proof.
  induction fuel as [|fuel IH]; intros u c acc; cbn [decimal_loop].
  - discriminate.
  - destruct (10 <=? u); [apply IH | discriminate].
Qed.

Lemma decimal_loop_S_nonempty (fuel : nat) (u : Z) (acc : string) :
  decimal_loop (S fuel) u acc <> "".
Proof.
  change (decimal_loop (S fuel) u acc)
    with (if 10 <=? u
          then decimal_loop fuel (u / 10)
                 (String (ascii_of_N (Z.to_N (48 + u mod 10))) acc)
          else String (ascii_of_N (Z.to_N (48 + u))) acc).
  destruct (10 <=? u); [apply decimal_loop_nonempty | discriminate].
Qed.

Lemma decimal_nonempty (u : Z) : decimal u <> "".
Proof. unfold decimal. apply decimal_loop_S_nonempty. Qed.

Lemma dec_acc_mono (s : string) :
  forall v w, 0 <= v -> dec_acc v s = Some w -> v <= w.
Proof.
  induction s as [|c s IH]; intros v w Hv H; cbn [dec_acc] in H.
  - injection H as <-. lia.
  - destruct ((48 <=? Z.of_N (N_of_ascii c)) && (Z.of_N (N_of_ascii c) <=? 57))
      eqn:E; [|discriminate H].
    apply andb_prop in E. destruct E as [E1 E2].
    apply Z.leb_le in E1, E2.
    apply IH in H; lia.
Qed.

(** On digits that denote a [uint64], the loop of [ParseUint] passes both
    overflow tests at every step. *)
Lemma parseUintLoop_digits (s : string) :
  forall v w, 0 <= v -> dec_acc v s = Some w -> w <= maxUint64 ->
    parseUintLoop s v = inl w.
Proof.
  induction s as [|c s IH]; intros v w Hv H Hw;
    cbn [dec_acc parseUintLoop] in *.
  - injection H as <-. reflexivity.
  - destruct ((48 <=? Z.of_N (N_of_ascii c)) && (Z.of_N (N_of_ascii c) <=? 57))
      eqn:E; [|discriminate H].
    apply andb_prop in E. destruct E as [E1 E2].
    apply Z.leb_le in E1, E2.
    assert (Hm : 10 * v + (Z.of_N (N_of_ascii c) - 48) <= w)
      by (apply (dec_acc_mono s); [lia | exact H]).
    unfold maxUint64 in *. change (2 ^ 64) with 18446744073709551616 in *.
    change ((18446744073709551616 - 1) / 10 + 1) with 1844674407370955162.
    replace (1844674407370955162 <=? v) with false
      by (symmetry; apply Z.leb_gt; lia).
    rewrite (Z.mod_small (v * 10)) by lia.
    rewrite (Z.mod_small (v * 10 + _)) by lia.
    replace (v * 10 + (Z.of_N (N_of_ascii c) - 48) <? v * 10) with false
      by (symmetry; apply Z.ltb_ge; lia).
    replace (18446744073709551616 - 1 <? v * 10 + (Z.of_N (N_of_ascii c) - 48))
      with false by (symmetry; apply Z.ltb_ge; lia).
    cbn [orb]. apply IH; [lia | | lia].
    rewrite <- H. f_equal. lia.
Qed.

Lemma ParseUint_decimal (u : Z) :
  0 <= u <= maxUint64 -> ParseUint (decimal u) = inl u.
Proof.
  intros H. unfold ParseUint.
  destruct (String.eqb (decimal u) "") eqn:E.
  - apply String.eqb_eq in E. exfalso. exact (decimal_nonempty u E).
  - apply parseUintLoop_digits with (v := 0); [lia | | lia].
    apply decimal_value. exact H.
Qed.

Lemma parseUintLoop_range (s : string) :
  forall n w, 0 <= n <= maxUint64 -> parseUintLoop s n = inl w ->
    0 <= w <= maxUint64.
Proof.
  induction s as [|c s IH]; intros n w Hn H; cbn [parseUintLoop] in H.
  - injection H as <-. exact Hn.
  - cbv zeta in H.
    destruct ((48 <=? Z.of_N (N_of_ascii c)) && (Z.of_N (N_of_ascii c) <=? 57));
      [|discriminate H].
    destruct (maxUint64 / 10 + 1 <=? n); [discriminate H|].
    destruct (_ || _) eqn:E; [discriminate H|].
    apply orb_false_elim in E. destruct E as [_ E]. apply Z.ltb_ge in E.
    apply IH in H; [exact H|]. split; [|exact E].
    apply Z.mod_pos_bound. reflexivity.
Qed.

Lemma ParseUint_range (s : string) (w : Z) :
  ParseUint s = inl w -> 0 <= w <= maxUint64.
Proof.
  unfold ParseUint. destruct (String.eqb s ""); [discriminate|].
  apply parseUintLoop_range. unfold maxUint64. cbn. lia.
Qed.

(** ** [Index] and [SplitN] on a one-byte separator *)

Lemma slen_nonneg (s : string) : 0 <= slen s.
Proof. unfold slen. lia. Qed.

Lemma slen_String (c : ascii) (s : string) : slen (String c s) = slen s + 1.
Proof. unfold slen. cbn [String.length]. lia. Qed.

Lemma Index_sep (c : ascii) (a r : string) :
  Index a (String c "") = -1 ->
  Index (a +:+ String c r) (String c "") = slen a.
Proof.
  induction a as [|x a IH]; intros H.
  - cbn [append Index HasPrefix]. rewrite Ascii.eqb_refl. reflexivity.
  - cbn [append Index HasPrefix] in *.
    destruct (Ascii.eqb x c); cbn [andb] in *; [discriminate H|].
    destruct (Index a (String c "") <? 0) eqn:E.
    + assert (Ha : Index a (String c "") = -1).
      { clear -E. apply Z.ltb_lt in E.
        destruct a as [|y a]; cbn [Index HasPrefix] in *; [reflexivity|].
        destruct (Ascii.eqb y c); cbn [andb] in *; [lia|].
        destruct (Index a (String c "") <? 0) eqn:E'; [reflexivity|].
        apply Z.ltb_ge in E'. lia. }
      rewrite (IH Ha), slen_String.
      pose proof (slen_nonneg a).
      replace (slen a <? 0) with false by (symmetry; apply Z.ltb_ge; lia).
      reflexivity.
    + apply Z.ltb_ge in E. lia.
Qed.

Lemma Index_digits (a : string) (v w : Z) :
  dec_acc v a = Some w -> Index a "." = -1.
Proof.
  revert v. induction a as [|c a IH]; intros v H; cbn [dec_acc] in H.
  - reflexivity.
  - destruct ((48 <=? Z.of_N (N_of_ascii c)) && (Z.of_N (N_of_ascii c) <=? 57))
      eqn:E; [|discriminate H].
    cbn [Index HasPrefix].
    destruct (Ascii.eqb c ".") eqn:Ec.
    + apply Ascii.eqb_eq in Ec. subst c. discriminate E.
    + cbn [andb]. rewrite (IH _ H). reflexivity.
Qed.

Lemma splitLoop_cut (n : nat) (a r : string) :
  Index a "." = -1 ->
  splitLoop (S n) (a +:+ String "." r) "." = a :: splitLoop n r ".".
Proof.
  intros H. cbn [splitLoop]. rewrite (Index_sep "." a r H).
  pose proof (slen_nonneg a).
  replace (slen a <? 0) with false by (symmetry; apply Z.ltb_ge; lia).
  unfold slen. rewrite Nat2Z.id, str_to_append. f_equal. f_equal.
  change (Z.of_nat (String.length ".")) with 1.
  replace (Z.to_nat (Z.of_nat (String.length a) + 1))
    with (String.length (a +:+ ".")).
  - replace (a +:+ String "." r) with ((a +:+ ".") +:+ r)
      by (rewrite append_assoc; reflexivity).
    apply str_from_append.
  - clear. induction a as [|c a IH]; cbn [append String.length]; lia.
Qed.

Lemma splitLoop_last (n : nat) (r : string) :
  Index r "." = -1 -> splitLoop n r "." = [r].
Proof.
  intros H. destruct n; cbn [splitLoop]; [reflexivity|].
  rewrite H. reflexivity.
Qed.

Lemma slen_append (a b : string) : slen (a +:+ b) = slen a + slen b.
Proof.
  unfold slen. induction a as [|c a IH]; cbn [append String.length]; lia.
Qed.

(** ** The release string *)

Lemma list_byte_of_string_append (a b : string) :
  list_byte_of_string (a +:+ b) = list_byte_of_string a ++ list_byte_of_string b.
Proof.
  induction a as [|c a IH]; [reflexivity|].
  change (list_byte_of_string (String c a +:+ b))
    with (byte_of_ascii c :: list_byte_of_string (a +:+ b)).
  rewrite IH. reflexivity.
Qed.

Lemma digits_no_nul (a : string) (v w : Z) :
  dec_acc v a = Some w -> ~ In Byte.x00 (list_byte_of_string a).
Proof.
  revert v. induction a as [|c a IH]; intros v H; cbn [dec_acc] in H.
  - intros [].
  - destruct ((48 <=? Z.of_N (N_of_ascii c)) && (Z.of_N (N_of_ascii c) <=? 57))
      eqn:E; [|discriminate H].
    change (list_byte_of_string (String c a))
      with (byte_of_ascii c :: list_byte_of_string a).
    intros [Hc | Hin]; [|exact (IH _ H Hin)].
    assert (c = ascii_of_byte Byte.x00)
      by (rewrite <- Hc, ascii_of_byte_of_ascii; reflexivity).
    subst c. discriminate E.
Qed.

(** Reading the release back from the array. *)
Lemma release_read (version : string) (pad : list byte) :
  ~ In Byte.x00 (list_byte_of_string version) ->
  let Release := list_byte_of_string version ++ Byte.x00 :: pad in
  IndexByte Release Byte.x00 = len (list_byte_of_string version) /\
  slice_to Release (IndexByte Release Byte.x00)
  = Ret (list_byte_of_string version).
Proof.
  intros Hnul Release. subst Release.
  rewrite (IndexByte_name _ pad Hnul). split; [reflexivity|].
  unfold slice_to.
  pose proof (len_nonneg (list_byte_of_string version)).
  rewrite slice_app_l by lia. rewrite slice_ok by lia.
  rewrite Z.sub_0_r. unfold len. rewrite Nat2Z.id.
  cbn [Z.to_nat skipn]. rewrite firstn_all. reflexivity.
Qed.

(** X18: reading the kernel version.  When the release array holds the
    decimal numerals of [major] and [minor] and any rest, separated by
    dots and ended by a NUL byte, [KernelVersion] returns [major] and
    [minor], whatever follows the NUL and whatever the rest is. *)
Theorem kernel_version_round_trip (major minor : Z) (rest : string)
    (pad : list byte) :
  0 <= major <= maxUint64 ->
  0 <= minor <= maxUint64 ->
  ~ In Byte.x00 (list_byte_of_string rest) ->
  linux.KernelVersion
    (inl (list_byte_of_string
            (decimal major +:+ "." +:+ decimal minor +:+ "." +:+ rest)
          ++ Byte.x00 :: pad))
  = Ret (inl (major, minor)).
Proof.
  intros Hmaj Hmin Hrest.
  pose proof (decimal_value major Hmaj) as Dmaj.
  pose proof (decimal_value minor Hmin) as Dmin.
  set (version := decimal major +:+ "." +:+ decimal minor +:+ "." +:+ rest).
  assert (Hnul : ~ In Byte.x00 (list_byte_of_string version)).
  { subst version. rewrite !list_byte_of_string_append, !in_app_iff.
    intros [H | [H | [H | [H | H]]]].
    - exact (digits_no_nul _ _ _ Dmaj H).
    - destruct H as [H|[]]. discriminate H.
    - exact (digits_no_nul _ _ _ Dmin H).
    - destruct H as [H|[]]. discriminate H.
    - exact (Hrest H). }
  destruct (release_read version pad Hnul) as [Hi Hs]. cbv zeta in Hi, Hs.
  unfold linux.KernelVersion. rewrite Hs. rewrite Hi.
  pose proof (len_nonneg (list_byte_of_string version)).
  replace (len (list_byte_of_string version) =? -1) with false
    by (symmetry; apply Z.eqb_neq; lia).
  cbn [bind]. rewrite string_of_list_byte_of_string.
  assert (Hsplit : SplitN version "." 3 = [decimal major; decimal minor; rest]).
  { unfold SplitN. change (3 =? 0) with false. cbv iota.
    assert (Hl : 2 <= slen version).
    { subst version. rewrite !slen_append.
      pose proof (slen_nonneg (decimal major)).
      pose proof (slen_nonneg (decimal minor)).
      pose proof (slen_nonneg rest).
      change (slen ".") with 1. lia. }
    replace (slen version + 1 <? 3) with false
      by (symmetry; apply Z.ltb_ge; lia).
    change (Z.to_nat (3 - 1)) with 2%nat. subst version.
    change ("." +:+ decimal minor +:+ "." +:+ rest)
      with (String "." (decimal minor +:+ String "." rest)).
    rewrite splitLoop_cut by exact (Index_digits _ _ _ Dmaj).
    rewrite splitLoop_cut by exact (Index_digits _ _ _ Dmin).
    reflexivity. }
  rewrite Hsplit.
  rewrite (ParseUint_decimal major Hmaj), (ParseUint_decimal minor Hmin).
  reflexivity.
Qed.

Lemma kernel_version_round_trip_witness :
  linux.KernelVersion
    (inl (list_byte_of_string
            (decimal 6 +:+ "." +:+ decimal 18 +:+ "." +:+ "44-fc-v165")
          ++ Byte.x00 :: [Byte.x00; Byte.x41]))
  = Ret (inl (6, 18)).
Proof.
  apply (kernel_version_round_trip 6 18 "44-fc-v165" [Byte.x00; Byte.x41]).
  - unfold maxUint64. cbn. lia.
  - unfold maxUint64. cbn. lia.
  - vm_compute. intuition discriminate.
Defined.

(** X19: a release needs three components.  A release string with one
    dot only, such as ["5.9"], is refused as an unsupported format, even
    when both parts are numbers. *)
Theorem kernel_version_needs_patch_level (a b : string) (pad : list byte) :
  Index a "." = -1 ->
  Index b "." = -1 ->
  ~ In Byte.x00 (list_byte_of_string (a +:+ "." +:+ b)) ->
  linux.KernelVersion
    (inl (list_byte_of_string (a +:+ "." +:+ b) ++ Byte.x00 :: pad))
  = Ret (inr linux.ErrVersionFormat).
Proof.
  intros Ha Hb Hnul.
  destruct (release_read (a +:+ "." +:+ b) pad Hnul) as [Hi Hs].
  cbv zeta in Hi, Hs.
  unfold linux.KernelVersion. rewrite Hs, Hi.
  pose proof (len_nonneg (list_byte_of_string (a +:+ "." +:+ b))).
  replace (len (list_byte_of_string (a +:+ "." +:+ b)) =? -1) with false
    by (symmetry; apply Z.eqb_neq; lia).
  cbn [bind]. rewrite string_of_list_byte_of_string.
  assert (Hsplit : SplitN (a +:+ "." +:+ b) "." 3 = [a; b]).
  { unfold SplitN. change (3 =? 0) with false. cbv iota.
    assert (Hl : 1 <= slen (a +:+ "." +:+ b)).
    { rewrite !slen_append. pose proof (slen_nonneg a).
      pose proof (slen_nonneg b). change (slen ".") with 1. lia. }
    change ("." +:+ b) with (String "." b).
    change ("." +:+ b) with (String "." b) in Hl.
    destruct (slen (a +:+ String "." b) + 1 <? 3) eqn:E.
    - apply Z.ltb_lt in E.
      replace (Z.to_nat (slen (a +:+ String "." b) + 1 - 1)) with 1%nat by lia.
      rewrite splitLoop_cut by exact Ha. reflexivity.
    - change (Z.to_nat (3 - 1)) with 2%nat.
      rewrite splitLoop_cut by exact Ha.
      rewrite splitLoop_last by exact Hb. reflexivity. }
  rewrite Hsplit. reflexivity.
Qed.

Lemma kernel_version_needs_patch_level_witness :
  linux.KernelVersion (inl (list_byte_of_string "5.9" ++ Byte.x00 :: []))
  = Ret (inr linux.ErrVersionFormat).
Proof.
  apply (kernel_version_needs_patch_level "5" "9" []).
  - reflexivity.
  - reflexivity.
  - vm_compute. intuition discriminate.
Defined.

(** X20: [KernelVersion] on any answer of [uname].  It never panics, it
    fails when the release array holds no NUL byte, and the numbers it
    returns are within [uint64]. *)
Theorem kernel_version_total (uname : list byte + Errno) :
  exists r,
    linux.KernelVersion uname = Ret r /\
    (forall Release, uname = inl Release -> ~ In Byte.x00 Release ->
       r = inr linux.ErrInvalidMetadata) /\
    (forall major minor, r = inl (major, minor) ->
       0 <= major <= maxUint64 /\ 0 <= minor <= maxUint64).
Proof.
  destruct uname as [Release|err]; unfold linux.KernelVersion.
  - pose proof (IndexByte_range Release Byte.x00) as Hr.
    destruct (IndexByte Release Byte.x00 =? -1) eqn:E.
    + eexists. split; [reflexivity|].
      split; [reflexivity | intros ? ? H; discriminate H].
    + apply Z.eqb_neq in E. unfold slice_to.
      rewrite slice_ok by lia. cbn [bind].
      assert (Hnul : forall R, inl Release = @inl _ Errno R -> ~ In Byte.x00 R ->
                False).
      { intros R HR Hn. injection HR as <-. apply E. clear -Hn.
        induction Release as [|b R IH]; [reflexivity|].
        cbn [IndexByte]. destruct (Byte.eqb b Byte.x00) eqn:Eb.
        - apply Byte.byte_dec_bl in Eb. subst b. exfalso. apply Hn.
          left. reflexivity.
        - rewrite IH by (intros H; apply Hn; right; exact H). reflexivity. }
      destruct (SplitN _ "." 3) as [|c0 [|c1 [|c2 [|c3 cs]]]];
        try (eexists; split; [reflexivity|];
             split; [intros R HR Hn; destruct (Hnul R HR Hn)
                    | intros ? ? H; discriminate H]).
      destruct (ParseUint c0) as [major|e0] eqn:P0;
        [|eexists; split; [reflexivity|];
          split; [intros R HR Hn; destruct (Hnul R HR Hn)
                 | intros ? ? H; discriminate H]].
      destruct (ParseUint c1) as [minor|e1] eqn:P1;
        [|eexists; split; [reflexivity|];
          split; [intros R HR Hn; destruct (Hnul R HR Hn)
                 | intros ? ? H; discriminate H]].
      eexists. split; [reflexivity|].
      split; [intros R HR Hn; destruct (Hnul R HR Hn)|].
      intros ? ? H. injection H as <- <-.
      split; [exact (ParseUint_range _ _ P0) | exact (ParseUint_range _ _ P1)].
  - eexists. split; [reflexivity|].
    split; [intros R H; discriminate H | intros ? ? H; discriminate H].
Qed.

(** ** Start-up *)

Lemma requiredCaps_bits (caps : Z) :
  Z.land caps cmd.requiredCaps = cmd.requiredCaps <->
  Z.testbit caps cmd.CAP_SYS_ADMIN = true /\
  Z.testbit caps cmd.CAP_DAC_READ_SEARCH = true.
Proof.
  unfold cmd.CAP_SYS_ADMIN, cmd.CAP_DAC_READ_SEARCH.
  change cmd.requiredCaps with (Z.lor (2 ^ 21) (2 ^ 2)).
  split.
  - intros H. split.
    + apply (f_equal (fun x => Z.testbit x 21)) in H.
      rewrite Z.land_spec in H.
      change (Z.testbit (Z.lor (2 ^ 21) (2 ^ 2)) 21) with true in H.
      rewrite andb_true_r in H. exact H.
    + apply (f_equal (fun x => Z.testbit x 2)) in H.
      rewrite Z.land_spec in H.
      change (Z.testbit (Z.lor (2 ^ 21) (2 ^ 2)) 2) with true in H.
      rewrite andb_true_r in H. exact H.
  - intros [H21 H2]. apply Z.bits_inj'. intros n Hn.
    rewrite Z.land_spec, Z.lor_spec, !Z.pow2_bits_eqb by lia.
    destruct (Z.eqb_spec 21 n) as [<-|]; [rewrite H21; reflexivity|].
    destruct (Z.eqb_spec 2 n) as [<-|]; [rewrite H2; reflexivity|].
    apply andb_false_r.
Qed.

(** [KernelVersion] returns. *)
Lemma kernel_version_total_aux (uname : list byte + Errno) :
  exists r, linux.KernelVersion uname = Ret r.
Proof.
  destruct uname as [Release|err]; unfold linux.KernelVersion;
    [|eexists; reflexivity].
  pose proof (IndexByte_range Release Byte.x00) as Hr.
  destruct (IndexByte Release Byte.x00 =? -1) eqn:E; [eexists; reflexivity|].
  apply Z.eqb_neq in E. unfold slice_to. rewrite slice_ok by lia. cbn [bind].
  destruct (SplitN _ "." 3) as [|c0 [|c1 [|c2 [|c3 cs]]]];
    try (eexists; reflexivity).
  destruct (ParseUint c0); [|eexists; reflexivity].
  destruct (ParseUint c1); eexists; reflexivity.
Qed.

(** The two ways [Initialize] ends, with the descriptors each leaves. *)
Lemma Initialize_shape (k : InitAnswers) (setting : Settings) (p : Process) :
  (exists wm p1, Initialize k setting p = (inl wm, p1) /\
     descriptors p1 = rfd wm :: ffd wm :: descriptors p) \/
  (exists e p1, Initialize k setting p = (inr e, p1) /\
     descriptors p1 = descriptors p).
Proof.
  unfold Initialize, sys_acquire, sys_call, sys_close.
  destruct (fanotify_init k) as [ffd0|e];
    [|right; eexists _, _; split; reflexivity].
  destruct (fanotify_mark k) as [e|].
  { right. eexists _, _. split; [reflexivity|].
    cbn [descriptors]. apply release_head. }
  destruct (open_root k) as [rfd0|e].
  - left. eexists _, _. split; reflexivity.
  - right. eexists _, _. split; [reflexivity|].
    cbn [descriptors]. apply release_head.
Qed.

(** Loading plugins leaves the descriptors of the watcher alone. *)
Lemma loadOne_fds (file : loader.plugin_file) (pl : Pipeline) :
  ffd (watchman (snd (loader.loadOne file pl))) = ffd (watchman pl) /\
  rfd (watchman (snd (loader.loadOne file pl))) = rfd (watchman pl).
Proof.
  destruct file as [| | | |name init_fails handle]; cbn; try (split; reflexivity).
  destruct (String.eqb name ""), init_fails; cbn; split; reflexivity.
Qed.

Lemma Load_watchman_fds (dir : string)
    (glob : option (list (string * loader.plugin_file)))
    (pl pl' : Pipeline) (r : option loader.load_error) :
  loader.Load dir glob pl = (r, pl') ->
  rfd (watchman pl') :: ffd (watchman pl') :: nil
  = rfd (watchman pl) :: ffd (watchman pl) :: nil.
Proof.
  unfold loader.Load. destruct (String.eqb dir "").
  { intros H. injection H as _ <-. reflexivity. }
  destruct glob as [entries|]; [|intros H; injection H as _ <-; reflexivity].
  intros H. injection H as _ <-. clear.
  revert pl. induction entries as [|[path file] entries IH]; intros pl;
    cbn [fold_left snd]; [reflexivity|].
  rewrite IH. destruct (loadOne_fds file pl) as [-> ->]. reflexivity.
Qed.

(** X21: start-up.  [cmd.Initialize] never panics.  It succeeds only on a
    kernel of version 5.9 or later, with CAP_SYS_ADMIN and
    CAP_DAC_READ_SEARCH in the effective set and a configuration that
    loads; the process then holds the two descriptors of the watcher.  When
    the watcher fails to initialize, no descriptor of it stays open; when
    listing the plugin directory fails, the error is returned with both
    descriptors of the watcher still open. *)
Theorem startup_outcomes (h : cmd.Host) (p : Process) :
  exists r p',
    cmd.Initialize h p = Ret (r, p') /\
    (forall pl, r = inl pl ->
       exists major minor caps setting,
         linux.KernelVersion (cmd.uname h) = Ret (inl (major, minor)) /\
         (5 < major \/ (major = 5 /\ 9 <= minor)) /\
         linux.Capabilities (cmd.pid h) (cmd.capget h) = inl caps /\
         Z.testbit caps 21 = true /\ Z.testbit caps 2 = true /\
         settings.Load (cmd.Clean h) (cmd.configFile h) = inl setting /\
         descriptors p'
         = rfd (watchman pl) :: ffd (watchman pl) :: descriptors p) /\
    (forall e, r = inr (cmd.ErrWatcher e) -> descriptors p' = descriptors p) /\
    (forall e, r = inr (cmd.ErrLoader e) ->
       exists ffd0 rfd0, descriptors p' = rfd0 :: ffd0 :: descriptors p).
Proof.
  unfold cmd.Initialize.
  destruct (kernel_version_total_aux (cmd.uname h)) as (v & Hv). rewrite Hv.
  cbn [bind].
  destruct v as [[major minor]|e];
    [|eexists _, _; split; [reflexivity|]; repeat split;
      intros ? H; discriminate H].
  unfold cmd.MinSupportedKernelMajor, cmd.MinSupportedKernelMinor.
  destruct ((major <? 5) || ((major =? 5) && (minor <? 9))) eqn:Ever;
    [eexists _, _; split; [reflexivity|]; repeat split;
      intros ? H; discriminate H|].
  assert (Hver : 5 < major \/ (major = 5 /\ 9 <= minor)).
  { apply orb_false_elim in Ever. destruct Ever as [E1 E2].
    apply Z.ltb_ge in E1. apply andb_false_elim in E2.
    destruct E2 as [E2|E2]; [apply Z.eqb_neq in E2 | apply Z.ltb_ge in E2]; lia. }
  destruct (linux.Capabilities (cmd.pid h) (cmd.capget h)) as [caps|e] eqn:Ecaps;
    [|eexists _, _; split; [reflexivity|]; repeat split;
      intros ? H; discriminate H].
  destruct (Z.land caps cmd.requiredCaps =? cmd.requiredCaps) eqn:Ereq;
    cbn [negb];
    [|eexists _, _; split; [reflexivity|]; repeat split;
      intros ? H; discriminate H].
  apply Z.eqb_eq, requiredCaps_bits in Ereq. destruct Ereq as [B21 B2].
  destruct (settings.Load (cmd.Clean h) (cmd.configFile h)) as [setting|e]
    eqn:Eload;
    [|eexists _, _; split; [reflexivity|]; repeat split;
      intros ? H; discriminate H].
  destruct (Initialize_shape (cmd.initAnswers h) setting p)
    as [(wm & p1 & Hi & Hd) | (e & p1 & Hi & Hd)]; rewrite Hi.
  - destruct (loader.Load (PluginRoot setting) (cmd.pluginGlob h)
                (newPipeline wm)) as [[e|] pl] eqn:Eld.
    + eexists _, _. split; [reflexivity|].
      split; [intros ? H; discriminate H|].
      split; [intros ? H; discriminate H|].
      intros ? _. eexists _, _. exact Hd.
    + eexists _, _. split; [reflexivity|].
      split; [|split; intros ? H; discriminate H].
      intros ? H. injection H as <-.
      exists major, minor, caps, setting.
      repeat (split; [first [reflexivity | assumption]|]).
      pose proof (Load_watchman_fds _ _ _ _ _ Eld) as Hf.
      injection Hf as -> ->. exact Hd.
  - eexists _, _. split; [reflexivity|].
    split; [intros ? H; discriminate H|].
    split; [intros ? _; exact Hd | intros ? H; discriminate H].
Qed.

(** ** The logging listener *)

Lemma str_from_nil (n : nat) : str_from n "" = "".
Proof. destruct n; reflexivity. Qed.

Lemma str_from_len (n : nat) :
  forall s, String.length (str_from n s) = (String.length s - n)%nat.
Proof.
  induction n as [|n IH]; intros [|c s]; cbn [str_from String.length];
    try reflexivity.
  apply IH.
Qed.

Lemma HasPrefix_length (s p : string) :
  HasPrefix s p = true -> (String.length p <= String.length s)%nat.
Proof.
  revert s. induction p as [|c p IH]; intros s H; cbn [String.length].
  - lia.
  - destruct s as [|x s]; cbn [HasPrefix] in H; [discriminate H|].
    apply andb_prop in H. destruct H as [_ H]. apply IH in H.
    cbn [String.length]. lia.
Qed.

(** [LastIndex] gives the last position where [substr] starts. *)
Lemma LastIndex_spec (substr : string) :
  forall s,
    (LastIndex s substr = -1 /\
     forall j, (j <= String.length s)%nat ->
       HasPrefix (str_from j s) substr = false) \/
    (exists i,
       LastIndex s substr = Z.of_nat i /\ (i <= String.length s)%nat /\
       HasPrefix (str_from i s) substr = true /\
       forall j, (i < j <= String.length s)%nat ->
         HasPrefix (str_from j s) substr = false).
Proof.
  induction s as [|c s IH]; cbn [LastIndex].
  - destruct (HasPrefix "" substr) eqn:E.
    + right. exists 0%nat. cbn [str_from String.length].
      repeat split; [lia | exact E | intros j Hj; lia].
    + left. split; [reflexivity|]. intros j _. rewrite str_from_nil. exact E.
  - destruct IH as [[Hi Hall] | (i & Hi & Hle & Hp & Hmax)]; rewrite Hi.
    + change (0 <=? -1) with false. cbv iota.
      destruct (HasPrefix (String c s) substr) eqn:E.
      * right. exists 0%nat. cbn [str_from String.length].
        repeat split; [lia | exact E |].
        intros [|j] Hj; [lia|]. cbn [str_from]. apply Hall. lia.
      * left. split; [reflexivity|].
        intros [|j] Hj; [exact E|]. cbn [str_from]. apply Hall.
        cbn [String.length] in Hj. lia.
    + replace (0 <=? Z.of_nat i) with true by (symmetry; apply Z.leb_le; lia).
      right. exists (S i). cbn [str_from String.length].
      repeat split; [lia | lia | exact Hp |].
      intros [|j] Hj; [lia|]. cbn [str_from]. apply Hmax. lia.
Qed.

Lemma Index_found (substr : string) :
  forall s, 0 <= Index s substr ->
    exists j, (j <= String.length s)%nat /\
      HasPrefix (str_from j s) substr = true.
Proof.
  induction s as [|c s IH]; intros H.
  - cbn [Index] in H. destruct (HasPrefix "" substr) eqn:E; [|lia].
    exists 0%nat. split; [lia | exact E].
  - cbn [Index] in H. destruct (HasPrefix (String c s) substr) eqn:E.
    + exists 0%nat. split; [lia | exact E].
    + destruct (Index s substr <? 0) eqn:E'; [lia|]. apply Z.ltb_ge in E'.
      destruct (IH E') as (j & Hj & Hp). exists (S j).
      cbn [String.length str_from]. split; [lia | exact Hp].
Qed.

(** Where [Contains] holds, the slice of [LoggingHandler] is in range. *)
Lemma marker_slice (s substr : string) :
  Contains s substr = true ->
  exists i,
    (i <= String.length s)%nat /\
    str_slice_to s (LastIndex s substr) = Ret (str_to i s).
Proof.
  unfold Contains. intros H. apply Z.leb_le in H.
  destruct (Index_found substr s H) as (j & Hj & Hp).
  destruct (LastIndex_spec substr s) as [[_ Hall] | (i & Hi & Hle & _)].
  - rewrite (Hall j Hj) in Hp. discriminate Hp.
  - exists i. split; [exact Hle|]. rewrite Hi. unfold str_slice_to, slen.
    replace (0 <=? Z.of_nat i) with true by (symmetry; apply Z.leb_le; lia).
    replace (Z.of_nat i <=? Z.of_nat (String.length s)) with true
      by (symmetry; apply Z.leb_le; lia).
    rewrite Nat2Z.id. reflexivity.
Qed.

Lemma LastIndex_suffix (base suffix : string) :
  LastIndex (base +:+ suffix) suffix = slen base.
Proof.
  assert (Hat : HasPrefix (str_from (String.length base) (base +:+ suffix))
                  suffix = true).
  { rewrite str_from_append. rewrite <- (append_nil_r suffix) at 1.
    apply HasPrefix_refl_append. }
  assert (Hlen : String.length (base +:+ suffix)
                 = (String.length base + String.length suffix)%nat).
  { clear. induction base as [|c base IH]; cbn [append String.length]; lia. }
  destruct (LastIndex_spec suffix (base +:+ suffix))
    as [[_ Hall] | (i & Hi & Hle & Hp & Hmax)].
  - rewrite Hall in Hat by lia. discriminate Hat.
  - rewrite Hi. unfold slen. f_equal.
    apply HasPrefix_length in Hp. rewrite str_from_len, Hlen in Hp.
    destruct (Nat.lt_ge_cases i (String.length base)) as [Hlt|Hge]; [|lia].
    rewrite Hmax in Hat by lia. discriminate Hat.
Qed.

Lemma Contains_suffix (base suffix : string) :
  Contains (base +:+ suffix) suffix = true.
Proof.
  unfold Contains. apply Z.leb_le.
  induction base as [|c base IH]; cbn [append Index].
  - assert (Hp : HasPrefix suffix suffix = true)
      by (rewrite <- (append_nil_r suffix) at 1; apply HasPrefix_refl_append).
    destruct suffix; cbn [Index]; rewrite Hp; lia.
  - destruct (HasPrefix (String c (base +:+ suffix)) suffix); [lia|].
    destruct (Index (base +:+ suffix) suffix <? 0) eqn:E; [|lia].
    apply Z.ltb_lt in E. lia.
Qed.

(** What [LoggingHandler] prints for a delete event whose file name ends
    with the marker. *)
Lemma LoggingHandler_marked (join : string -> string -> string)
    (eventType dir base : string) (isDir : bool) :
  eventType = "DELETE" \/ eventType = "DELETE_SELF" ->
  listener.LoggingHandler join eventType dir (base +:+ " (deleted)") isDir
  = Ret (join dir base).
Proof.
  intros He. unfold listener.LoggingHandler.
  replace (String.eqb eventType "DELETE" || String.eqb eventType "DELETE_SELF")
    with true by (destruct He as [-> | ->]; reflexivity).
  rewrite Contains_suffix. cbn [andb].
  rewrite LastIndex_suffix. unfold str_slice_to.
  pose proof (slen_nonneg base). pose proof (slen_nonneg " (deleted)").
  rewrite slen_append.
  replace (0 <=? slen base) with true by (symmetry; apply Z.leb_le; lia).
  replace (slen base <=? slen base + slen " (deleted)") with true
    by (symmetry; apply Z.leb_le; lia).
  cbn [andb bind]. unfold slen. rewrite Nat2Z.id, str_to_append. reflexivity.
Qed.

Lemma LoggingHandler_other (join : string -> string -> string)
    (eventType dir file : string) (isDir : bool) :
  eventType <> "DELETE" -> eventType <> "DELETE_SELF" ->
  listener.LoggingHandler join eventType dir file isDir = Ret (join dir file).
Proof.
  intros H1 H2. unfold listener.LoggingHandler.
  apply String.eqb_neq in H1, H2. rewrite H1, H2. reflexivity.
Qed.

(** X22: the logging listener.  [LoggingHandler] never panics and prints
    the directory joined with a prefix of the file name.  The prefix is
    the whole name unless the event type is exactly ["DELETE"] or
    ["DELETE_SELF"] and the name contains [" (deleted)"]; for such an
    event a name that ends with the marker is printed without it, even
    when the rest of the name contains the marker again. *)
Theorem logging_handler_output (join : string -> string -> string)
    (eventType dir file : string) (isDir : bool) :
  exists shown,
    listener.LoggingHandler join eventType dir file isDir
    = Ret (join dir shown) /\
    HasPrefix file shown = true /\
    (eventType <> "DELETE" /\ eventType <> "DELETE_SELF" -> shown = file) /\
    (Contains file " (deleted)" = false -> shown = file) /\
    (forall base,
        eventType = "DELETE" \/ eventType = "DELETE_SELF" ->
        file = base +:+ " (deleted)" -> shown = base).
Proof.
  assert (Hself : HasPrefix file file = true).
  { rewrite <- (append_nil_r file) at 1. apply HasPrefix_refl_append. }
  destruct (string_dec eventType "DELETE") as [H1|H1];
    [|destruct (string_dec eventType "DELETE_SELF") as [H2|H2]].
  3: { exists file. rewrite LoggingHandler_other by assumption.
       split; [reflexivity|]. split; [exact Hself|].
       split; [reflexivity|]. split; [reflexivity|].
       intros base [H|H]; contradiction. }
  all: assert (He : eventType = "DELETE" \/ eventType = "DELETE_SELF") by tauto.
  all: destruct (Contains file " (deleted)") eqn:Ec.
  all: try (exists file; unfold listener.LoggingHandler; rewrite Ec;
            rewrite andb_false_r; cbn [bind];
            split; [reflexivity|]; split; [exact Hself|];
            split; [reflexivity|]; split; [reflexivity|];
            intros base _ Hf; rewrite Hf, Contains_suffix in Ec;
            discriminate Ec).
  all: destruct (marker_slice file " (deleted)" Ec) as (i & Hi & Hs).
  all: exists (str_to i file).
  all: split;
    [unfold listener.LoggingHandler; rewrite Ec;
     replace (String.eqb eventType "DELETE"
              || String.eqb eventType "DELETE_SELF") with true
       by (destruct He as [-> | ->]; reflexivity);
     cbn [andb]; rewrite Hs; reflexivity|].
  all: split;
    [apply HasPrefix_append; exists (str_from i file);
     symmetry; apply str_to_from|].
  all: split; [intros [N1 N2]; destruct He; contradiction|].
  all: split; [discriminate|].
  all: intros base _ Hf; subst file;
    pose proof (LoggingHandler_marked join eventType dir base isDir He) as Hm;
    unfold listener.LoggingHandler in Hm; rewrite Ec in Hm;
    replace (String.eqb eventType "DELETE"
             || String.eqb eventType "DELETE_SELF") with true in Hm
      by (destruct He as [-> | ->]; reflexivity);
    cbn [andb] in Hm; rewrite Hs in Hm; cbn [bind] in Hm.
  all: unfold str_slice_to in Hs;
    rewrite LastIndex_suffix in Hs;
    pose proof (slen_nonneg base); pose proof (slen_nonneg " (deleted)");
    rewrite slen_append in Hs;
    replace (0 <=? slen base) with true in Hs
      by (symmetry; apply Z.leb_le; lia);
    replace (slen base <=? slen base + slen " (deleted)") with true in Hs
      by (symmetry; apply Z.leb_le; lia);
    cbn [andb] in Hs; apply Ret_inj in Hs; rewrite <- Hs;
    unfold slen; rewrite Nat2Z.id; apply str_to_append.
Qed.

(** ** Event types as the listeners see them *)

Lemma land_bit (m k : Z) :
  0 <= k -> Z.land m (2 ^ k) = 0 \/ Z.land m (2 ^ k) = 2 ^ k.
Proof.
  intros Hk. destruct (Z.testbit m k) eqn:E; [right | left];
    apply Z.bits_inj'; intros n Hn;
    rewrite Z.land_spec, ?Z.bits_0, Z.pow2_bits_eqb by lia;
    destruct (Z.eqb_spec k n) as [<-|]; rewrite ?E, ?andb_false_r; reflexivity.
Qed.

(** X23: what the logging listener does with the event types of the
    pipeline.  The listener receives [maskToString mask].  It removes the
    marker [" (deleted)"] exactly when, of the five bits [maskToString]
    names, the mask has FAN_DELETE alone or FAN_DELETE_SELF alone; an event
    that combines a delete bit with another named bit is printed with the
    marker. *)
Theorem marker_removed_for_plain_delete (join : string -> string -> string)
    (mask : Z) (dir base : string) (isDir : bool) :
  listener.LoggingHandler join (maskToString mask) dir
    (base +:+ " (deleted)") isDir
  = Ret (join dir
           (if (Z.land mask named_bits =? FAN_DELETE)
               || (Z.land mask named_bits =? FAN_DELETE_SELF)
            then base
            else base +:+ " (deleted)")).
Proof.
  unfold named_bits. rewrite !Z.land_lor_distr_r.
  unfold maskToString.
  destruct (land_bit mask 8 ltac:(lia)) as [H1|H1];
  destruct (land_bit mask 9 ltac:(lia)) as [H2|H2];
  destruct (land_bit mask 10 ltac:(lia)) as [H3|H3];
  destruct (land_bit mask 3 ltac:(lia)) as [H4|H4];
  destruct (land_bit mask 7 ltac:(lia)) as [H5|H5];
  change FAN_CREATE with (2 ^ 8); change FAN_DELETE with (2 ^ 9);
  change FAN_DELETE_SELF with (2 ^ 10); change FAN_CLOSE_WRITE with (2 ^ 3);
  change FAN_MOVED_TO with (2 ^ 7);
  rewrite H1, H2, H3, H4, H5;
  first
    [ apply LoggingHandler_marked; cbn; auto
    | apply LoggingHandler_other; cbn; discriminate ].
Qed.
